(** * Oblysk: the platform-adaptive input dispatch layer

    A shallow embedding of the main process of Oblysk ([src/main.js], and the
    earlier Windows-only main process kept next to it) and the properties
    its specification states about it.

    Conventions.
    - A JavaScript string is its sequence of UTF-16 code units
      ([jsString]); [length] is JavaScript's [.length], [take]/[drop] give
      [slice], and a [for (const char of s)] loop walks [codePoints s].
    - Module-level [let] variables of the main process are fields of
      [World]; functions that touch them pass the world explicitly.
    - What the operating system decides (clipboard reads, the outcome of a
      child process, the clock) is an argument of the function that
      observes it. *)

From Stdlib Require Import ZArith NArith Ascii String DecimalString.
From stdpp Require Import base decidable list gmap.
From Equations Require Import Equations.

Local Open Scope N_scope.

(** ** JavaScript strings *)

Definition codeUnit := N.
Definition jsString := list codeUnit.

Definition ch (a : ascii) : codeUnit := N_of_ascii a.
Definition lit (s : string) : jsString := map N_of_ascii (list_ascii_of_string s).

Definition isHighSurrogate (u : codeUnit) : bool := (55296 <=? u) && (u <=? 56319).
Definition isLowSurrogate (u : codeUnit) : bool := (56320 <=? u) && (u <=? 57343).

(** The string iterator behind [for (const char of s)]: one string per
    code point, a surrogate pair staying together, a lone surrogate being
    an element of its own. *)
Fixpoint codePoints (s : jsString) : list jsString :=
  match s with
  | [] => []
  | u :: rest =>
      if isHighSurrogate u then
        match rest with
        | v :: rest' =>
            if isLowSurrogate v then [u; v] :: codePoints rest'
            else [u] :: codePoints rest
        | [] => [[u]]
        end
      else [u] :: codePoints rest
  end.

(** [s.replace(/c/g, r)] for a pattern that is one literal character. *)
Definition replaceAll (c : codeUnit) (r : jsString) (s : jsString) : jsString :=
  flat_map (fun u => if u =? c then r else [u]) s.

(** [s.replace(/\r?\n/g, r)]: at a carriage return the optional group is
    tried first and the match needs a line feed right after it. *)
Fixpoint replaceNewlines (r : jsString) (s : jsString) : jsString :=
  match s with
  | [] => []
  | u :: rest =>
      if u =? 13 then
        match rest with
        | v :: rest' =>
            if v =? 10 then r ++ replaceNewlines r rest'
            else u :: replaceNewlines r rest
        | [] => [u]
        end
      else if u =? 10 then r ++ replaceNewlines r rest
      else u :: replaceNewlines r rest
  end.

(** [String(n)] and the rendering of [n] in a template literal, for an
    integer [n] of magnitude below 10^21: its decimal digits, with a minus
    sign when negative. (From 10^21 on JavaScript writes a number with an
    exponent; the lengths, counts, exit codes and millisecond values
    rendered here are far below that.) *)
Definition showZ (n : Z) : jsString := lit (NilZero.string_of_int (Z.to_int n)).
Definition showNat (n : nat) : jsString := showZ (Z.of_nat n).

(** ** Windows: PowerShell + SendKeys *)

Definition escapeSendKeys (char : jsString) : jsString :=
  if decide (char = lit "{") then lit "{{"
  else if decide (char = lit "}") then lit "}}"
  else if decide (char = lit "+") then lit "{+}"
  else if decide (char = lit "^") then lit "{^}"
  else if decide (char = lit "%") then lit "{%}"
  else if decide (char = lit "~") then lit "{~}"
  else if decide (char = lit "(") then lit "{(}"
  else if decide (char = lit ")") then lit "{)}"
  else if decide (char = lit "[") then lit "{[}"
  else if decide (char = lit "]") then lit "{]}"
  else char.

(** [let escapedBatch = ''; for (const char of batch) escapedBatch += escapeSendKeys(char);] *)
Definition escapeBatch (batch : jsString) : jsString :=
  fold_left (fun escapedBatch char => escapedBatch ++ escapeSendKeys char)
            (codePoints batch) [].

(** [escapedBatch.replace(/'/g, "''")] *)
Definition safeEscapedBatch (batch : jsString) : jsString :=
  replaceAll (ch "'") (lit "''") (escapeBatch batch).

(** [Math.max(1, Math.min(20, Math.floor(200 / delay)))] for an integer
    number of milliseconds; [200 / 0] is [Infinity] in JavaScript, which
    [Math.min] caps at 20. *)
Definition batchSize (delay : Z) : Z :=
  if (delay =? 0)%Z then 20%Z
  else Z.max 1 (Z.min 20 (200 / delay)).

(** The loop of [pasteViaShellWindows] over the characters of the text. *)
Definition shellEscapeStep (escapedText char : jsString) : jsString :=
  if decide (char = [10]) then escapedText ++ lit "{ENTER}"
  else if decide (char = [13]) then escapedText
  else escapedText ++ escapeSendKeys char.

Definition shellEscapedText (text : jsString) : jsString :=
  replaceAll (ch "'") (lit "''") (fold_left shellEscapeStep (codePoints text) []).

(** ** The process: logger, window, timers *)

Inductive Platform := win32 | linux | darwin.

Definition PLATFORM_NAME (p : Platform) : jsString :=
  match p with
  | win32 => lit "Windows"
  | darwin => lit "macOS"
  | linux => lit "Linux"
  end.

Inductive LogData :=
| NoData
| ErrorData (message : jsString).

Record LogEntry := mkLogEntry {
  timestamp : N;
  level : jsString;
  category : jsString;
  message : jsString;
  data : LogData;
  entry_pid : N
}.

#[global] Instance LogData_eq_dec : EqDecision LogData.
Proof. solve_decision. Defined.

#[global] Instance LogEntry_eq_dec : EqDecision LogEntry.
Proof. solve_decision. Defined.

Inductive IpcMessage :=
| MainProcessLog (entry : LogEntry)
| ClipboardChanged (text : jsString).

(** The module-level state of the main process together with the part of
    the runtime it acts on: the clock ([now], read by [new Date()]), the
    interval timers the event loop holds, and the messages delivered to
    the renderer so far (oldest first). Console output is not kept. *)
Record World := mkWorld {
  PLATFORM : Platform;
  pid : N;
  now : N;
  logs : list LogEntry;
  mainWindow : bool;
  sent : list IpcMessage;
  clipboardMonitorInterval : option nat;
  lastClipboardText : jsString;
  intervals : gset nat;
  nextTimer : nat
}.

Definition set_logs (l : list LogEntry) (w : World) : World :=
  mkWorld (PLATFORM w) (pid w) (now w) l (mainWindow w) (sent w)
          (clipboardMonitorInterval w) (lastClipboardText w) (intervals w) (nextTimer w).

Definition set_lastClipboardText (t : jsString) (w : World) : World :=
  mkWorld (PLATFORM w) (pid w) (now w) (logs w) (mainWindow w) (sent w)
          (clipboardMonitorInterval w) t (intervals w) (nextTimer w).

Definition set_now (t : N) (w : World) : World :=
  mkWorld (PLATFORM w) (pid w) t (logs w) (mainWindow w) (sent w)
          (clipboardMonitorInterval w) (lastClipboardText w) (intervals w) (nextTimer w).

Definition set_mainWindow (b : bool) (w : World) : World :=
  mkWorld (PLATFORM w) (pid w) (now w) (logs w) b (sent w)
          (clipboardMonitorInterval w) (lastClipboardText w) (intervals w) (nextTimer w).

(** [mainWindow.webContents.send(channel, payload)] *)
Definition send (m : IpcMessage) (w : World) : World :=
  mkWorld (PLATFORM w) (pid w) (now w) (logs w) (mainWindow w) (sent w ++ [m])
          (clipboardMonitorInterval w) (lastClipboardText w) (intervals w) (nextTimer w).

(** [setInterval(callback, 750)]: the event loop holds a new timer. *)
Definition setInterval (w : World) : nat * World :=
  (nextTimer w,
   mkWorld (PLATFORM w) (pid w) (now w) (logs w) (mainWindow w) (sent w)
           (clipboardMonitorInterval w) (lastClipboardText w)
           ({[nextTimer w]} ∪ intervals w) (S (nextTimer w))).

Definition clearInterval (t : nat) (w : World) : World :=
  mkWorld (PLATFORM w) (pid w) (now w) (logs w) (mainWindow w) (sent w)
          (clipboardMonitorInterval w) (lastClipboardText w)
          (intervals w ∖ {[t]}) (nextTimer w).

Definition set_clipboardMonitorInterval (t : option nat) (w : World) : World :=
  mkWorld (PLATFORM w) (pid w) (now w) (logs w) (mainWindow w) (sent w)
          t (lastClipboardText w) (intervals w) (nextTimer w).

Module MainProcessLogger.

Definition maxLogs : nat := 200.

(** [this.logs.unshift(entry); if (this.logs.length > this.maxLogs) this.logs.pop();] *)
Definition unshift_pop (entry : LogEntry) (logs : list LogEntry) : list LogEntry :=
  let logs := entry :: logs in
  if Nat.ltb maxLogs (length logs) then removelast logs else logs.

Definition log (level category message : jsString) (data : LogData) (w : World) : World :=
  let entry := mkLogEntry (now w) level category message data (pid w) in
  let w := set_logs (unshift_pop entry (logs w)) w in
  if mainWindow w then send (MainProcessLog entry) w else w.

Definition getLogs (w : World) : list LogEntry := logs w.

End MainProcessLogger.

Module logger := MainProcessLogger.

(** One call of [logger.log] as the outside sees it: the clock value at
    the call and the four arguments. *)
Record LogCall := mkLogCall {
  call_time : N;
  call_level : jsString;
  call_category : jsString;
  call_message : jsString;
  call_data : LogData
}.

Definition record (c : LogCall) (w : World) : World :=
  logger.log (call_level c) (call_category c) (call_message c) (call_data c)
             (set_now (call_time c) w).

Definition entryOf (w : World) (c : LogCall) : LogEntry :=
  mkLogEntry (call_time c) (call_level c) (call_category c) (call_message c)
             (call_data c) (pid w).

(** ** Clipboard monitoring *)

(** What [clipboard.readText()] does at one call. *)
Inductive ReadResult :=
| ReadText (text : jsString)
| ReadThrows (message : jsString).

Definition stopClipboardMonitoring (w : World) : World :=
  match clipboardMonitorInterval w with
  | Some t =>
      let w := clearInterval t w in
      let w := set_clipboardMonitorInterval None w in
      logger.log (lit "info") (lit "clipboard") (lit "Clipboard monitoring stopped") NoData w
  | None => w
  end.

Definition startClipboardMonitoring (read : ReadResult) (w : World) : World :=
  let w := logger.log (lit "info") (lit "clipboard")
             (lit "Starting clipboard monitoring on " ++ PLATFORM_NAME (PLATFORM w)) NoData w in
  let w := stopClipboardMonitoring w in
  let w :=
    match read with
    | ReadText text =>
        let w := set_lastClipboardText text w in
        logger.log (lit "info") (lit "clipboard")
          (lit "Initial clipboard content: " ++ showNat (length (lastClipboardText w)) ++ lit " chars")
          NoData w
    | ReadThrows message =>
        let w := logger.log (lit "warn") (lit "clipboard")
                   (lit "Could not read initial clipboard") (ErrorData message) w in
        set_lastClipboardText [] w
    end in
  let (t, w) := setInterval w in
  set_clipboardMonitorInterval (Some t) w.

(** The callback given to [setInterval]. *)
Definition clipboardTick (read : ReadResult) (w : World) : World :=
  match read with
  | ReadText currentText =>
      if bool_decide (currentText ≠ lastClipboardText w) && Nat.ltb 0 (length currentText) then
        let previousLength := length (lastClipboardText w) in
        let w := set_lastClipboardText currentText w in
        let w := logger.log (lit "info") (lit "clipboard")
                   (lit "Clipboard changed: " ++ showNat previousLength ++ lit " -> "
                    ++ showNat (length currentText) ++ lit " chars") NoData w in
        if mainWindow w then send (ClipboardChanged currentText) w else w
      else w
  | ReadThrows message =>
      logger.log (lit "debug") (lit "clipboard") (lit "Clipboard read error (normal)")
                 (ErrorData message) w
  end.

(** The event loop runs the callback of a timer only while it holds it. *)
Definition fireInterval (t : nat) (read : ReadResult) (w : World) : World :=
  if decide (t ∈ intervals w) then clipboardTick read w else w.

(** What can happen to the monitor during the life of the process.
    [createWindow] assigns [mainWindow]; the delayed [dom-ready] callback
    calls [mainWindow.show()] (which throws when there is no window) and
    then starts the monitor; the [closed] handler clears [mainWindow] and
    stops the monitor; [before-quit] stops it; a timer fires; any part of
    the program logs; time passes. *)
Inductive MonitorEvent :=
| WindowCreated
| DomReady (read : ReadResult)
| WindowClosed
| BeforeQuit
| IntervalFires (t : nat) (read : ReadResult)
| Logs (c : LogCall)
| ClockAdvances (t : N).

Definition monitorStep (w : World) (e : MonitorEvent) : World :=
  match e with
  | WindowCreated => set_mainWindow true w
  | DomReady read => if mainWindow w then startClipboardMonitoring read w else w
  | WindowClosed => stopClipboardMonitoring (set_mainWindow false w)
  | BeforeQuit => stopClipboardMonitoring w
  | IntervalFires t read => fireInterval t read w
  | Logs c => record c w
  | ClockAdvances t => set_now t w
  end.

Definition run (events : list MonitorEvent) (w : World) : World :=
  fold_left monitorStep events w.

(** The process as the module body leaves it: no window, no timer, an
    empty snapshot, an empty log. *)
Definition initialWorld (platform : Platform) (pid now : N) : World :=
  mkWorld platform pid now [] false [] None [] ∅ 0.

(** The clipboard texts announced to the renderer, oldest first. *)
Definition clipboardEvents (w : World) : list jsString :=
  omap (fun m => match m with ClipboardChanged text => Some text | _ => None end) (sent w).

(** ** Command execution *)

(** The object a command resolves to. A field that the object literal does
    not have is [None]; [code] is [Some None] when the runtime reports
    [null] (a child ended by a signal). [method] is added by the callers. *)
Record ExecutionResult := mkResult {
  success : bool;
  res_message : option jsString;
  error : option jsString;
  output : option jsString;
  code : option (option Z);
  timeout : option Z;
  method : option jsString
}.

Definition with_method (m : jsString) (r : ExecutionResult) : ExecutionResult :=
  mkResult (success r) (res_message r) (error r) (output r) (code r) (timeout r) (Some m).

Inductive PromiseState :=
| Pending
| Fulfilled (value : ExecutionResult)
| Rejected (reason : jsString).

(** The call [spawn(command, args, { shell: true })]. *)
Record SpawnCall := mkSpawnCall {
  spawn_command : jsString;
  spawn_args : list jsString;
  spawn_shell : bool
}.

(** What the call does before it returns: it hands back a child, or it
    throws, when the operating system refuses the process outright (a
    command line that is too long, no memory). A program that cannot be
    found is no exception: the child is handed back and gets an [error]
    event later. *)
Inductive SpawnOutcome :=
| Spawned
| SpawnThrows (message : jsString).

(** What the runtime can deliver to the handlers [executeCommand] installs. *)
Inductive ProcessEvent :=
| StdoutData (chunk : jsString)
| StderrData (chunk : jsString)
| Close (code : option Z)
| SpawnError (message : jsString)
| TimeoutFires.

(** The variables of one [executeCommand] closure, with what it did to the
    outside: whether its timer is still held by the event loop, whether it
    killed the child, every call it made to [resolve], oldest first, and
    the exception its executor ended with, if it did. *)
Record Command := mkCommand {
  cmd_output : jsString;
  cmd_error : jsString;
  completed : bool;
  timerHeld : bool;
  killed : bool;
  resolveCalls : list ExecutionResult;
  thrown : option jsString
}.

(** The executor is never handed [reject], but it runs inside
    [new Promise]: an exception it ends with rejects the promise. It calls
    [resolve] from handlers only, which run after it has returned, so an
    exception comes before every call of [resolve]; otherwise the promise
    settles at the first call. *)
Definition promise (c : Command) : PromiseState :=
  match thrown c with
  | Some reason => Rejected reason
  | None =>
      match resolveCalls c with
      | [] => Pending
      | value :: _ => Fulfilled value
      end
  end.

Definition showCode (code : option Z) : jsString :=
  match code with
  | Some n => showZ n
  | None => lit "null"
  end.

(** [args.join(' ')] *)
Fixpoint join (args : list jsString) : jsString :=
  match args with
  | [] => []
  | [a] => a
  | a :: rest => a ++ lit " " ++ join rest
  end.


Section ExecuteCommand.

Variables (command : jsString) (args : list jsString) (timeoutMs : Z) (requestId : jsString).

(** [spawn] says what the runtime does with the call. *)
Variable spawn : SpawnCall -> SpawnOutcome.

Definition tag : jsString := lit "[" ++ requestId ++ lit "] ".

Definition spawnCall : SpawnCall := mkSpawnCall command args true.

(** The synchronous part, which is the executor of the promise: log,
    [spawn], and then, unless [spawn] threw, the variables, [setTimeout]
    and the handlers. *)
Definition executeCommand_start (w : World) : Command * World :=
  let w := logger.log (lit "info") (lit "command")
             (tag ++ lit "Executing: " ++ command ++ lit " " ++ take 100 (join args)) NoData w in
  match spawn spawnCall with
  | Spawned => (mkCommand [] [] false true false [] None, w)
  | SpawnThrows message => (mkCommand [] [] false false false [] (Some message), w)
  end.

Definition onTimeout (c : Command) (w : World) : Command * World :=
  if negb (completed c) then
    let w := logger.log (lit "error") (lit "command")
               (tag ++ lit "Command timed out after " ++ showZ timeoutMs ++ lit "ms") NoData w in
    (mkCommand (cmd_output c) (cmd_error c) true false true
       (resolveCalls c ++
        [mkResult false None (Some (lit "Command timed out")) None None (Some timeoutMs) None])
       (thrown c),
     w)
  else (mkCommand (cmd_output c) (cmd_error c) (completed c) false (killed c) (resolveCalls c)
                  (thrown c), w).

Definition onClose (code : option Z) (c : Command) (w : World) : Command * World :=
  if negb (completed c) then
    let w := logger.log (if decide (code = Some 0%Z) then lit "success" else lit "error")
               (lit "command")
               (tag ++ lit "Command finished with code " ++ showCode code) NoData w in
    let result :=
      if decide (code = Some 0%Z) then
        mkResult true (Some (lit "Command executed successfully")) None
                 (Some (cmd_output c)) (Some code) None None
      else
        mkResult false None
                 (Some (match cmd_error c with
                        | [] => lit "Command failed with code " ++ showCode code
                        | _ => cmd_error c
                        end))
                 (Some (cmd_output c)) (Some code) None None in
    (mkCommand (cmd_output c) (cmd_error c) true false (killed c) (resolveCalls c ++ [result])
               (thrown c), w)
  else (c, w).

Definition onError (message : jsString) (c : Command) (w : World) : Command * World :=
  if negb (completed c) then
    let w := logger.log (lit "error") (lit "command") (tag ++ lit "Command error")
               (ErrorData message) w in
    (mkCommand (cmd_output c) (cmd_error c) true false (killed c)
       (resolveCalls c ++ [mkResult false None (Some message) None None None None])
       (thrown c), w)
  else (c, w).

Definition deliver (s : Command * World) (e : ProcessEvent) : Command * World :=
  let (c, w) := s in
  match e with
  | StdoutData chunk =>
      (mkCommand (cmd_output c ++ chunk) (cmd_error c) (completed c) (timerHeld c)
                 (killed c) (resolveCalls c) (thrown c), w)
  | StderrData chunk =>
      (mkCommand (cmd_output c) (cmd_error c ++ chunk) (completed c) (timerHeld c)
                 (killed c) (resolveCalls c) (thrown c), w)
  | Close code => onClose code c w
  | SpawnError message => onError message c w
  | TimeoutFires => if timerHeld c then onTimeout c w else (c, w)
  end.

(** The command after the runtime has delivered [events], in order. When
    [spawn] threw there is no child, no timer and no handler, and nothing
    is delivered. *)
Definition executeCommand (events : list ProcessEvent) (w : World) : Command * World :=
  let s := executeCommand_start w in
  match thrown (fst s) with
  | Some _ => s
  | None => fold_left deliver events s
  end.

End ExecuteCommand.

(** An event that can settle the command. *)
Definition terminal (e : ProcessEvent) : bool :=
  match e with
  | Close _ | SpawnError _ | TimeoutFires => true
  | _ => false
  end.

(** The standard output and standard error chunks among [events]. *)
Definition capturedOutput (events : list ProcessEvent) : jsString :=
  flat_map (fun e => match e with StdoutData chunk => chunk | _ => [] end) events.

Definition capturedError (events : list ProcessEvent) : jsString :=
  flat_map (fun e => match e with StderrData chunk => chunk | _ => [] end) events.

(** ** Dispatch *)

(** What a dispatch function asks of the outside, in program order. *)
Inductive Action :=
| SetTimeout (ms : Z)
| Exec (cmd : jsString) (timeoutMs : Z)
| WriteClipboard (text : jsString)
| ExecuteCommand (command : jsString) (args : list jsString) (timeoutMs : Z) (requestId : jsString).

Definition dquote : jsString := [34].
Definition backslash : jsString := [92].

(** *** Windows keystroke simulation *)

Record KeystrokeResult := mkKeystrokeResult {
  ks_success : bool;
  ks_message : jsString;
  ks_errors : option (list jsString)
}.

Definition sendWaitCommand (safeEscaped : jsString) : jsString :=
  lit "powershell -Command " ++ dquote
  ++ lit "Add-Type -AssemblyName System.Windows.Forms; [System.Windows.Forms.SendKeys]::SendWait('"
  ++ safeEscaped ++ lit "')" ++ dquote.

Lemma batchSize_pos (delay : Z) : (0 < Z.to_nat (batchSize delay))%nat.
Proof. unfold batchSize. destruct (delay =? 0)%Z; lia. Qed.

Section SimulateKeystrokesWindows.

(** [outcome index] is what [exec] hands to its callback for the batch
    that starts at [index]: [None] for [error === null], otherwise
    [error.message]. *)
Variables (text : jsString) (delay : Z) (requestId : jsString)
          (outcome : nat -> option jsString).

Definition finish (errors : list jsString) : KeystrokeResult :=
  let success := bool_decide (length errors = 0%nat) in
  mkKeystrokeResult success
    (if success then lit "Keystrokes completed"
     else lit "Completed with " ++ showNat (length errors) ++ lit " errors")
    (if Nat.ltb 0 (length errors) then Some errors else None).

Equations? processNextBatch (index : nat) (errors : list jsString)
    (trace : list Action) (w : World) : KeystrokeResult * list Action * World
    by wf (length text - index)%nat lt :=
  processNextBatch index errors trace w with decide (length text <= index)%nat => {
    | left _ => (finish errors, trace, w)
    | right _ =>
        let size := Z.to_nat (batchSize delay) in
        let batch := take size (drop index text) in
        let cmd := sendWaitCommand (safeEscapedBatch batch) in
        let trace := trace ++ [Exec cmd 5000] in
        let '(errors, w) :=
          match outcome index with
          | Some message =>
              (errors ++ [lit "Position " ++ showNat index ++ lit ": " ++ message],
               logger.log (lit "warn") (lit "paste")
                 (lit "[" ++ requestId ++ lit "] Batch error at position " ++ showNat index)
                 (ErrorData message) w)
          | None => (errors, w)
          end in
        processNextBatch (index + size)%nat errors
          (trace ++ [SetTimeout (delay * Z.min (batchSize delay) 5)]) w }.
Proof. pose proof (batchSize_pos delay). lia. Qed.

Definition simulateKeystrokesWindows (w : World) : KeystrokeResult * list Action * World :=
  let w := logger.log (lit "info") (lit "paste")
             (lit "[" ++ requestId ++ lit "] Using Windows SendKeys simulation") NoData w in
  processNextBatch 0 [] [SetTimeout 200] w.

End SimulateKeystrokesWindows.

(** *** Windows shell paste *)

Record Dispatch := mkDispatch {
  actions : list Action;
  dispatch_method : jsString
}.

Definition pasteViaShellWindows (text requestId : jsString) : Dispatch :=
  let command :=
    lit "Add-Type -AssemblyName System.Windows.Forms; [System.Windows.Forms.SendKeys]::SendWait('"
    ++ shellEscapedText text ++ lit "')" in
  mkDispatch [ExecuteCommand (lit "powershell") [lit "-Command"; command] 10000 requestId]
             (lit "powershell").

(** *** macOS *)

(** [text.replace(/\\/g, '\\\\').replace(/"/g, '\\"')] *)
Definition appleScriptEscape (text : jsString) : jsString :=
  replaceAll 34 (backslash ++ dquote) (replaceAll 92 (backslash ++ backslash) text).

Definition pasteViaClipboardMac (text requestId : jsString) : Dispatch :=
  let script := lit "tell application " ++ dquote ++ lit "System Events" ++ dquote
                ++ lit " to keystroke " ++ dquote ++ lit "v" ++ dquote
                ++ lit " using command down" in
  mkDispatch [WriteClipboard text; SetTimeout 100;
              ExecuteCommand (lit "osascript") [lit "-e"; script] 3000 requestId]
             (lit "clipboard").

Definition simulateKeystrokesMac (text : jsString) (delay : Z) (requestId : jsString)
    (w : World) : Dispatch * World :=
  let w := logger.log (lit "info") (lit "paste")
             (lit "[" ++ requestId ++ lit "] Using macOS osascript simulation") NoData w in
  if Nat.ltb 200 (length text) then
    let w := logger.log (lit "info") (lit "paste")
               (lit "[" ++ requestId ++ lit "] Text too long for keystroke, using clipboard paste")
               NoData w in
    (pasteViaClipboardMac text requestId, w)
  else
    let escaped := appleScriptEscape text in
    let script := lit "tell application " ++ dquote ++ lit "System Events" ++ dquote
                  ++ lit " to keystroke " ++ dquote ++ escaped ++ dquote in
    (mkDispatch [ExecuteCommand (lit "osascript") [lit "-e"; script] 10000 requestId]
                (lit "osascript-keystroke"), w).

(** ** The earlier Windows-only main process *)

Module Legacy.

(** The escaping chain of its [paste-powershell] handler, which embeds
    the text in a double-quoted PowerShell string. *)
Definition powershellEscape (text : jsString) : jsString :=
  replaceNewlines (lit "{ENTER}")
    (replaceAll (ch "]") (lit "`]")
      (replaceAll (ch "[") (lit "`[")
        (replaceAll (ch "$") (lit "`$")
          (replaceAll (ch "`") (lit "``")
            (replaceAll 34 (dquote ++ dquote)
              (replaceAll 92 (backslash ++ backslash) text)))))).

Definition pastePowershellCommand (text : jsString) : jsString :=
  lit "Add-Type -AssemblyName System.Windows.Forms; [System.Windows.Forms.SendKeys]::SendWait("
  ++ dquote ++ powershellEscape text ++ dquote ++ lit ")".

(** The switch written inline in its [simulateKeystrokesWindows]; the
    batch goes into the command without any further replacement. *)
Definition escapedChar (char : jsString) : jsString :=
  if decide (char = lit "{") then lit "{{"
  else if decide (char = lit "}") then lit "}}"
  else if decide (char = lit "+") then lit "{+}"
  else if decide (char = lit "^") then lit "{^}"
  else if decide (char = lit "%") then lit "{%}"
  else if decide (char = lit "~") then lit "{~}"
  else if decide (char = lit "(") then lit "{(}"
  else if decide (char = lit ")") then lit "{)}"
  else if decide (char = lit "[") then lit "{[}"
  else if decide (char = lit "]") then lit "{]}"
  else char.

Definition escapedBatch (batch : jsString) : jsString :=
  fold_left (fun escapedBatch char => escapedBatch ++ escapedChar char)
            (codePoints batch) [].

End Legacy.


(** ** Linux: display server and tools *)

(** What the process finds around it: two environment variables
    ([None] when unset) and, for [hasCommand], whether [which cmd] exits
    with status 0. *)
Record Env := mkEnv {
  XDG_SESSION_TYPE : option jsString;
  WAYLAND_DISPLAY : option jsString;
  which : jsString -> bool
}.

Inductive DisplayServer := x11 | wayland.

#[global] Instance DisplayServer_eq_dec : EqDecision DisplayServer.
Proof. solve_decision. Defined.

Definition displayServerName (d : DisplayServer) : jsString :=
  match d with
  | x11 => lit "x11"
  | wayland => lit "wayland"
  end.

(** [let linuxDisplayServer = 'x11'; if (IS_LINUX) { ... }]; an unset or
    empty variable counts as [''], and a non-empty string is truthy. *)
Definition linuxDisplayServer (platform : Platform) (env : Env) : DisplayServer :=
  match platform with
  | linux =>
      let sessionType := default [] (XDG_SESSION_TYPE env) in
      let waylandDisplay := default [] (WAYLAND_DISPLAY env) in
      if bool_decide (sessionType = lit "wayland") || Nat.ltb 0 (length waylandDisplay)
      then wayland else x11
  | _ => x11
  end.

Definition hasCommand (env : Env) (cmd : jsString) : bool := which env cmd.

Definition showBool (b : bool) : jsString := if b then lit "true" else lit "false".

Definition checkPlatformTools (env : Env) (w : World) : World :=
  match PLATFORM w with
  | linux =>
      match linuxDisplayServer (PLATFORM w) env with
      | wayland =>
          let hasWtype := hasCommand env (lit "wtype") in
          let hasWlCopy := hasCommand env (lit "wl-copy") in
          let hasXdotool := hasCommand env (lit "xdotool") in
          let w := logger.log (lit "info") (lit "platform")
                     (lit "Wayland detected. wtype: " ++ showBool hasWtype
                      ++ lit ", wl-copy: " ++ showBool hasWlCopy
                      ++ lit ", xdotool (XWayland): " ++ showBool hasXdotool) NoData w in
          if negb hasWtype && negb hasXdotool then
            logger.log (lit "warn") (lit "platform")
              (lit "No typing tool found. Install wtype (Wayland) or xdotool (XWayland): sudo apt install wtype xdotool")
              NoData w
          else w
      | x11 =>
          let hasXdotool := hasCommand env (lit "xdotool") in
          let hasXclip := hasCommand env (lit "xclip") in
          let hasXsel := hasCommand env (lit "xsel") in
          let w := logger.log (lit "info") (lit "platform")
                     (lit "X11 detected. xdotool: " ++ showBool hasXdotool
                      ++ lit ", xclip: " ++ showBool hasXclip
                      ++ lit ", xsel: " ++ showBool hasXsel) NoData w in
          if negb hasXdotool then
            logger.log (lit "warn") (lit "platform")
              (lit "xdotool not found. Install it: sudo apt install xdotool") NoData w
          else w
      end
  | darwin =>
      logger.log (lit "info") (lit "platform")
        (lit "macOS detected. Using osascript for keystroke simulation.") NoData w
  | win32 =>
      logger.log (lit "info") (lit "platform")
        (lit "Windows detected. Using PowerShell + SendKeys.") NoData w
  end.

(** What a dispatch function comes back with: the actions it asked for,
    and either the result of its command with [method] added, or an object
    [{ success: false, error }] made without running anything. *)
Inductive Verdict :=
| CommandResult (method : jsString)
| Failure (error : jsString).

Record Attempt := mkAttempt {
  attempt_actions : list Action;
  verdict : Verdict
}.

Definition ofDispatch (d : Dispatch) : Attempt :=
  mkAttempt (actions d) (CommandResult (dispatch_method d)).

Definition simulateKeystrokesLinux (env : Env) (text : jsString) (delay : Z)
    (requestId : jsString) (w : World) : Attempt * World :=
  let server := linuxDisplayServer (PLATFORM w) env in
  let w := logger.log (lit "info") (lit "paste")
             (lit "[" ++ requestId ++ lit "] Using Linux keystroke simulation ("
              ++ displayServerName server ++ lit ")") NoData w in
  if bool_decide (server = wayland) && hasCommand env (lit "wtype") then
    (mkAttempt [ExecuteCommand (lit "wtype") [lit "-d"; showZ delay; lit "--"; text]
                               30000 requestId]
               (CommandResult (lit "wtype")), w)
  else if hasCommand env (lit "xdotool") then
    (mkAttempt [ExecuteCommand (lit "xdotool")
                  [lit "type"; lit "--delay"; showZ delay; lit "--clearmodifiers"; lit "--"; text]
                  30000 requestId]
               (CommandResult (lit "xdotool")), w)
  else if hasCommand env (lit "ydotool") then
    (mkAttempt [ExecuteCommand (lit "ydotool")
                  [lit "type"; lit "--key-delay"; showZ delay; lit "--"; text]
                  30000 requestId]
               (CommandResult (lit "ydotool")), w)
  else
    (mkAttempt []
       (Failure (lit "No typing tool found. Install xdotool (X11) or wtype (Wayland): sudo apt install xdotool wtype")),
     w).

Definition pasteViaClipboardLinux (env : Env) (text requestId : jsString) (w : World)
    : Attempt :=
  let server := linuxDisplayServer (PLATFORM w) env in
  let written := [WriteClipboard text; SetTimeout 100] in
  if bool_decide (server = wayland) && hasCommand env (lit "wtype") then
    mkAttempt (written ++ [ExecuteCommand (lit "wtype")
                             [lit "-M"; lit "ctrl"; lit "-k"; lit "v"; lit "-m"; lit "ctrl"]
                             3000 requestId])
              (CommandResult (lit "clipboard"))
  else if hasCommand env (lit "xdotool") then
    mkAttempt (written ++ [ExecuteCommand (lit "xdotool")
                             [lit "key"; lit "--clearmodifiers"; lit "ctrl+v"] 3000 requestId])
              (CommandResult (lit "clipboard"))
  else
    mkAttempt written
              (Failure (lit "No key simulation tool found. Install xdotool or wtype.")).

Definition pasteViaShellLinux (env : Env) (text requestId : jsString) (w : World)
    : Attempt * World :=
  simulateKeystrokesLinux env text 12 requestId w.

(** *** The remaining Windows and macOS functions *)

Definition pasteViaClipboardWindows (text requestId : jsString) : Dispatch :=
  mkDispatch
    [WriteClipboard text; SetTimeout 100;
     ExecuteCommand (lit "powershell")
       [lit "-Command";
        lit "Add-Type -AssemblyName System.Windows.Forms; [System.Windows.Forms.SendKeys]::SendWait("
        ++ dquote ++ lit "^v" ++ dquote ++ lit ")"]
       3000 requestId]
    (lit "clipboard").

Definition pasteViaShellMac (text requestId : jsString) : Dispatch :=
  pasteViaClipboardMac text requestId.

(** *** Platform dispatchers *)

Definition pasteViaClipboard (env : Env) (text requestId : jsString) (w : World) : Attempt :=
  match PLATFORM w with
  | win32 => ofDispatch (pasteViaClipboardWindows text requestId)
  | darwin => ofDispatch (pasteViaClipboardMac text requestId)
  | linux => pasteViaClipboardLinux env text requestId w
  end.

Definition pasteViaShell (env : Env) (text requestId : jsString) (w : World)
    : Attempt * World :=
  match PLATFORM w with
  | win32 => (ofDispatch (pasteViaShellWindows text requestId), w)
  | darwin => (ofDispatch (pasteViaShellMac text requestId), w)
  | linux => pasteViaShellLinux env text requestId w
  end.


(** ** Global hotkeys *)

(** What [globalShortcut.register] does for one accelerator. *)
Inductive RegisterOutcome :=
| Registered
| Refused
| RegisterThrows (message : jsString).

(** The object [test-hotkeys] answers with. *)
Record HotkeyTest := mkHotkeyTest {
  test_success : bool;
  test_registered : nat;
  test_total : nat;
  registeredKeys : list jsString;
  failedKeys : list jsString;
  test_platform : jsString
}.

(** The calls of [logger.log] the hotkey functions make, kept as values
    with the data objects they pass. *)
Inductive HotkeyData :=
| NoHotkeyData
| HotkeyError (message : jsString)
| FailedList (failed : list jsString)
| TestData (result : HotkeyTest).

Record HotkeyLog := mkHotkeyLog {
  hl_level : jsString;
  hl_category : jsString;
  hl_message : jsString;
  hl_data : HotkeyData
}.

(** [registeredCount], [failedHotkeys], the accelerators the application
    holds, and the log calls so far. *)
Record HotkeySetup := mkHotkeySetup {
  registeredCount : nat;
  failedHotkeys : list jsString;
  shortcuts : gset jsString;
  hotkeyLogs : list HotkeyLog
}.

(** The payload of [hotkey-registration-complete]. *)
Record HotkeyReport := mkHotkeyReport {
  report_success : bool;
  report_registered : nat;
  report_total : nat;
  report_failed : list jsString
}.

Definition regularKey (i : nat) : jsString := lit "CommandOrControl+Alt+" ++ showNat i.
Definition numpadKey (i : nat) : jsString := lit "CommandOrControl+Alt+num" ++ showNat i.

(** The [key] and [name] of the four entries of [additionalHotkeys]. *)
Definition additionalHotkeys : list (jsString * jsString) :=
  [(lit "CommandOrControl+Alt+O", lit "Toggle Window");
   (lit "CommandOrControl+Alt+C", lit "Copy to Notepad");
   (lit "CommandOrControl+Alt+V", lit "Paste On-Deck");
   (lit "CommandOrControl+Alt+R", lit "Reverse Copy")].

Section SetupHotkeys.

Variable register : jsString -> RegisterOutcome.

(** One [try { ... } catch] block of the loop over the cells. *)
Definition registerPasteKey (s : HotkeySetup) (key : jsString) : HotkeySetup :=
  match register key with
  | Registered =>
      mkHotkeySetup (S (registeredCount s)) (failedHotkeys s) ({[key]} ∪ shortcuts s)
                    (hotkeyLogs s)
  | Refused =>
      mkHotkeySetup (registeredCount s) (failedHotkeys s ++ [key]) (shortcuts s) (hotkeyLogs s)
  | RegisterThrows message =>
      mkHotkeySetup (registeredCount s) (failedHotkeys s ++ [key]) (shortcuts s)
        (hotkeyLogs s ++
         [mkHotkeyLog (lit "error") (lit "hotkeys") (lit "Failed to register " ++ key)
                      (HotkeyError message)])
  end.

(** The callback of [additionalHotkeys.forEach]. *)
Definition registerAdditional (s : HotkeySetup) (entry : jsString * jsString) : HotkeySetup :=
  let (key, name) := entry in
  match register key with
  | Registered =>
      mkHotkeySetup (S (registeredCount s)) (failedHotkeys s) ({[key]} ∪ shortcuts s)
        (hotkeyLogs s ++
         [mkHotkeyLog (lit "info") (lit "hotkeys")
                      (lit "Registered " ++ name ++ lit " (" ++ key ++ lit ")") NoHotkeyData])
  | Refused =>
      mkHotkeySetup (registeredCount s) (failedHotkeys s ++ [key]) (shortcuts s)
        (hotkeyLogs s ++
         [mkHotkeyLog (lit "warn") (lit "hotkeys")
                      (lit "Failed to register " ++ name ++ lit " (" ++ key ++ lit ")")
                      NoHotkeyData])
  | RegisterThrows message =>
      mkHotkeySetup (registeredCount s) (failedHotkeys s ++ [key]) (shortcuts s)
        (hotkeyLogs s ++
         [mkHotkeyLog (lit "error") (lit "hotkeys")
                      (lit "Error registering " ++ name ++ lit " (" ++ key ++ lit ")")
                      (HotkeyError message)])
  end.

(** [setupHotkeys], up to the delayed callback: the state it leaves. *)
Definition setupHotkeys (platform : Platform) : HotkeySetup :=
  let s := mkHotkeySetup 0 [] ∅
             [mkHotkeyLog (lit "info") (lit "hotkeys")
                (lit "Setting up global hotkeys on " ++ PLATFORM_NAME platform) NoHotkeyData] in
  let s := fold_left (fun s i => registerPasteKey (registerPasteKey s (regularKey i))
                                                  (numpadKey i))
                     (seq 1 9) s in
  let s := fold_left registerAdditional additionalHotkeys s in
  let s := mkHotkeySetup (registeredCount s) (failedHotkeys s) (shortcuts s)
             (hotkeyLogs s ++
              [mkHotkeyLog (lit "info") (lit "hotkeys")
                 (lit "Registered " ++ showNat (registeredCount s)
                  ++ lit " hotkeys successfully on " ++ PLATFORM_NAME platform) NoHotkeyData]) in
  if Nat.ltb 0 (length (failedHotkeys s)) then
    mkHotkeySetup (registeredCount s) (failedHotkeys s) (shortcuts s)
      (hotkeyLogs s ++
       [mkHotkeyLog (lit "warn") (lit "hotkeys")
          (lit "Failed to register " ++ showNat (length (failedHotkeys s)) ++ lit " hotkeys")
          (FailedList (failedHotkeys s))])
  else s.

(** What the callback delayed by 500 ms sends, when there is a window. *)
Definition registrationReport (s : HotkeySetup) : HotkeyReport :=
  mkHotkeyReport (Nat.ltb 0 (registeredCount s)) (registeredCount s) 22 (failedHotkeys s).

End SetupHotkeys.

(** One half of the loop body of the [test-hotkeys] handler. *)
Definition testKey (held : gset jsString) (acc : nat * list jsString * list jsString)
    (key : jsString) : nat * list jsString * list jsString :=
  let '(count, registered, failed) := acc in
  if decide (key ∈ held) then (S count, registered ++ [key], failed)
  else (count, registered, failed ++ [key]).

(** The [test-hotkeys] handler, given the accelerators the application
    holds: its answer, which it also logs. *)
Definition testHotkeys (platform : Platform) (held : gset jsString) : HotkeyTest :=
  let '(count, registered, failed) :=
    fold_left (fun acc i => testKey held (testKey held acc (regularKey i)) (numpadKey i))
              (seq 1 9) (0%nat, [], []) in
  mkHotkeyTest (Nat.ltb 0 count) count 22 registered failed (PLATFORM_NAME platform).


(** ** The preload bridge ([src/preload.js]) *)

Definition INVOKE_CHANNELS : list jsString :=
  [lit "simulate-keystrokes"; lit "paste-via-clipboard"; lit "paste-powershell";
   lit "test-hotkeys"; lit "get-clipboard-content"; lit "get-main-process-logs"].

Definition SEND_CHANNELS : list jsString :=
  [lit "minimize-window"; lit "close-app"; lit "set-local-clipboard"; lit "renderer-log"].

Definition RECEIVE_CHANNELS : list jsString :=
  [lit "paste-cell"; lit "copy-to-notepad"; lit "clipboard-changed"; lit "paste-on-deck";
   lit "reverse-copy"; lit "hotkey-registration-complete"; lit "main-process-log";
   lit "show-debug-logs"].

(** What a call through the bridge does: it is passed on to [ipcRenderer],
    or it throws. *)
Inductive BridgeResult :=
| Forwarded
| BridgeThrows (message : jsString).

Definition bridgeInvoke (channel : jsString) : BridgeResult :=
  if decide (channel ∈ INVOKE_CHANNELS) then Forwarded
  else BridgeThrows (lit "IPC invoke not allowed for channel: " ++ channel).

Definition bridgeSend (channel : jsString) : BridgeResult :=
  if decide (channel ∈ SEND_CHANNELS) then Forwarded
  else BridgeThrows (lit "IPC send not allowed for channel: " ++ channel).

Definition bridgeOn (channel : jsString) : BridgeResult :=
  if decide (channel ∈ RECEIVE_CHANNELS) then Forwarded
  else BridgeThrows (lit "IPC on not allowed for channel: " ++ channel).

(** The channels of the [ipcMain.handle] calls of [src/main.js], of its
    [ipcMain.on] calls, and of its [webContents.send] calls, in the order
    they first appear in the file. *)
Definition handledChannels : list jsString :=
  [lit "test-hotkeys"; lit "simulate-keystrokes"; lit "paste-via-clipboard";
   lit "paste-powershell"; lit "get-clipboard-content"; lit "get-main-process-logs"].

Definition listenedChannels : list jsString :=
  [lit "set-local-clipboard"; lit "minimize-window"; lit "close-app"; lit "renderer-log"].

Definition sentChannels : list jsString :=
  [lit "main-process-log"; lit "copy-to-notepad"; lit "paste-cell"; lit "paste-on-deck";
   lit "show-debug-logs"; lit "reverse-copy"; lit "hotkey-registration-complete";
   lit "clipboard-changed"].


(** ** The keystroke loop of the earlier main process *)

Definition legacySendWaitCommand (escapedBatch : jsString) : jsString :=
  lit "powershell -Command " ++ dquote
  ++ lit "Add-Type -AssemblyName System.Windows.Forms; [System.Windows.Forms.SendKeys]::SendWait('"
  ++ escapedBatch ++ lit "')" ++ dquote.

Section LegacySimulateKeystrokesWindows.

Variables (text : jsString) (delay : Z) (requestId : jsString)
          (outcome : nat -> option jsString).

(** The branch taken when the text is used up: one more log entry, then
    the same result object as the later version. *)
Definition legacyFinish (errors : list jsString) (w : World) : KeystrokeResult * World :=
  let success := bool_decide (length errors = 0%nat) in
  let w := logger.log (if success then lit "success" else lit "warn") (lit "paste")
             (lit "[" ++ requestId ++ lit "] Windows simulation complete with "
              ++ showNat (length errors) ++ lit " errors") NoData w in
  (mkKeystrokeResult success
     (if success then lit "Keystrokes completed"
      else lit "Completed with " ++ showNat (length errors) ++ lit " errors")
     (if Nat.ltb 0 (length errors) then Some errors else None), w).

Equations? legacyProcessNextBatch (index : nat) (errors : list jsString)
    (trace : list Action) (w : World) : KeystrokeResult * list Action * World
    by wf (length text - index)%nat lt :=
  legacyProcessNextBatch index errors trace w with decide (length text <= index)%nat => {
    | left _ => let (result, w) := legacyFinish errors w in (result, trace, w)
    | right _ =>
        let size := Z.to_nat (batchSize delay) in
        let batch := take size (drop index text) in
        let cmd := legacySendWaitCommand (Legacy.escapedBatch batch) in
        let trace := trace ++ [Exec cmd 5000] in
        let '(errors, w) :=
          match outcome index with
          | Some message =>
              (errors ++ [lit "Position " ++ showNat index ++ lit ": " ++ message],
               logger.log (lit "warn") (lit "paste")
                 (lit "[" ++ requestId ++ lit "] Windows batch error at position "
                  ++ showNat index)
                 (ErrorData message) w)
          | None => (errors, w)
          end in
        legacyProcessNextBatch (index + size)%nat errors
          (trace ++ [SetTimeout (delay * Z.min (batchSize delay) 5)]) w }.
Proof. pose proof (batchSize_pos delay). lia. Qed.

Definition legacySimulateKeystrokesWindows (w : World)
    : KeystrokeResult * list Action * World :=
  let w := logger.log (lit "info") (lit "paste")
             (lit "[" ++ requestId ++ lit "] Using optimized Windows keystroke simulation")
             NoData w in
  legacyProcessNextBatch 0 [] [SetTimeout 200] w.

End LegacySimulateKeystrokesWindows.


(** ** The [paste-via-clipboard] handler *)

(** What the handler answers: a result object with [requestId] and
    [platform] added. *)
Record IpcAnswer := mkIpcAnswer {
  answer_result : ExecutionResult;
  answer_requestId : jsString;
  answer_platform : jsString
}.

(** The command an attempt ends with, when it ends with one. *)
Definition commandOf (a : Attempt) : option (jsString * list jsString * Z * jsString) :=
  match List.last (attempt_actions a) (SetTimeout 0) with
  | ExecuteCommand command args timeoutMs requestId =>
      Some (command, args, timeoutMs, requestId)
  | _ => None
  end.

Section PasteViaClipboardHandler.

(** [writeThrows n] is the message of the error the [n]-th call of
    [clipboard.writeText] throws, if it throws; [spawn] is what the runtime
    does with the command and [events] what it delivers to it, if one is
    started. The state returned holds the answer ([None] while the command
    is pending), the clipboard writes, pauses and commands that took place,
    and the process state. *)
Variables (env : Env) (text requestId : jsString)
          (writeThrows : nat -> option jsString)
          (spawn : SpawnCall -> SpawnOutcome) (events : list ProcessEvent).

Definition pasteFailed (message : jsString) (trace : list Action) (w : World)
    : option IpcAnswer * list Action * World :=
  let w := logger.log (lit "error") (lit "paste")
             (lit "[" ++ requestId ++ lit "] Clipboard paste failed") (ErrorData message) w in
  (Some (mkIpcAnswer (mkResult false None (Some message) None None None (Some (lit "clipboard")))
                     requestId (PLATFORM_NAME (PLATFORM w))),
   trace, w).

Definition pasteCompleted (result : ExecutionResult) (trace : list Action) (w : World)
    : option IpcAnswer * list Action * World :=
  let w := logger.log (lit "success") (lit "paste")
             (lit "[" ++ requestId ++ lit "] Clipboard paste completed") NoData w in
  (Some (mkIpcAnswer result requestId (PLATFORM_NAME (PLATFORM w))), trace, w).

Definition pasteViaClipboardHandler (w : World) : option IpcAnswer * list Action * World :=
  let w := logger.log (lit "info") (lit "paste")
             (lit "[" ++ requestId ++ lit "] Clipboard paste: " ++ showNat (length text)
              ++ lit " chars") NoData w in
  match writeThrows 0 with
  | Some message => pasteFailed message [] w
  | None =>
      let w := logger.log (lit "info") (lit "paste")
                 (lit "[" ++ requestId ++ lit "] Clipboard content set") NoData w in
      match writeThrows 1 with
      | Some message => pasteFailed message [WriteClipboard text] w
      | None =>
          let attempt := pasteViaClipboard env text requestId w in
          let trace := WriteClipboard text :: attempt_actions attempt in
          match verdict attempt with
          | Failure error =>
              pasteCompleted (mkResult false None (Some error) None None None None) trace w
          | CommandResult method =>
              match commandOf attempt with
              | Some (command, args, timeoutMs, rid) =>
                  let (c, w) := executeCommand command args timeoutMs rid spawn events w in
                  match promise c with
                  | Fulfilled result => pasteCompleted (with_method method result) trace w
                  | Rejected reason => pasteFailed reason trace w
                  | Pending => (None, trace, w)
                  end
              | None => (None, trace, w)
              end
          end
      end
  end.

End PasteViaClipboardHandler.

(** ** The other side of each boundary

    The tools the escaped text is handed to are not part of the
    repository; the specification describes how they read it. *)

(** Modelled from the spec: SendKeys, which is not in the repository,
    reading a literal written with the escaping table: [{{] is an opening
    brace, [}}] a closing brace, [{c}] the character [c] for the other
    eight special characters, any other character itself. A special
    character outside these forms is not a literal, and the reading fails. *)
Definition wrappedSpecial (u : codeUnit) : bool :=
  existsb (N.eqb u) [ch "+"; ch "^"; ch "%"; ch "~"; ch "("; ch ")"; ch "["; ch "]"].

Fixpoint sendKeysLiteral (s : jsString) : option jsString :=
  match s with
  | [] => Some []
  | u :: rest =>
      if u =? ch "{" then
        match rest with
        | v :: rest' =>
            if v =? ch "{" then cons u <$> sendKeysLiteral rest'
            else if wrappedSpecial v then
              match rest' with
              | x :: rest'' => if x =? ch "}" then cons v <$> sendKeysLiteral rest'' else None
              | [] => None
              end
            else None
        | [] => None
        end
      else if u =? ch "}" then
        match rest with
        | v :: rest' => if v =? ch "}" then cons u <$> sendKeysLiteral rest' else None
        | [] => None
        end
      else if wrappedSpecial u then None
      else cons u <$> sendKeysLiteral rest
  end.

(** Modelled from the spec: PowerShell, which is not in the repository,
    reading the body of a single-quoted string: a doubled quote is one
    quote, a single one would end the string. *)
Fixpoint singleQuotedBody (s : jsString) : option jsString :=
  match s with
  | [] => Some []
  | u :: rest =>
      if u =? ch "'" then
        match rest with
        | v :: rest' => if v =? ch "'" then cons u <$> singleQuotedBody rest' else None
        | [] => None
        end
      else cons u <$> singleQuotedBody rest
  end.


(** Modelled from the spec: AppleScript, which is not in the repository,
    reading the body of a string literal with the two escapes the
    specification names: backslash-backslash is a backslash,
    backslash-quote a double quote; a double quote on its own would end the
    literal, and a backslash before anything else is not read here. *)
Fixpoint appleScriptStringBody (s : jsString) : option jsString :=
  match s with
  | [] => Some []
  | u :: rest =>
      if u =? 92 then
        match rest with
        | v :: rest' =>
            if (v =? 92) || (v =? 34) then cons v <$> appleScriptStringBody rest' else None
        | [] => None
        end
      else if u =? 34 then None
      else cons u <$> appleScriptStringBody rest
  end.

(** [clamp(x, lo, hi)] as the specification uses it. *)
Definition clamp (x lo hi : Z) : Z :=
  if (x <? lo)%Z then lo else if (hi <? x)%Z then hi else x.

(** The escaping of a PowerShell double-quoted string in the
    specification's words: a backtick before each backslash, double quote,
    backtick, dollar sign and square bracket, and [{ENTER}] for a newline
    sequence. *)
Definition backtickPrefixed (u : codeUnit) : bool :=
  existsb (N.eqb u) [92; 34; ch "`"; ch "$"; ch "["; ch "]"].

Fixpoint spec_powershellEscape (s : jsString) : jsString :=
  match s with
  | [] => []
  | u :: rest =>
      if u =? 13 then
        match rest with
        | v :: rest' =>
            if v =? 10 then lit "{ENTER}" ++ spec_powershellEscape rest'
            else u :: spec_powershellEscape rest
        | [] => [u]
        end
      else if u =? 10 then lit "{ENTER}" ++ spec_powershellEscape rest
      else if backtickPrefixed u then ch "`" :: u :: spec_powershellEscape rest
      else u :: spec_powershellEscape rest
  end.

(** The same pass with the table the handler applies: backslash and double
    quote doubled, a backtick before backtick, dollar sign and brackets. *)
Definition powershellEscapeChar (u : codeUnit) : jsString :=
  if u =? 92 then [92; 92]
  else if u =? 34 then [34; 34]
  else if u =? ch "`" then lit "``"
  else if u =? ch "$" then lit "`$"
  else if u =? ch "[" then lit "`["
  else if u =? ch "]" then lit "`]"
  else [u].

Fixpoint powershellEscapePass (s : jsString) : jsString :=
  match s with
  | [] => []
  | u :: rest =>
      if u =? 13 then
        match rest with
        | v :: rest' =>
            if v =? 10 then lit "{ENTER}" ++ powershellEscapePass rest'
            else u :: powershellEscapePass rest
        | [] => [u]
        end
      else if u =? 10 then lit "{ENTER}" ++ powershellEscapePass rest
      else powershellEscapeChar u ++ powershellEscapePass rest
  end.

(** The macOS keystroke path as the specification words it, with the
    threshold included in the long case. *)
Definition spec_longTextMac (text : jsString) : bool := Nat.leb 200 (length text).

(** The per-character tables the escaping loops amount to. *)
Definition sendKeysChar (u : codeUnit) : jsString := escapeSendKeys [u].

Definition batchChar (u : codeUnit) : jsString :=
  if u =? ch "'" then lit "''" else sendKeysChar u.

Definition shellChar (u : codeUnit) : jsString :=
  if u =? 10 then lit "{ENTER}"
  else if u =? 13 then []
  else batchChar u.

Definition appleScriptChar (u : codeUnit) : jsString :=
  if (u =? 92) || (u =? 34) then [92; u] else [u].

(** The offsets of the batches of a text of [len] code units cut [size] at
    a time, starting at [index]. *)
Definition batchCount (len size index : nat) : nat :=
  Nat.div (len - index + (size - 1)) size.

Definition batchOffsets (size index count : nat) : list nat :=
  map (fun k => (index + k * size)%nat) (seq 0 count).

(** The batch length as a number of code units. *)
Definition batchLength (delay : Z) : nat := Z.to_nat (batchSize delay).

(** The entry [errors.push] adds for the batch at [index], if its process
    failed. *)
Definition batchFailure (outcome : nat -> option jsString) (index : nat) : option jsString :=
  (fun message => lit "Position " ++ showNat index ++ lit ": " ++ message) <$> outcome index.

(** What one round of [processNextBatch] asks for: the process for the
    batch at [index], then the pause before the next round. *)
Definition batchActionsAt (text : jsString) (delay : Z) (index : nat) : list Action :=
  [Exec (sendWaitCommand (safeEscapedBatch (take (batchLength delay) (drop index text)))) 5000;
   SetTimeout (delay * Z.min (batchSize delay) 5)].

(** ** Predicates of the statements *)

(** The ten characters of the escaping table, as one-character strings. *)
Definition sendKeysSpecials : list jsString :=
  [lit "{"; lit "}"; lit "+"; lit "^"; lit "%"; lit "~"; lit "("; lit ")"; lit "["; lit "]"].

(** The state of the monitor is one of two: no timer at all, or exactly
    the timer the module variable names, created while a window existed. *)
Definition monitor_inv (w : World) : Prop :=
  match clipboardMonitorInterval w with
  | Some t => intervals w = {[t]} /\ (t < nextTimer w)%nat /\ mainWindow w = true
  | None => intervals w = ∅
  end.

(** The condition under which a tick announces [text]. *)
Definition changed (text : jsString) (w : World) : Prop :=
  text <> lastClipboardText w /\ text <> [].

(** No event of the list can settle the command. *)
Definition quiet (events : list ProcessEvent) : bool :=
  forallb (fun e => negb (terminal e)) events.

(** [resolve] was called once, with [r], and the promise holds [r]. *)
Definition settlesWith (c : Command) (r : ExecutionResult) : Prop :=
  resolveCalls c = [r] /\ promise c = Fulfilled r.

(** How many code units of [s] are [u]. *)
Definition occurrences (u : codeUnit) (s : jsString) : nat :=
  length (List.filter (fun v => v =? u) s).

(** What a log entry says: everything but its time stamp and process id. *)
Definition logText (e : LogEntry) : jsString * jsString * jsString * LogData :=
  (level e, category e, message e, data e).

(** What one round of the loop of [pasteViaShellWindows] appends. *)
Definition shellPiece (char : jsString) : jsString :=
  if decide (char = [10]) then lit "{ENTER}"
  else if decide (char = [13]) then []
  else escapeSendKeys char.


(** The command lines handed to [exec] during a run, in order. *)
Definition execCommands (trace : list Action) : list jsString :=
  omap (fun a => match a with Exec cmd _ => Some cmd | _ => None end) trace.

(** The pauses asked of [setTimeout] during a run, in order. *)
Definition pauses (trace : list Action) : list Z :=
  omap (fun a => match a with SetTimeout ms => Some ms | _ => None end) trace.


(** [delay * Math.min(batchSize, 5)], the pause after each batch. *)
Definition batchPause (delay : Z) : Z := (delay * Z.min (batchSize delay) 5)%Z.


(** No two neighbours of the list are equal. *)
Fixpoint distinctNeighbours (l : list jsString) : Prop :=
  match l with
  | x :: rest =>
      match rest with
      | y :: _ => x <> y /\ distinctNeighbours rest
      | [] => True
      end
  | [] => True
  end.

(** The timer [t] firing once for each read of the list, in order. *)
Definition fires (t : nat) (reads : list ReadResult) : list MonitorEvent :=
  map (IntervalFires t) reads.


(** The log entry [executeCommand] writes when [e] settles it: level,
    message after the request tag, and data. *)
Definition settlementLog (timeoutMs : Z) (e : ProcessEvent)
    : option (jsString * jsString * LogData) :=
  match e with
  | TimeoutFires =>
      Some (lit "error", lit "Command timed out after " ++ showZ timeoutMs ++ lit "ms", NoData)
  | Close code =>
      Some (if decide (code = Some 0%Z) then lit "success" else lit "error",
            lit "Command finished with code " ++ showCode code, NoData)
  | SpawnError message => Some (lit "error", lit "Command error", ErrorData message)
  | _ => None
  end.


(** The accelerators of the nine cells, in the order the loops visit them,
    and all twenty-two accelerators of [setupHotkeys]. *)
Definition pasteKeys : list jsString :=
  flat_map (fun i => [regularKey i; numpadKey i]) (seq 1 9).

Definition allHotkeys : list jsString := pasteKeys ++ map fst additionalHotkeys.

Definition isRegistered (register : jsString -> RegisterOutcome) (key : jsString) : bool :=
  match register key with
  | Registered => true
  | _ => false
  end.


(** What a registration step does to the counters for one accelerator. *)
Definition countsOne (register : jsString -> RegisterOutcome)
    (s s' : HotkeySetup) (key : jsString) : Prop :=
  registeredCount s' = (registeredCount s + (if isRegistered register key then 1 else 0))%nat /\
  failedHotkeys s' = failedHotkeys s ++ (if isRegistered register key then [] else [key]) /\
  shortcuts s' = (if isRegistered register key then {[key]} ∪ shortcuts s else shortcuts s).


(** What one round of the earlier loop asks for. *)
Definition legacyBatchActionsAt (text : jsString) (delay : Z) (index : nat) : list Action :=
  [Exec (legacySendWaitCommand
           (Legacy.escapedBatch (take (batchLength delay) (drop index text)))) 5000;
   SetTimeout (delay * Z.min (batchSize delay) 5)].

(** The characters the escaping chain of the earlier [paste-powershell]
    handler rewrites. *)
Definition powershellTouched (u : codeUnit) : bool :=
  existsb (N.eqb u) [92; 34; ch "`"; ch "$"; ch "["; ch "]"; 10].


(** The characters the batched Windows path rewrites: the ten of the
    escaping table and the single quote. *)
Definition batchTouched (u : codeUnit) : bool :=
  existsb (N.eqb u)
    [ch "{"; ch "}"; ch "+"; ch "^"; ch "%"; ch "~"; ch "("; ch ")"; ch "["; ch "]"; ch "'"].

(** ** Sample runs *)

Definition sampleWorld : World := initialWorld win32 4242 0.

(** 250 calls, the i-th one at time [i] with the number [i] as message. *)
Definition sampleCalls : list LogCall :=
  map (fun i => mkLogCall (N.of_nat i) (lit "info") (lit "sample") (showNat i) NoData)
      (seq 0 250).

(** The five clipboard reads of the specification's example. *)
Definition sampleReads : list jsString := [[]; lit "a"; lit "a"; lit "b"; []].

Definition ticks (t : nat) (reads : list jsString) : list MonitorEvent :=
  map (fun text => IntervalFires t (ReadText text)) reads.

(** The end-to-end scenario of the specification and two ways it can go:
    every process succeeds, or the one for the second batch fails. *)
Definition sampleText : jsString := lit "a{b}c".

Definition allSucceed : nat -> option jsString := fun _ => None.

Definition secondFails : nat -> option jsString :=
  fun index => if Nat.eqb index 4 then Some (lit "boom") else None.


(** A Linux machine with an X11 session where only [ydotool] is installed. *)
Definition onlyYdotool : Env :=
  mkEnv (Some (lit "x11")) None (fun cmd => bool_decide (cmd = lit "ydotool")).

Definition onlyXdotool : Env :=
  mkEnv (Some (lit "x11")) None (fun cmd => bool_decide (cmd = lit "xdotool")).

Definition sampleLinuxWorld : World := initialWorld linux 4242 0.

(** * Properties *)

(** ** Strings *)

Ltac by_code_unit u :=
  repeat match goal with
         | |- context [N.eqb u ?k] =>
             destruct (N.eqb_spec u k) as [-> | ?]; [try reflexivity | ]
         end.

Lemma fold_left_append {A} (f : A -> jsString) (l : list A) (acc : jsString) :
  fold_left (fun acc x => acc ++ f x) l acc = acc ++ flat_map f l.
Proof.
  revert acc. induction l as [| x l IH]; intros acc; simpl.
  - by rewrite app_nil_r.
  - by rewrite IH, <- app_assoc.
Qed.

(** Induction two code units at a time, the way [codePoints] and the
    newline pattern consume a string. *)
Lemma jsString_pair_ind (P : jsString -> Prop) :
  P [] -> (forall u, P [u]) ->
  (forall u v s, P s -> P (v :: s) -> P (u :: v :: s)) ->
  forall s, P s.
Proof.
  intros Hnil Hone Hstep s.
  cut (P s /\ forall u, P (u :: s)); [tauto |].
  induction s as [| v s [IH1 IH2]]; split; auto.
Qed.

(** A loop over the code points that appends [f char], where [f] leaves
    surrogate pairs alone, is a loop over the code units. *)
Lemma flat_map_step {A B} (f : A -> list B) (x : A) (l : list A) :
  flat_map f (x :: l) = f x ++ flat_map f l.
Proof. reflexivity. Qed.

Lemma codePoints_flat_map (f : jsString -> jsString) :
  (forall u v, isHighSurrogate u = true -> isLowSurrogate v = true ->
               f [u; v] = f [u] ++ f [v]) ->
  forall s, flat_map f (codePoints s) = flat_map (fun u => f [u]) s.
Proof.
  intros Hpair. induction s as [| u | u v s IH1 IH2] using jsString_pair_ind.
  - reflexivity.
  - simpl. by destruct (isHighSurrogate u).
  - change (codePoints (u :: v :: s)) with
      (if isHighSurrogate u then
         if isLowSurrogate v then [u; v] :: codePoints s else [u] :: codePoints (v :: s)
       else [u] :: codePoints (v :: s)).
    destruct (isHighSurrogate u) eqn:Hu; [destruct (isLowSurrogate v) eqn:Hv |];
      rewrite !flat_map_step.
    + rewrite IH1, Hpair by done. by rewrite <- app_assoc.
    + rewrite IH2. reflexivity.
    + rewrite IH2. reflexivity.
Qed.

Lemma escapeSendKeys_one (u : codeUnit) :
  escapeSendKeys [u] =
    if u =? ch "{" then lit "{{" else if u =? ch "}" then lit "}}"
    else if u =? ch "+" then lit "{+}" else if u =? ch "^" then lit "{^}"
    else if u =? ch "%" then lit "{%}" else if u =? ch "~" then lit "{~}"
    else if u =? ch "(" then lit "{(}" else if u =? ch ")" then lit "{)}"
    else if u =? ch "[" then lit "{[}" else if u =? ch "]" then lit "{]}"
    else [u].
Proof.
  by_code_unit u. unfold escapeSendKeys.
  repeat (case_decide as H; [exfalso; cbv in H; injection H as H; contradiction | clear H]).
  reflexivity.
Qed.

Lemma escapeSendKeys_longer (u v : codeUnit) (s : jsString) :
  escapeSendKeys (u :: v :: s) = u :: v :: s.
Proof.
  unfold escapeSendKeys. repeat (case_decide as H; [discriminate H | clear H]). reflexivity.
Qed.

Lemma high_surrogate_plain u :
  isHighSurrogate u = true -> escapeSendKeys [u] = [u].
Proof.
  unfold isHighSurrogate. intros [H1 H2]%andb_prop. apply N.leb_le in H1.
  rewrite escapeSendKeys_one. by_code_unit u; vm_compute in H1; try done.
Qed.

Lemma low_surrogate_plain v :
  isLowSurrogate v = true -> escapeSendKeys [v] = [v].
Proof.
  unfold isLowSurrogate. intros [H1 H2]%andb_prop. apply N.leb_le in H1.
  rewrite escapeSendKeys_one. by_code_unit v; vm_compute in H1; try done.
Qed.

(** ** SendKeys escaping *)

Lemma escapeBatch_units (batch : jsString) :
  escapeBatch batch = flat_map sendKeysChar batch.
Proof.
  unfold escapeBatch. rewrite fold_left_append. simpl.
  apply codePoints_flat_map. intros u v Hu Hv.
  by rewrite escapeSendKeys_longer, high_surrogate_plain, low_surrogate_plain.
Qed.

Lemma replaceAll_app c r s t :
  replaceAll c r (s ++ t) = replaceAll c r s ++ replaceAll c r t.
Proof. apply flat_map_app. Qed.

Lemma replaceAll_flat_map c r (f : codeUnit -> jsString) s :
  replaceAll c r (flat_map f s) = flat_map (fun u => replaceAll c r (f u)) s.
Proof.
  induction s as [| u s IH]; [reflexivity |].
  by rewrite !flat_map_step, replaceAll_app, IH.
Qed.

Lemma flat_map_pointwise {A B} (f g : A -> list B) (l : list A) :
  (forall x, f x = g x) -> flat_map f l = flat_map g l.
Proof. intros H. induction l as [| x l IH]; simpl; [done | by rewrite H, IH]. Qed.

Lemma quote_sendKeysChar u :
  replaceAll (ch "'") (lit "''") (sendKeysChar u) = batchChar u.
Proof.
  unfold batchChar, sendKeysChar. rewrite escapeSendKeys_one.
  destruct (N.eqb_spec u (ch "'")) as [-> | Hq]; [reflexivity |].
  by_code_unit u. unfold replaceAll. cbn [flat_map].
  apply N.eqb_neq in Hq. by rewrite Hq.
Qed.

Lemma safeEscapedBatch_units (batch : jsString) :
  safeEscapedBatch batch = flat_map batchChar batch.
Proof.
  unfold safeEscapedBatch. rewrite escapeBatch_units, replaceAll_flat_map.
  apply flat_map_pointwise, quote_sendKeysChar.
Qed.

Lemma sendKeysLiteral_char u rest :
  sendKeysLiteral (sendKeysChar u ++ rest) = cons u <$> sendKeysLiteral rest.
Proof.
  unfold sendKeysChar. rewrite escapeSendKeys_one.
  by_code_unit u.
  change ([u] ++ rest) with (u :: rest). cbn [sendKeysLiteral].
  assert (wrappedSpecial u = false) as ->.
  { unfold wrappedSpecial. cbn [existsb].
    repeat match goal with H : u <> _ |- _ => apply N.eqb_neq in H; rewrite H; clear H end.
    reflexivity. }
  repeat match goal with H : u <> _ |- _ => apply N.eqb_neq in H; rewrite ?H; clear H end.
  reflexivity.
Qed.

Lemma sendKeysLiteral_units (text : jsString) :
  sendKeysLiteral (flat_map sendKeysChar text) = Some text.
Proof.
  induction text as [| u text IH]; [reflexivity |].
  by rewrite flat_map_step, sendKeysLiteral_char, IH.
Qed.

Lemma singleQuotedBody_doubled (s : jsString) :
  singleQuotedBody (replaceAll (ch "'") (lit "''") s) = Some s.
Proof.
  induction s as [| u s IH]; [reflexivity |].
  unfold replaceAll in *. rewrite flat_map_step.
  destruct (N.eqb_spec u (ch "'")) as [-> | Hq].
  - change (singleQuotedBody (ch "'" :: ch "'" :: flat_map
             (fun u => if u =? ch "'" then lit "''" else [u]) s) = Some (ch "'" :: s)).
    cbn [singleQuotedBody]. rewrite N.eqb_refl, IH. reflexivity.
  - change ([u] ++ ?r) with (u :: r). cbn [singleQuotedBody].
    apply N.eqb_neq in Hq. by rewrite Hq, IH.
Qed.

Lemma escapeSendKeys_default (char : jsString) :
  char ∈ sendKeysSpecials \/ escapeSendKeys char = char.
Proof.
  unfold escapeSendKeys.
  repeat (case_decide as H; [left; rewrite H; unfold sendKeysSpecials; set_solver | clear H]).
  by right.
Qed.

(** C1. [escapeSendKeys] maps each of the ten special characters to its
    wrapped form and every other character to itself; the batch that
    [simulateKeystrokesWindows] puts into the command is the text with each
    character replaced by its table entry and each single quote doubled, so
    that the body PowerShell reads out of the single-quoted string is the
    escaped batch; and reading the escaped batch back through the table
    gives the original text, for every text. *)
Theorem escapeSendKeys_table_roundtrip :
  (escapeSendKeys (lit "{") = lit "{{" /\ escapeSendKeys (lit "}") = lit "}}" /\
   escapeSendKeys (lit "+") = lit "{+}" /\ escapeSendKeys (lit "^") = lit "{^}" /\
   escapeSendKeys (lit "%") = lit "{%}" /\ escapeSendKeys (lit "~") = lit "{~}" /\
   escapeSendKeys (lit "(") = lit "{(}" /\ escapeSendKeys (lit ")") = lit "{)}" /\
   escapeSendKeys (lit "[") = lit "{[}" /\ escapeSendKeys (lit "]") = lit "{]}") /\
  (forall char : jsString, char ∈ sendKeysSpecials \/ escapeSendKeys char = char) /\
  (forall batch : jsString,
     safeEscapedBatch batch = flat_map batchChar batch /\
     batchChar (ch "'") = lit "''" /\
     singleQuotedBody (safeEscapedBatch batch) = Some (escapeBatch batch)) /\
  (forall text : jsString,
     sendKeysLiteral (escapeBatch text) = Some text /\
     (singleQuotedBody (safeEscapedBatch text) ≫= sendKeysLiteral) = Some text).
Proof.
  split; [repeat split |]. split; [apply escapeSendKeys_default |]. split.
  - intros batch. split; [apply safeEscapedBatch_units |]. split; [reflexivity |].
    apply singleQuotedBody_doubled.
  - intros text.
    assert (sendKeysLiteral (escapeBatch text) = Some text) as Hback
      by (rewrite escapeBatch_units; apply sendKeysLiteral_units).
    split; [exact Hback |].
    unfold safeEscapedBatch. rewrite singleQuotedBody_doubled. exact Hback.
Qed.

(** The earlier main process writes the same table inline. *)
Lemma legacy_table_same (char : jsString) : Legacy.escapedChar char = escapeSendKeys char.
Proof. reflexivity. Qed.

(** ... and puts the escaped batch into the command as it is, so a batch
    with a single quote ends the PowerShell string early. *)
Example legacy_batch_quote_not_doubled :
  Legacy.escapedBatch (lit "it's") = lit "it's" /\ safeEscapedBatch (lit "it's") = lit "it''s".
Proof. split; reflexivity. Qed.

(** ** Batch size *)

(** C3. For every positive delay the batch size is the quotient
    [200 / delay], rounded down and clamped to the range from 1 to 20; the
    five delays 1, 10, 50, 200 and 1000 give 20, 20, 4, 1 and 1. *)
Theorem batchSize_clamp (delay : Z) :
  (0 < delay)%Z ->
  batchSize delay = clamp (200 / delay) 1 20 /\
  (1 <= batchSize delay <= 20)%Z /\
  batchSize 1 = 20%Z /\ batchSize 10 = 20%Z /\ batchSize 50 = 4%Z /\
  batchSize 200 = 1%Z /\ batchSize 1000 = 1%Z.
Proof.
  intros Hpos. unfold batchSize, clamp.
  destruct (Z.eqb_spec delay 0) as [-> | _]; [lia |].
  repeat split; try reflexivity; try lia.
  destruct (Z.ltb_spec (200 / delay) 1), (Z.ltb_spec 20 (200 / delay)); lia.
Qed.

Lemma batchSize_clamp_witness :
  batchSize 50 = clamp (200 / 50) 1 20 /\
  (1 <= batchSize 50 <= 20)%Z /\
  batchSize 1 = 20%Z /\ batchSize 10 = 20%Z /\ batchSize 50 = 4%Z /\
  batchSize 200 = 1%Z /\ batchSize 1000 = 1%Z.
Proof. apply (batchSize_clamp 50). lia. Defined.

(** ** The log buffer *)

Lemma removelast_take {A} (l : list A) : removelast l = take (length l - 1) l.
Proof.
  induction l as [| x [| y l] IH]; [reflexivity | reflexivity |].
  change (removelast (x :: y :: l)) with (x :: removelast (y :: l)).
  rewrite IH. simpl. by rewrite Nat.sub_0_r.
Qed.

Lemma unshift_pop_take entry (logs : list LogEntry) :
  (length logs <= logger.maxLogs)%nat ->
  logger.unshift_pop entry logs = take logger.maxLogs (entry :: logs).
Proof.
  intros Hlen. unfold logger.unshift_pop.
  destruct (Nat.ltb_spec logger.maxLogs (length (entry :: logs))) as [Hlt | Hge].
  - rewrite removelast_take. f_equal. simpl in *. lia.
  - by rewrite take_ge.
Qed.

Lemma logs_log level category message data w :
  logs (logger.log level category message data w) =
    logger.unshift_pop (mkLogEntry (now w) level category message data (pid w)) (logs w).
Proof. unfold logger.log. simpl. by destruct (mainWindow w). Qed.

Lemma pid_log level category message data w :
  pid (logger.log level category message data w) = pid w.
Proof. unfold logger.log. simpl. by destruct (mainWindow w). Qed.

Lemma log_head level category message data w :
  head (logs (logger.log level category message data w)) =
    Some (mkLogEntry (now w) level category message data (pid w)).
Proof.
  rewrite logs_log. unfold logger.unshift_pop.
  destruct (logs w) as [| e l]; [reflexivity |].
  destruct (Nat.ltb _ _); reflexivity.
Qed.

Lemma platform_log level category message data w :
  PLATFORM (logger.log level category message data w) = PLATFORM w.
Proof. unfold logger.log. simpl. by destruct (mainWindow w). Qed.

Lemma sent_log level category message data w :
  sent (logger.log level category message data w) =
    sent w ++ (if mainWindow w
               then [MainProcessLog (mkLogEntry (now w) level category message data (pid w))]
               else []).
Proof. unfold logger.log. simpl. destruct (mainWindow w); simpl; by rewrite ?app_nil_r. Qed.

Lemma unshift_pop_front entry (logs : list LogEntry) :
  logger.unshift_pop entry logs =
    entry :: (if Nat.ltb (length logs) 200 then logs else removelast logs).
Proof.
  unfold logger.unshift_pop, logger.maxLogs. cbn [length].
  destruct (Nat.ltb_spec 200 (S (length logs))), (Nat.ltb_spec (length logs) 200);
    try lia; [| reflexivity].
  destruct logs; [simpl in *; lia | reflexivity].
Qed.

Lemma logs_record c w :
  logs (record c w) = logger.unshift_pop (entryOf w c) (logs w).
Proof. unfold record. by rewrite logs_log. Qed.

Lemma pid_record c w : pid (record c w) = pid w.
Proof. unfold record. by rewrite pid_log. Qed.

Lemma record_all calls : forall w,
  (length (logs w) <= logger.maxLogs)%nat ->
  pid (fold_left (fun w c => record c w) calls w) = pid w /\
  logger.getLogs (fold_left (fun w c => record c w) calls w) =
    take logger.maxLogs (reverse (map (entryOf w) calls) ++ logs w).
Proof.
  induction calls as [| c calls IH]; intros w Hlen.
  - simpl. split; [done |]. unfold logger.getLogs. by rewrite take_ge.
  - cbn [fold_left map]. 
    assert (length (logs (record c w)) <= logger.maxLogs)%nat as Hlen'.
    { rewrite logs_record, unshift_pop_take by done. rewrite length_take. lia. }
    destruct (IH (record c w) Hlen') as [Hpid ->]. rewrite Hpid, pid_record.
    split; [done |].
    rewrite logs_record, unshift_pop_take by done.
    rewrite reverse_cons, <- app_assoc.
    replace (map (entryOf (record c w)) calls) with (map (entryOf w) calls)
      by (apply map_ext; intros; unfold entryOf; by rewrite pid_record).
    cbn [app].
    set (r := reverse (map (entryOf w) calls)).
    destruct (decide (length r <= logger.maxLogs)%nat) as [Hr | Hr].
    + rewrite !take_app, !(take_ge r) by lia. f_equal.
      rewrite take_take. f_equal. lia.
    + rewrite !take_app. replace (logger.maxLogs - length r)%nat with 0%nat by lia.
      reflexivity.
Qed.

(** C9. Starting from the empty log of a new logger, after any sequence
    of [log] calls the buffer holds the entries of the last 200 calls,
    newest first, and so never more than 200; each call puts its entry at
    the front and, when the buffer was full, drops the last one. After 250
    calls the buffer is exactly the entries of calls 51 to 250 in reverse
    order, and (the entries being distinct) none of the first 50 is in it. *)
Theorem log_buffer_newest_200 (calls : list LogCall) (w : World) :
  logs w = [] ->
  let entries := map (entryOf w) calls in
  let w' := fold_left (fun w c => record c w) calls w in
  logger.getLogs w' = take 200 (reverse entries) /\
  (length (logger.getLogs w') <= 200)%nat /\
  (forall c, logger.getLogs (record c w') =
     entryOf w c :: (if Nat.ltb (length (logger.getLogs w')) 200
                     then logger.getLogs w' else removelast (logger.getLogs w'))) /\
  (length calls = 250%nat ->
     logger.getLogs w' = reverse (drop 50 entries) /\
     length (logger.getLogs w') = 200%nat /\
     (NoDup entries -> forall e, e ∈ take 50 entries -> e ∉ logger.getLogs w')).
Proof.
  intros Hempty entries w'.
  assert (length (logs w) <= logger.maxLogs)%nat as Hlen by (rewrite Hempty; simpl; lia).
  destruct (record_all calls w Hlen) as [Hpid Hlogs]. fold w' in Hpid, Hlogs.
  rewrite Hempty, app_nil_r in Hlogs. fold entries in Hlogs.
  change logger.maxLogs with 200%nat in Hlogs.
  assert (length (logger.getLogs w') <= 200)%nat as Hbound
    by (rewrite Hlogs, length_take; lia).
  split; [exact Hlogs |]. split; [exact Hbound |]. split.
  - intros c. unfold logger.getLogs in *. rewrite logs_record.
    replace (entryOf w' c) with (entryOf w c) by (unfold entryOf; by rewrite Hpid).
    unfold logger.unshift_pop. change logger.maxLogs with 200%nat.
    cbn [length].
    destruct (Nat.ltb_spec 200 (S (length (logs w')))),
             (Nat.ltb_spec (length (logs w')) 200); try lia; [| reflexivity].
    destruct (logs w') eqn:E; [simpl in *; lia | reflexivity].
  - intros H250.
    assert (length entries = 250%nat) as Hen by (unfold entries; by rewrite length_map).
    assert (logger.getLogs w' = reverse (drop 50 entries)) as Hdrop.
    { rewrite Hlogs. rewrite <- (take_drop 50 entries) at 1.
      rewrite reverse_app, take_app_length'; [done |].
      rewrite length_reverse, length_drop. lia. }
    split; [exact Hdrop |]. split.
    + rewrite Hdrop, length_reverse, length_drop. lia.
    + intros Hnodup e Hold Hin. rewrite Hdrop, elem_of_reverse in Hin.
      rewrite <- (take_drop 50 entries) in Hnodup.
      apply NoDup_app in Hnodup as (_ & Hdisj & _). exact (Hdisj e Hold Hin).
Qed.

Lemma log_buffer_newest_200_witness :
  let entries := map (entryOf sampleWorld) sampleCalls in
  let w' := fold_left (fun w c => record c w) sampleCalls sampleWorld in
  logger.getLogs w' = reverse (drop 50 entries) /\
  length (logger.getLogs w') = 200%nat /\
  (forall e, e ∈ take 50 entries -> e ∉ logger.getLogs w').
Proof.
  intros entries w'.
  destruct (log_buffer_newest_200 sampleCalls sampleWorld eq_refl) as (_ & _ & _ & H).
  destruct (H eq_refl) as (Hlogs & Hlen & Habsent).
  split; [exact Hlogs |]. split; [exact Hlen |].
  apply Habsent.
  apply (bool_decide_unpack (NoDup (map (entryOf sampleWorld) sampleCalls))).
  vm_compute. exact I.
Defined.

(** ** The clipboard monitor *)

(** A [logger.log] call touches the log and the renderer's log channel
    only. *)
Lemma log_frame level category message data w :
  let w' := logger.log level category message data w in
  intervals w' = intervals w /\
  clipboardMonitorInterval w' = clipboardMonitorInterval w /\
  lastClipboardText w' = lastClipboardText w /\
  mainWindow w' = mainWindow w /\
  nextTimer w' = nextTimer w /\
  clipboardEvents w' = clipboardEvents w.
Proof.
  destruct w as [? ? ? ? [] ? ? ? ? ?]; unfold logger.log, clipboardEvents; simpl;
    repeat split.
  rewrite omap_app. simpl. by rewrite app_nil_r.
Qed.

(** Name what the first [logger.log] call of the goal leaves alone. *)
Ltac log_frame_goal :=
  match goal with
  | |- context [logger.log ?l ?c ?m ?d ?w] =>
      let Hi := fresh "Hi" in let Hc := fresh "Hc" in let Hl := fresh "Hl" in
      let Hm := fresh "Hm" in let Hn := fresh "Hn" in let He := fresh "He" in
      destruct (log_frame l c m d w) as (Hi & Hc & Hl & Hm & Hn & He)
  end.

Lemma stop_spec w :
  monitor_inv w ->
  let w' := stopClipboardMonitoring w in
  intervals w' = ∅ /\ clipboardMonitorInterval w' = None /\
  nextTimer w' = nextTimer w /\ mainWindow w' = mainWindow w /\
  clipboardEvents w' = clipboardEvents w.
Proof.
  unfold monitor_inv, stopClipboardMonitoring.
  destruct (clipboardMonitorInterval w) as [t |] eqn:E.
  - intros (Hset & _ & _).
    log_frame_goal.
    cbv zeta. rewrite Hi, Hc, Hn, Hm, He. destruct w; simpl in *. subst.
    repeat split. apply difference_diag_L.
  - intros Hset. cbv zeta. by rewrite E.
Qed.

Lemma stop_none w :
  clipboardMonitorInterval w = None -> stopClipboardMonitoring w = w.
Proof. unfold stopClipboardMonitoring. by intros ->. Qed.

Lemma start_spec read w :
  monitor_inv w ->
  let w' := startClipboardMonitoring read w in
  intervals w' = {[nextTimer w]} /\
  clipboardMonitorInterval w' = Some (nextTimer w) /\
  nextTimer w' = S (nextTimer w) /\ mainWindow w' = mainWindow w /\
  clipboardEvents w' = clipboardEvents w /\
  lastClipboardText w' = match read with ReadText text => text | ReadThrows _ => [] end.
Proof.
  intros Hinv. unfold startClipboardMonitoring.
  set (w1 := logger.log _ _ _ _ w).
  assert (monitor_inv w1 /\ mainWindow w1 = mainWindow w /\ nextTimer w1 = nextTimer w
          /\ clipboardEvents w1 = clipboardEvents w) as (Hinv1 & Hwin1 & Hn1 & He1).
  { subst w1.
    log_frame_goal.
    unfold monitor_inv. rewrite Hi, Hc, Hn, Hm, He. auto. }
  destruct (stop_spec w1 Hinv1) as (Hs1 & Hs2 & Hs3 & Hs4 & Hs5).
  set (w2 := stopClipboardMonitoring w1) in *.
  destruct read as [text | message].
  - set (w3 := logger.log _ _ _ _ (set_lastClipboardText text w2)).
    assert (intervals w3 = ∅ /\ nextTimer w3 = nextTimer w /\ mainWindow w3 = mainWindow w /\
            clipboardEvents w3 = clipboardEvents w /\ lastClipboardText w3 = text)
      as (H1 & H2 & H3 & H4 & H5).
    { subst w3.
      log_frame_goal.
      rewrite Hi, Hn, Hm, He, Hl. unfold clipboardEvents in *. destruct w2; simpl in *.
      repeat split; congruence. }
    destruct w3; simpl in *. subst. rewrite union_empty_r_L. by repeat split.
  - set (w3 := logger.log _ _ _ _ w2).
    assert (intervals w3 = ∅ /\ nextTimer w3 = nextTimer w /\ mainWindow w3 = mainWindow w /\
            clipboardEvents w3 = clipboardEvents w) as (H1 & H2 & H3 & H4).
    { subst w3.
      log_frame_goal.
      rewrite Hi, Hn, Hm, He. repeat split; congruence. }
    destruct w3; simpl in *. subst. rewrite union_empty_r_L. by repeat split.
Qed.

Lemma tick_guard text w :
  bool_decide (text ≠ lastClipboardText w) && Nat.ltb 0 (length text) = true <-> changed text w.
Proof.
  unfold changed. rewrite andb_true_iff, bool_decide_eq_true, Nat.ltb_lt.
  destruct text; simpl; split; intros [? ?]; split; auto; try lia; congruence.
Qed.

Lemma tick_frame read w :
  let w' := clipboardTick read w in
  intervals w' = intervals w /\
  clipboardMonitorInterval w' = clipboardMonitorInterval w /\
  mainWindow w' = mainWindow w /\ nextTimer w' = nextTimer w.
Proof.
  destruct read as [text | message]; unfold clipboardTick.
  - destruct (bool_decide _ && _); [| by repeat split].
    destruct w as [? ? ? ? [] ? ? ? ? ?]; unfold logger.log; simpl; by repeat split.
  - cbv zeta.
    log_frame_goal.
    by rewrite Hi, Hc, Hm, Hn.
Qed.

Lemma tick_changed text w :
  mainWindow w = true -> changed text w ->
  let w' := clipboardTick (ReadText text) w in
  clipboardEvents w' = clipboardEvents w ++ [text] /\ lastClipboardText w' = text.
Proof.
  intros Hwin Hch. apply tick_guard in Hch. unfold clipboardTick. rewrite Hch.
  destruct w as [? ? ? ? win ? ? ? ? ?]; simpl in Hwin; subst win.
  unfold logger.log, clipboardEvents; simpl. rewrite !omap_app. simpl.
  by rewrite app_nil_r.
Qed.

Lemma tick_unchanged text w :
  ~ changed text w -> clipboardTick (ReadText text) w = w.
Proof.
  intros Hch. unfold clipboardTick.
  destruct (bool_decide _ && _) eqn:E; [| reflexivity].
  apply tick_guard in E. contradiction.
Qed.

Lemma tick_throws message w :
  let w' := clipboardTick (ReadThrows message) w in
  w' = logger.log (lit "debug") (lit "clipboard") (lit "Clipboard read error (normal)")
                  (ErrorData message) w /\
  clipboardEvents w' = clipboardEvents w /\ lastClipboardText w' = lastClipboardText w.
Proof.
  cbv zeta. unfold clipboardTick.
  log_frame_goal.
  by rewrite He, Hl.
Qed.

Lemma record_frame c w :
  let w' := record c w in
  intervals w' = intervals w /\
  clipboardMonitorInterval w' = clipboardMonitorInterval w /\
  mainWindow w' = mainWindow w /\ nextTimer w' = nextTimer w.
Proof.
  cbv zeta. unfold record.
  log_frame_goal.
  rewrite Hi, Hc, Hm, Hn. by destruct w.
Qed.

Lemma monitor_inv_step w e : monitor_inv w -> monitor_inv (monitorStep w e).
Proof.
  intros Hinv. destruct e as [| read | | | t read | c | t]; simpl.
  - unfold monitor_inv in *. destruct w; simpl in *.
    destruct clipboardMonitorInterval0; intuition.
  - destruct (mainWindow w) eqn:Hwin; [| done].
    destruct (start_spec read w Hinv) as (H1 & H2 & H3 & H4 & _).
    unfold monitor_inv. rewrite H2, H1, H3, H4. repeat split; [lia | done].
  - unfold stopClipboardMonitoring in *. unfold monitor_inv in Hinv.
    destruct w as [? ? ? ? win ? [t |] ? ? ?]; simpl in *.
    + destruct Hinv as (-> & ? & ->).
      log_frame_goal.
      unfold monitor_inv. rewrite Hc, Hi. simpl. apply difference_diag_L.
    + exact Hinv.
  - destruct (stop_spec w Hinv) as (H1 & H2 & _). unfold monitor_inv. by rewrite H2.
  - unfold fireInterval. case_decide; [| done].
    destruct (tick_frame read w) as (H1 & H2 & H3 & H4).
    unfold monitor_inv in *. by rewrite H1, H2, H3, H4.
  - destruct (record_frame c w) as (H1 & H2 & H3 & H4).
    unfold monitor_inv in *. by rewrite H1, H2, H3, H4.
  - unfold monitor_inv in *. by destruct w.
Qed.

Lemma monitor_inv_run events : forall w, monitor_inv w -> monitor_inv (run events w).
Proof.
  unfold run. induction events as [| e events IH]; intros w Hinv; simpl; [done |].
  by apply IH, monitor_inv_step.
Qed.

Lemma monitor_inv_initial platform pid now : monitor_inv (initialWorld platform pid now).
Proof. reflexivity. Qed.

(** C10. In every state the process can reach, the event loop holds at
    most one clipboard timer, and it is the one [clipboardMonitorInterval]
    names. Starting the monitor in such a state leaves exactly one timer,
    the new one; a timer that was running before is no longer held.
    Stopping when there is no timer changes nothing. *)
Theorem at_most_one_clipboard_timer
    (platform : Platform) (pid now : N) (events : list MonitorEvent) :
  let w := run events (initialWorld platform pid now) in
  (size (intervals w) <= 1)%nat /\
  intervals w = match clipboardMonitorInterval w with Some t => {[t]} | None => ∅ end /\
  (forall read,
     let w' := startClipboardMonitoring read w in
     size (intervals w') = 1%nat /\
     clipboardMonitorInterval w' = Some (nextTimer w) /\
     intervals w' = {[nextTimer w]} /\
     forall t, clipboardMonitorInterval w = Some t -> t ∉ intervals w') /\
  (clipboardMonitorInterval w = None -> stopClipboardMonitoring w = w).
Proof.
  intros w.
  assert (monitor_inv w) as Hinv by apply monitor_inv_run, monitor_inv_initial.
  split; [| split; [| split]].
  - unfold monitor_inv in Hinv. destruct (clipboardMonitorInterval w).
    + destruct Hinv as (-> & _). by rewrite size_singleton.
    + rewrite Hinv, size_empty. lia.
  - unfold monitor_inv in Hinv. destruct (clipboardMonitorInterval w); tauto.
  - intros read w'.
    destruct (start_spec read w Hinv) as (H1 & H2 & _). fold w' in H1, H2.
    rewrite H1, size_singleton. repeat split; try done.
    intros t Ht. unfold monitor_inv in Hinv. rewrite Ht in Hinv.
    destruct Hinv as (_ & Hlt & _). rewrite elem_of_singleton. lia.
  - apply stop_none.
Qed.

Lemma at_most_one_clipboard_timer_witness :
  let w := run [WindowCreated; DomReady (ReadText (lit "x"))] (initialWorld win32 4242 0) in
  (0%nat ∉ intervals (startClipboardMonitoring (ReadText (lit "y")) w)) /\
  stopClipboardMonitoring (initialWorld win32 4242 0) = initialWorld win32 4242 0.
Proof.
  intros w. split.
  - destruct (at_most_one_clipboard_timer win32 4242 0
                [WindowCreated; DomReady (ReadText (lit "x"))]) as (_ & _ & Hstart & _).
    destruct (Hstart (ReadText (lit "y"))) as (_ & _ & _ & Hold).
    apply Hold. reflexivity.
  - destruct (at_most_one_clipboard_timer win32 4242 0 []) as (_ & _ & _ & Hstop).
    apply Hstop. reflexivity.
Defined.

Lemma fire_held t read w : t ∈ intervals w -> fireInterval t read w = clipboardTick read w.
Proof. intros H. unfold fireInterval. by rewrite decide_True. Qed.

Lemma sample_ticks t w :
  t ∈ intervals w -> mainWindow w = true -> lastClipboardText w <> lit "a" ->
  clipboardEvents (run (ticks t sampleReads) w) = clipboardEvents w ++ [lit "a"; lit "b"].
Proof.
  intros Hheld Hwin Hbase. unfold run, ticks, sampleReads. cbn [map fold_left monitorStep].
  rewrite (fire_held t _ w) by done.
  rewrite (tick_unchanged ([]) w) by (intros [_ H]; by apply H).
  rewrite (fire_held t _ w) by done.
  assert (changed (lit "a") w) as Ha by (split; [congruence | discriminate]).
  destruct (tick_changed (lit "a") w Hwin Ha) as (He1 & Hl1).
  destruct (tick_frame (ReadText (lit "a")) w) as (Hi1 & _ & Hm1 & _).
  set (w1 := clipboardTick (ReadText (lit "a")) w) in *.
  assert (t ∈ intervals w1) as Hheld1 by (by rewrite Hi1).
  rewrite (fire_held t _ w1) by done.
  rewrite (tick_unchanged (lit "a") w1) by (intros [H _]; by apply H).
  rewrite (fire_held t _ w1) by done.
  assert (changed (lit "b") w1) as Hb by (split; [rewrite Hl1 |]; discriminate).
  destruct (tick_changed (lit "b") w1 (eq_trans Hm1 Hwin) Hb) as (He2 & Hl2).
  destruct (tick_frame (ReadText (lit "b")) w1) as (Hi2 & _).
  set (w2 := clipboardTick (ReadText (lit "b")) w1) in *.
  rewrite (fire_held t _ w2) by (by rewrite Hi2).
  rewrite (tick_unchanged ([]) w2) by (intros [_ H]; by apply H).
  by rewrite He2, He1, <- app_assoc.
Qed.

Lemma sample_ticks_tail t w :
  t ∈ intervals w ->
  run (ticks t (drop 1 sampleReads)) w = run (ticks t sampleReads) w.
Proof.
  intros Hheld. unfold run, ticks, sampleReads. cbn [drop map fold_left monitorStep].
  rewrite (fire_held t (ReadText ([])) w) by done.
  rewrite (tick_unchanged ([]) w) by (intros [_ H]; by apply H).
  reflexivity.
Qed.

(** C4. Take any state the process can reach and any timer the event loop
    holds in it. When that timer fires, a change event carrying a text is
    sent exactly when the read returned that text, the text differs from
    the snapshot and is not empty; the snapshot then becomes that text, and
    otherwise both the events and the snapshot stay as they were. A read that
    throws puts one [debug] entry at the front of the log buffer (sent to
    the renderer like every entry) and skips the tick: no event, the
    snapshot and the timer as before. With a snapshot
    other than ["a"], the reads empty, ["a"], ["a"], ["b"], empty announce
    ["a"] and then ["b"]; the same holds when the first read is the one
    [startClipboardMonitoring] takes as baseline. *)
Theorem clipboard_change_events
    (platform : Platform) (pid now : N) (events : list MonitorEvent)
    (t : nat) (read : ReadResult) :
  let w := run events (initialWorld platform pid now) in
  t ∈ intervals w ->
  let w' := fireInterval t read w in
  (forall text,
     clipboardEvents w' = clipboardEvents w ++ [text] <->
     read = ReadText text /\ text <> lastClipboardText w /\ text <> []) /\
  (forall text, read = ReadText text -> changed text w -> lastClipboardText w' = text) /\
  (~ (exists text, read = ReadText text /\ changed text w) ->
     clipboardEvents w' = clipboardEvents w /\ lastClipboardText w' = lastClipboardText w) /\
  (forall message, read = ReadThrows message ->
     exists entry,
     logText entry = (lit "debug", lit "clipboard", lit "Clipboard read error (normal)",
                      ErrorData message) /\
     logs w' = entry :: (if Nat.ltb (length (logs w)) 200 then logs w
                         else removelast (logs w)) /\
     sent w' = sent w ++ [MainProcessLog entry] /\
     clipboardEvents w' = clipboardEvents w /\
     lastClipboardText w' = lastClipboardText w /\
     intervals w' = intervals w /\
     clipboardMonitorInterval w' = clipboardMonitorInterval w) /\
  (lastClipboardText w <> lit "a" ->
     clipboardEvents (run (ticks t sampleReads) w) = clipboardEvents w ++ [lit "a"; lit "b"]) /\
  (let started := run [DomReady (ReadText ([]))] w in
   clipboardEvents (run (ticks (nextTimer w) (drop 1 sampleReads)) started)
     = clipboardEvents w ++ [lit "a"; lit "b"]).
Proof.
  intros w Hheld w'.
  assert (monitor_inv w) as Hinv by apply monitor_inv_run, monitor_inv_initial.
  assert (mainWindow w = true) as Hwin.
  { unfold monitor_inv in Hinv. destruct (clipboardMonitorInterval w); [tauto |].
    rewrite Hinv in Hheld. by apply not_elem_of_empty in Hheld. }
  subst w'. rewrite fire_held by done.
  split; [| split; [| split; [| split; [| split]]]].
  - intros text. split.
    + intros E. destruct read as [text' | message].
      * destruct (decide (changed text' w)) as [Hch | Hn].
        -- destruct (tick_changed text' w Hwin Hch) as (E' & _). rewrite E' in E.
           apply app_inj_tail in E as [_ ->]. by destruct Hch.
        -- exfalso. rewrite tick_unchanged in E by done.
           apply (f_equal length) in E. rewrite length_app in E. simpl in E. lia.
      * exfalso. destruct (tick_throws message w) as (_ & E' & _). rewrite E' in E.
        apply (f_equal length) in E. rewrite length_app in E. simpl in E. lia.
    + intros (-> & Hch). by destruct (tick_changed text w Hwin Hch).
  - intros text -> Hch. by destruct (tick_changed text w Hwin Hch).
  - intros Hnone. destruct read as [text | message].
    + rewrite tick_unchanged; [done |]. intros Hch. apply Hnone. by exists text.
    + by destruct (tick_throws message w) as (_ & ? & ?).
  - intros message ->. unfold clipboardTick.
    rewrite logs_log, unshift_pop_front, sent_log, Hwin.
    destruct (log_frame (lit "debug") (lit "clipboard") (lit "Clipboard read error (normal)")
                (ErrorData message) w) as (Hi & Hc & Hl & _ & _ & He).
    eexists. split; [| split; [reflexivity | by repeat split]].
    reflexivity.
  - intros Hbase. by apply sample_ticks.
  - intros started. subst started. unfold run at 2. cbn [fold_left monitorStep]. rewrite Hwin.
    destruct (start_spec (ReadText ([])) w Hinv) as (H1 & _ & _ & H4 & H5 & H6).
    assert (nextTimer w ∈ intervals (startClipboardMonitoring (ReadText ([])) w))
      as Hnew by (rewrite H1; by apply elem_of_singleton).
    rewrite sample_ticks_tail, <- H5 by done. apply sample_ticks.
    + done.
    + by rewrite H4.
    + by rewrite H6.
Qed.

Lemma clipboard_change_events_witness :
  let w := run [WindowCreated; DomReady (ReadText ([]))] sampleWorld in
  0%nat ∈ intervals w /\
  clipboardEvents (fireInterval 0 (ReadText (lit "a")) w) = clipboardEvents w ++ [lit "a"] /\
  lastClipboardText (fireInterval 0 (ReadText (lit "a")) w) = lit "a" /\
  clipboardEvents (run (ticks 0 sampleReads) w) = clipboardEvents w ++ [lit "a"; lit "b"] /\
  exists entry,
    logText entry = (lit "debug", lit "clipboard", lit "Clipboard read error (normal)",
                     ErrorData (lit "busy")) /\
    head (logs (fireInterval 0 (ReadThrows (lit "busy")) w)) = Some entry.
Proof.
  intros w.
  assert (0%nat ∈ intervals w) as Hheld by (vm_compute; set_solver).
  destruct (clipboard_change_events win32 4242 0
              [WindowCreated; DomReady (ReadText ([]))] 0%nat (ReadText (lit "a")) Hheld)
    as (Hiff & Hsnap & _ & _ & Hsample & _).
  destruct (clipboard_change_events win32 4242 0
              [WindowCreated; DomReady (ReadText ([]))] 0%nat (ReadThrows (lit "busy")) Hheld)
    as (_ & _ & _ & Hthrows & _).
  split; [exact Hheld |]. split; [| split; [| split]].
  - apply Hiff. repeat split; discriminate.
  - apply Hsnap; [reflexivity |]. split; discriminate.
  - apply Hsample. discriminate.
  - destruct (Hthrows (lit "busy") eq_refl) as (entry & Htext & Hlogs & _).
    exists entry. split; [exact Htext | exact (f_equal head Hlogs)].
Defined.

(** ** Command execution *)

Section ExecuteCommandFacts.

Variables (command : jsString) (args : list jsString) (timeoutMs : Z) (requestId : jsString).
Variable spawn : SpawnCall -> SpawnOutcome.

Local Abbreviation deliver' := (deliver timeoutMs requestId).
Local Abbreviation executing w :=
  (logger.log (lit "info") (lit "command")
     (tag requestId ++ lit "Executing: " ++ command ++ lit " " ++ take 100 (join args))
     NoData w).

(** With a child handed back, the handlers see every event. *)
Lemma executeCommand_spawned events w :
  spawn (spawnCall command args) = Spawned ->
  executeCommand command args timeoutMs requestId spawn events w =
    fold_left deliver' events (mkCommand [] [] false true false [] None, executing w).
Proof.
  intros H. unfold executeCommand, executeCommand_start. by rewrite H.
Qed.

(** With an exception of [spawn], the executor ends right after the log. *)
Lemma executeCommand_thrown message events w :
  spawn (spawnCall command args) = SpawnThrows message ->
  executeCommand command args timeoutMs requestId spawn events w =
    (mkCommand [] [] false false false [] (Some message), executing w).
Proof.
  intros H. unfold executeCommand, executeCommand_start. by rewrite H.
Qed.

(** Data chunks only accumulate. *)
Lemma deliver_quiet (pre : list ProcessEvent) : forall c w,
  quiet pre = true ->
  fold_left deliver' pre (c, w) =
    (mkCommand (cmd_output c ++ capturedOutput pre) (cmd_error c ++ capturedError pre)
               (completed c) (timerHeld c) (killed c) (resolveCalls c) (thrown c), w).
Proof.
  induction pre as [| e pre IH]; intros c w Hq.
  - simpl. rewrite !app_nil_r. by destruct c.
  - simpl in Hq. apply andb_prop in Hq as [He Hq].
    destruct e; try discriminate He; cbn [fold_left deliver];
      rewrite IH by done; simpl; by rewrite <- ?app_assoc.
Qed.

(** No handler throws: the handlers never touch what the executor left. *)
Lemma deliver_thrown (events : list ProcessEvent) : forall c w,
  thrown (fst (fold_left deliver' events (c, w))) = thrown c.
Proof.
  induction events as [| e events IH]; intros c w; [done |].
  cbn [fold_left].
  destruct (deliver' (c, w) e) as [c1 w1] eqn:E.
  rewrite IH.
  destruct e; simpl in E; unfold onClose, onError, onTimeout in E;
    repeat match type of E with
           | context [if ?b then _ else _] => destruct b
           end; by inversion E.
Qed.

(** Once the completion flag is set, no handler resolves or kills again. *)
Lemma deliver_completed (post : list ProcessEvent) : forall c w,
  completed c = true ->
  let c' := fst (fold_left deliver' post (c, w)) in
  completed c' = true /\ resolveCalls c' = resolveCalls c /\ killed c' = killed c.
Proof.
  induction post as [| e post IH]; intros c w Hc; [done |].
  cbn [fold_left].
  destruct (deliver' (c, w) e) as [c1 w1] eqn:E.
  assert (completed c1 = true /\ resolveCalls c1 = resolveCalls c /\ killed c1 = killed c)
    as (H1 & H2 & H3).
  { destruct e; simpl in E; unfold onClose, onError, onTimeout in E; rewrite ?Hc in E;
      simpl in E; try destruct (timerHeld c); inversion E; subst; simpl; auto. }
  destruct (IH c1 w1 H1) as (? & ? & ?). cbv zeta. repeat split; congruence.
Qed.

(** The command right after the first terminal event [e], which arrives
    after the data chunks [pre]. *)
Lemma deliver_first_terminal (pre post : list ProcessEvent) (e : ProcessEvent) w :
  spawn (spawnCall command args) = Spawned ->
  quiet pre = true ->
  let s := deliver' (mkCommand (capturedOutput pre) (capturedError pre) false true false []
                               None, executing w) e in
  let c := fst (executeCommand command args timeoutMs requestId spawn (pre ++ e :: post) w) in
  completed (fst s) = true ->
  resolveCalls c = resolveCalls (fst s) /\ killed c = killed (fst s) /\ thrown c = None.
Proof.
  intros Hspawn Hq s c Hdone. subst c. rewrite executeCommand_spawned by done.
  split; [| split]; [| | by rewrite deliver_thrown].
  all: rewrite fold_left_app, deliver_quiet by done.
  all: cbn [fold_left cmd_output cmd_error completed timerHeld killed resolveCalls thrown app].
  all: fold s; destruct s as [c1 w1].
  all: by destruct (deliver_completed post c1 w1 Hdone) as (_ & ? & ?).
Qed.

(** While only chunks have arrived, nothing is settled. *)
Lemma executeCommand_quiet events w :
  spawn (spawnCall command args) = Spawned ->
  quiet events = true ->
  executeCommand command args timeoutMs requestId spawn events w =
    (mkCommand (capturedOutput events) (capturedError events) false true false [] None,
     executing w).
Proof.
  intros Hspawn Hq. rewrite executeCommand_spawned by done. by rewrite deliver_quiet.
Qed.

End ExecuteCommandFacts.

Lemma first_terminal (events : list ProcessEvent) :
  quiet events = false ->
  exists pre e post, events = pre ++ e :: post /\ quiet pre = true /\ terminal e = true.
Proof.
  induction events as [| e events IH]; [discriminate |].
  simpl. destruct (terminal e) eqn:He; simpl.
  - intros _. by exists [], e, events.
  - intros Hq. destruct (IH Hq) as (pre & e' & post & -> & Hpre & He').
    exists (e :: pre), e', post. simpl. by rewrite He.
Qed.

Lemma settlesWith_intro (c : Command) (r : ExecutionResult) :
  resolveCalls c = [r] -> thrown c = None -> settlesWith c r.
Proof. intros Hr Ht. unfold settlesWith, promise. by rewrite Hr, Ht. Qed.

(** C2. The promise of [executeCommand] is rejected when [spawn] throws,
    which the executor does not catch: then [resolve] is never called, no
    timer is set and no event is handled, so the claim's [never rejects]
    and [exactly one result] fail there. When [spawn] hands back a child the
    claim holds: [resolve] is called at most once, the promise is not
    rejected, it stays pending while only output has arrived, and the first
    timeout, close or error event settles it: a timeout kills the child and
    gives [success: false] with [error: 'Command timed out'] and no exit
    code; a close with code 0 gives [success: true] with the output
    captured so far; a close with another code gives [success: false] with
    the captured standard error or, when that is empty, the message naming
    the code; an error gives [success: false] with its message and no exit
    code. Later events change nothing. *)
Theorem executeCommand_single_result
    (command : jsString) (args : list jsString) (timeoutMs : Z) (requestId : jsString)
    (spawn : SpawnCall -> SpawnOutcome) (events : list ProcessEvent) (w : World) :
  let c := fst (executeCommand command args timeoutMs requestId spawn events w) in
  (length (resolveCalls c) <= 1)%nat /\
  (forall reason,
     promise c = Rejected reason <-> spawn (mkSpawnCall command args true) = SpawnThrows reason) /\
  (forall reason, spawn (mkSpawnCall command args true) = SpawnThrows reason ->
     resolveCalls c = [] /\ timerHeld c = false /\ killed c = false) /\
  (spawn (mkSpawnCall command args true) = Spawned ->
   (quiet events = true -> promise c = Pending) /\
   (forall pre post, quiet pre = true ->
     (events = pre ++ TimeoutFires :: post ->
        settlesWith c (mkResult false None (Some (lit "Command timed out")) None None
                                (Some timeoutMs) None) /\
        killed c = true) /\
     (events = pre ++ Close (Some 0%Z) :: post ->
        settlesWith c (mkResult true (Some (lit "Command executed successfully")) None
                                (Some (capturedOutput pre)) (Some (Some 0%Z)) None None) /\
        killed c = false) /\
     (forall code, code <> Some 0%Z -> events = pre ++ Close code :: post ->
        settlesWith c (mkResult false None
                         (Some (if decide (capturedError pre = [])
                                then lit "Command failed with code " ++ showCode code
                                else capturedError pre))
                         (Some (capturedOutput pre)) (Some code) None None) /\
        killed c = false) /\
     (forall message, events = pre ++ SpawnError message :: post ->
        settlesWith c (mkResult false None (Some message) None None None None) /\
        killed c = false))).
Proof.
  intros c. change (mkSpawnCall command args true) with (spawnCall command args).
  destruct (spawn (spawnCall command args)) as [| thrownMessage] eqn:Hspawn.
  - assert (forall pre post, quiet pre = true ->
       (events = pre ++ TimeoutFires :: post ->
          settlesWith c (mkResult false None (Some (lit "Command timed out")) None None
                                  (Some timeoutMs) None) /\
          killed c = true) /\
       (events = pre ++ Close (Some 0%Z) :: post ->
          settlesWith c (mkResult true (Some (lit "Command executed successfully")) None
                                  (Some (capturedOutput pre)) (Some (Some 0%Z)) None None) /\
          killed c = false) /\
       (forall code, code <> Some 0%Z -> events = pre ++ Close code :: post ->
          settlesWith c (mkResult false None
                           (Some (if decide (capturedError pre = [])
                                  then lit "Command failed with code " ++ showCode code
                                  else capturedError pre))
                           (Some (capturedOutput pre)) (Some code) None None) /\
          killed c = false) /\
       (forall message, events = pre ++ SpawnError message :: post ->
          settlesWith c (mkResult false None (Some message) None None None None) /\
          killed c = false)) as Hcases.
    { intros pre post Hq.
      split; [| split; [| split]].
      - intros E. subst c. rewrite E.
        destruct (deliver_first_terminal command args timeoutMs requestId spawn pre post
                    TimeoutFires w Hspawn Hq eq_refl) as (Hr & -> & Ht).
        split; [by apply settlesWith_intro | reflexivity].
      - intros E. subst c. rewrite E.
        destruct (deliver_first_terminal command args timeoutMs requestId spawn pre post
                    (Close (Some 0%Z)) w Hspawn Hq eq_refl) as (Hr & -> & Ht).
        split; [by apply settlesWith_intro | reflexivity].
      - intros code Hcode E. subst c. rewrite E.
        destruct (deliver_first_terminal command args timeoutMs requestId spawn pre post
                    (Close code) w Hspawn Hq eq_refl) as (Hr & -> & Ht).
        split; [apply settlesWith_intro; [| exact Ht] |].
        + rewrite Hr. simpl. rewrite decide_False by done. simpl.
          by destruct (capturedError pre).
        + reflexivity.
      - intros message E. subst c. rewrite E.
        destruct (deliver_first_terminal command args timeoutMs requestId spawn pre post
                    (SpawnError message) w Hspawn Hq eq_refl) as (Hr & -> & Ht).
        split; [by apply settlesWith_intro | reflexivity]. }
    assert (thrown c = None) as Hthrown.
    { subst c. rewrite executeCommand_spawned by done. by rewrite deliver_thrown. }
    assert (quiet events = true -> resolveCalls c = []) as Hpending.
    { intros Hq. subst c. by rewrite executeCommand_quiet. }
    assert (length (resolveCalls c) <= 1)%nat as Hone.
    { destruct (quiet events) eqn:Hq; [rewrite Hpending by done; simpl; lia |].
      destruct (first_terminal events Hq) as (pre & e & post & E & Hpre & He).
      destruct (Hcases pre post Hpre) as (H1 & H2 & H3 & H4).
      destruct e as [| | code | message |]; try discriminate He.
      - destruct (decide (code = Some 0%Z)) as [-> | Hcode].
        + destruct (H2 E) as [[-> _] _]. simpl. lia.
        + destruct (H3 code Hcode E) as [[-> _] _]. simpl. lia.
      - destruct (H4 message E) as [[-> _] _]. simpl. lia.
      - destruct (H1 E) as [[-> _] _]. simpl. lia. }
    split; [exact Hone |]. split; [| split; [done |]].
    + intros reason. unfold promise. rewrite Hthrown.
      split; [by destruct (resolveCalls c) | discriminate].
    + intros _. split; [| exact Hcases].
      intros Hq. unfold promise. by rewrite Hthrown, Hpending.
  - subst c. rewrite (executeCommand_thrown _ _ _ _ _ thrownMessage) by done.
    cbn [fst resolveCalls timerHeld killed length]. unfold promise. cbn [thrown].
    split; [lia |]. split; [| split; [done | discriminate]].
    intros reason. split; congruence.
Qed.

Lemma executeCommand_single_result_witness :
  let accepts (call : SpawnCall) := Spawned in
  let refuses (call : SpawnCall) := SpawnThrows (lit "spawn E2BIG") in
  let after events := fst (executeCommand (lit "powershell") [lit "-Command"; lit "x"] 3000
                           (lit "r1") accepts events sampleWorld) in
  (settlesWith (after [StdoutData (lit "o"); TimeoutFires; Close None])
     (mkResult false None (Some (lit "Command timed out")) None None (Some 3000%Z) None) /\
   killed (after [StdoutData (lit "o"); TimeoutFires; Close None]) = true) /\
  (settlesWith (after [StdoutData (lit "o"); Close (Some 0%Z); TimeoutFires])
     (mkResult true (Some (lit "Command executed successfully")) None (Some (lit "o"))
               (Some (Some 0%Z)) None None) /\
   killed (after [StdoutData (lit "o"); Close (Some 0%Z); TimeoutFires]) = false) /\
  (settlesWith (after [StdoutData (lit "o"); Close (Some 2%Z)])
     (mkResult false None (Some (lit "Command failed with code 2")) (Some (lit "o"))
               (Some (Some 2%Z)) None None) /\
   killed (after [StdoutData (lit "o"); Close (Some 2%Z)]) = false) /\
  (settlesWith (after [SpawnError (lit "spawn ENOENT"); Close (Some (-2)%Z)])
     (mkResult false None (Some (lit "spawn ENOENT")) None None None None) /\
   killed (after [SpawnError (lit "spawn ENOENT"); Close (Some (-2)%Z)]) = false) /\
  promise (fst (executeCommand (lit "xdotool")
                  [lit "type"; lit "--delay"; lit "12"; lit "--clearmodifiers"; lit "--";
                   repeat (ch "a") (Z.to_nat 150000)]
                  30000 (lit "r1") refuses [Close (Some 0%Z)] sampleLinuxWorld))
    = Rejected (lit "spawn E2BIG").
Proof.
  intros accepts refuses after.
  destruct (executeCommand_single_result (lit "powershell") [lit "-Command"; lit "x"] 3000
              (lit "r1") accepts [StdoutData (lit "o"); TimeoutFires; Close None] sampleWorld)
    as (_ & _ & _ & Htimeout).
  destruct (executeCommand_single_result (lit "powershell") [lit "-Command"; lit "x"] 3000
              (lit "r1") accepts [StdoutData (lit "o"); Close (Some 0%Z); TimeoutFires]
              sampleWorld)
    as (_ & _ & _ & Hclean).
  destruct (executeCommand_single_result (lit "powershell") [lit "-Command"; lit "x"] 3000
              (lit "r1") accepts [StdoutData (lit "o"); Close (Some 2%Z)] sampleWorld)
    as (_ & _ & _ & Hfailed).
  destruct (executeCommand_single_result (lit "powershell") [lit "-Command"; lit "x"] 3000
              (lit "r1") accepts [SpawnError (lit "spawn ENOENT"); Close (Some (-2)%Z)]
              sampleWorld)
    as (_ & _ & _ & Hspawn).
  destruct (executeCommand_single_result (lit "xdotool")
              [lit "type"; lit "--delay"; lit "12"; lit "--clearmodifiers"; lit "--";
               repeat (ch "a") (Z.to_nat 150000)]
              30000 (lit "r1") refuses [Close (Some 0%Z)] sampleLinuxWorld)
    as (_ & Hrejected & _).
  split; [| split; [| split; [| split]]].
  - destruct (Htimeout eq_refl) as [_ H].
    destruct (H [StdoutData (lit "o")] [Close None] eq_refl) as (H' & _).
    exact (H' eq_refl).
  - destruct (Hclean eq_refl) as [_ H].
    destruct (H [StdoutData (lit "o")] [TimeoutFires] eq_refl) as (_ & H' & _).
    exact (H' eq_refl).
  - destruct (Hfailed eq_refl) as [_ H].
    destruct (H [StdoutData (lit "o")] [] eq_refl) as (_ & _ & H' & _).
    apply (H' (Some 2%Z)); [discriminate | reflexivity].
  - destruct (Hspawn eq_refl) as [_ H].
    destruct (H [] [Close (Some (-2)%Z)] eq_refl) as (_ & _ & _ & H').
    exact (H' (lit "spawn ENOENT") eq_refl).
  - apply Hrejected. reflexivity.
Defined.

(** ** Batched keystroke simulation *)

Section BatchFacts.

Variables (text : jsString) (delay : Z) (requestId : jsString)
          (outcome : nat -> option jsString).

Local Abbreviation size := (batchLength delay).
Local Abbreviation failure := (batchFailure outcome).
Local Abbreviation batchActions := (batchActionsAt text delay).

Lemma processNextBatch_step index errors trace w :
  processNextBatch text delay requestId outcome index errors trace w =
    if decide (length text <= index)%nat then (finish errors, trace, w)
    else
      processNextBatch text delay requestId outcome (index + size)
        (errors ++ match failure index with Some e => [e] | None => [] end)
        (trace ++ batchActions index)
        (match outcome index with
         | Some message =>
             logger.log (lit "warn") (lit "paste")
               (lit "[" ++ requestId ++ lit "] Batch error at position " ++ showNat index)
               (ErrorData message) w
         | None => w
         end).
Proof.
  rewrite processNextBatch_equation_1.
  destruct (decide (length text <= index)%nat); [reflexivity |].
  cbv beta iota delta [processNextBatch_unfold_clause_1].
  unfold batchFailure, batchActionsAt, batchLength.
  destruct (outcome index); cbv zeta; rewrite <- (app_assoc trace), ?app_nil_r; reflexivity.
Qed.

Lemma batchOffsets_next size' index n :
  batchOffsets size' index (S n) = index :: batchOffsets size' (index + size') n.
Proof.
  unfold batchOffsets. cbn [seq map]. f_equal; [lia |].
  rewrite <- seq_shift, map_map. apply map_ext. intros k. lia.
Qed.

Lemma processNextBatch_run (n : nat) : forall index errors trace w,
  (length text <= index + n * size)%nat ->
  (n = 0%nat \/ index + (n - 1) * size < length text)%nat ->
  let '(result, trace', _) :=
    processNextBatch text delay requestId outcome index errors trace w in
  result = finish (errors ++ omap failure (batchOffsets size index n)) /\
  trace' = trace ++ flat_map batchActions (batchOffsets size index n).
Proof.
  induction n as [| n IH]; intros index errors trace w Hup Hlow.
  - rewrite processNextBatch_step, decide_True by lia.
    simpl. by rewrite !app_nil_r.
  - rewrite processNextBatch_step, decide_False by lia.
    rewrite batchOffsets_next.
    specialize (IH (index + size)%nat
                  (errors ++ match failure index with Some e => [e] | None => [] end)
                  (trace ++ batchActions index)
                  (match outcome index with
                   | Some message =>
                       logger.log (lit "warn") (lit "paste")
                         (lit "[" ++ requestId ++ lit "] Batch error at position "
                          ++ showNat index) (ErrorData message) w
                   | None => w
                   end)).
    destruct (processNextBatch _ _ _ _ _ _ _ _) as [[result trace'] w'].
    destruct IH as [-> ->]; [lia | destruct n; [by left | right; lia] |].
    rewrite flat_map_step, <- !app_assoc. split; [| reflexivity].
    f_equal. f_equal. cbn [omap list_omap]. by destruct (failure index).
Qed.

Lemma batchCount_bounds len size' index :
  (0 < size')%nat ->
  let n := batchCount len size' index in
  (len <= index + n * size')%nat /\ (n = 0%nat \/ index + (n - 1) * size' < len)%nat.
Proof.
  intros Hpos n. subst n. unfold batchCount.
  pose proof (Nat.div_mod_eq (len - index + (size' - 1)) size') as Hdm.
  pose proof (Nat.mod_upper_bound (len - index + (size' - 1)) size' ltac:(lia)) as Hr.
  set (q := ((len - index + (size' - 1)) / size')%nat) in *.
  set (r := ((len - index + (size' - 1)) mod size')%nat) in *.
  split; [nia |]. destruct q as [| q]; [by left | right]. nia.
Qed.

End BatchFacts.

Lemma batchOffsets_multiples (len size : nat) :
  (0 < size)%nat ->
  forall i, i ∈ batchOffsets size 0 (batchCount len size 0) <->
            (i < len)%nat /\ exists k, i = (k * size)%nat.
Proof.
  intros Hpos i.
  destruct (batchCount_bounds len size 0 Hpos) as [Hup Hlow].
  set (n := batchCount len size 0) in *. unfold batchOffsets.
  rewrite list_elem_of_fmap. split.
  - intros (k & -> & Hk). apply elem_of_seq in Hk. split; [| by exists k]. nia.
  - intros (Hlt & k & ->). exists k. split; [done |]. apply elem_of_seq. nia.
Qed.

(** C8. A run of [simulateKeystrokesWindows] waits 200 ms and then starts
    one process for every batch of the text, in order, each followed by its
    pause, whatever the earlier processes reported: the actions do not
    depend on the outcomes. The errors of the result are the entries
    [Position i: message] of the batches that failed, in order, and
    [undefined] when there is none; [success] says there is none. So when
    every batch succeeds the result is [success: true] without errors, and a
    failing batch makes [success] false and leaves its offset in the list. *)
Theorem batches_best_effort
    (text : jsString) (delay : Z) (requestId : jsString)
    (outcome : nat -> option jsString) (w : World) :
  let size := batchLength delay in
  let offsets := batchOffsets size 0 (batchCount (length text) size 0) in
  let failures := omap (batchFailure outcome) offsets in
  let '(result, trace, _) := simulateKeystrokesWindows text delay requestId outcome w in
  (forall i, i ∈ offsets <-> (i < length text)%nat /\ exists k, i = (k * size)%nat) /\
  trace = SetTimeout 200 :: flat_map (batchActionsAt text delay) offsets /\
  ks_errors result = (if decide (failures = []) then None else Some failures) /\
  ks_success result = bool_decide (failures = []) /\
  ((forall i, i ∈ offsets -> outcome i = None) ->
     result = mkKeystrokeResult true (lit "Keystrokes completed") None) /\
  (forall i message, i ∈ offsets -> outcome i = Some message ->
     ks_success result = false /\
     exists errors, ks_errors result = Some errors /\
                    (lit "Position " ++ showNat i ++ lit ": " ++ message) ∈ errors).
Proof.
  intros size offsets failures. unfold simulateKeystrokesWindows.
  set (w1 := logger.log _ _ _ _ w).
  assert (0 < size)%nat as Hpos by apply batchSize_pos.
  destruct (batchCount_bounds (length text) size 0 Hpos) as [Hup Hlow].
  pose proof (processNextBatch_run text delay requestId outcome
                (batchCount (length text) size 0) 0 [] [SetTimeout 200] w1 Hup Hlow) as Hrun.
  destruct (processNextBatch _ _ _ _ _ _ _ _) as [[result trace] w'].
  destruct Hrun as [-> ->]. fold size offsets. cbn [app]. fold failures.
  assert (ks_errors (finish failures) = if decide (failures = []) then None else Some failures)
    as Herrors by (by destruct failures).
  assert (ks_success (finish failures) = bool_decide (failures = [])) as Hsuccess
    by (by destruct failures).
  split; [by apply batchOffsets_multiples |].
  split; [reflexivity |]. split; [exact Herrors |]. split; [exact Hsuccess |]. split.
  - intros Hall.
    assert (failures = []) as Hnone; [| by rewrite Hnone].
    clear Herrors Hsuccess. subst failures. clear Hup Hlow.
    induction offsets as [| i offsets' IH]; [reflexivity |].
    cbn [omap list_omap]. unfold batchFailure at 1.
    rewrite (Hall i) by apply list_elem_of_here. simpl.
    apply IH. intros j Hj. apply Hall. by apply list_elem_of_further.
  - intros i message Hi Hout.
    assert ((lit "Position " ++ showNat i ++ lit ": " ++ message) ∈ failures) as Hin.
    { subst failures. apply list_elem_of_omap. exists i. split; [done |].
      unfold batchFailure. by rewrite Hout. }
    rewrite Herrors, Hsuccess.
    destruct failures as [| e rest]; [by apply not_elem_of_nil in Hin |].
    split; [reflexivity |]. rewrite decide_False by done. by eexists.
Qed.

Lemma batches_best_effort_witness :
  fst (fst (simulateKeystrokesWindows sampleText 50 (lit "r1") allSucceed sampleWorld))
    = mkKeystrokeResult true (lit "Keystrokes completed") None /\
  (let result :=
     fst (fst (simulateKeystrokesWindows sampleText 50 (lit "r1") secondFails sampleWorld)) in
   ks_success result = false /\
   exists errors, ks_errors result = Some errors /\ lit "Position 4: boom" ∈ errors).
Proof.
  split.
  - pose proof (batches_best_effort sampleText 50 (lit "r1") allSucceed sampleWorld) as H.
    cbv zeta in H.
    destruct (simulateKeystrokesWindows sampleText 50 (lit "r1") allSucceed sampleWorld)
      as [[result trace] w'].
    destruct H as (_ & _ & _ & _ & Hall & _). apply Hall. reflexivity.
  - pose proof (batches_best_effort sampleText 50 (lit "r1") secondFails sampleWorld) as H.
    cbv zeta in H.
    destruct (simulateKeystrokesWindows sampleText 50 (lit "r1") secondFails sampleWorld)
      as [[result trace] w'].
    destruct H as (Hoffsets & _ & _ & _ & _ & Hfail).
    apply (Hfail 4%nat (lit "boom")); [| reflexivity].
    apply Hoffsets. split; [vm_compute; lia | by exists 1%nat].
Defined.

(** The scenario itself: two batches, the first one carrying [a{{b}}]. *)
Example sample_scenario :
  simulateKeystrokesWindows sampleText 50 (lit "r1") allSucceed (set_mainWindow true sampleWorld)
  = (mkKeystrokeResult true (lit "Keystrokes completed") None,
     [SetTimeout 200;
      Exec (sendWaitCommand (lit "a{{b}}")) 5000; SetTimeout 200;
      Exec (sendWaitCommand (lit "c")) 5000; SetTimeout 200],
     logger.log (lit "info") (lit "paste") (lit "[r1] Using Windows SendKeys simulation") NoData
                (set_mainWindow true sampleWorld)).
Proof. reflexivity. Qed.

(** ** macOS keystroke simulation *)

Lemma appleScriptEscape_units (text : jsString) :
  appleScriptEscape text = flat_map appleScriptChar text.
Proof.
  unfold appleScriptEscape, replaceAll at 2. rewrite replaceAll_flat_map.
  apply flat_map_pointwise. intros u. unfold appleScriptChar, replaceAll.
  by_code_unit u. cbn [orb flat_map].
  repeat match goal with H : u <> _ |- _ => apply N.eqb_neq in H; rewrite ?H; clear H end.
  reflexivity.
Qed.

(** C5, as the code has it. Text longer than 200 code units goes to the
    clipboard path: clipboard write, 100 ms, Cmd+V through [osascript].
    Text of 200 code units or fewer is typed by one [osascript] call whose
    script holds the text with a backslash before each backslash and each
    double quote. *)
Theorem mac_keystroke_threshold
    (text : jsString) (delay : Z) (requestId : jsString) (w : World) :
  let dispatch := fst (simulateKeystrokesMac text delay requestId w) in
  ((200 < length text)%nat ->
     dispatch = pasteViaClipboardMac text requestId /\
     actions dispatch =
       [WriteClipboard text; SetTimeout 100;
        ExecuteCommand (lit "osascript")
          [lit "-e";
           lit "tell application " ++ dquote ++ lit "System Events" ++ dquote
           ++ lit " to keystroke " ++ dquote ++ lit "v" ++ dquote ++ lit " using command down"]
          3000 requestId]) /\
  ((length text <= 200)%nat ->
     dispatch =
       mkDispatch
         [ExecuteCommand (lit "osascript")
            [lit "-e";
             lit "tell application " ++ dquote ++ lit "System Events" ++ dquote
             ++ lit " to keystroke " ++ dquote ++ flat_map appleScriptChar text ++ dquote]
            10000 requestId]
         (lit "osascript-keystroke")).
Proof.
  intros dispatch. subst dispatch. unfold simulateKeystrokesMac. split.
  - intros Hlong. apply Nat.ltb_lt in Hlong. by rewrite Hlong.
  - intros Hshort. apply Nat.ltb_ge in Hshort. rewrite Hshort.
    cbv zeta. by rewrite appleScriptEscape_units.
Qed.

Lemma mac_keystroke_threshold_witness :
  fst (simulateKeystrokesMac (repeat (ch "a") 201) 12 (lit "r1") sampleWorld)
    = pasteViaClipboardMac (repeat (ch "a") 201) (lit "r1") /\
  fst (simulateKeystrokesMac (lit "a\b") 12 (lit "r1") sampleWorld)
    = mkDispatch
        [ExecuteCommand (lit "osascript")
           [lit "-e";
            lit "tell application " ++ dquote ++ lit "System Events" ++ dquote
            ++ lit " to keystroke " ++ dquote ++ lit "a\\b" ++ dquote]
           10000 (lit "r1")]
        (lit "osascript-keystroke").
Proof.
  split.
  - apply (mac_keystroke_threshold (repeat (ch "a") 201) 12 (lit "r1") sampleWorld).
    vm_compute. lia.
  - apply (mac_keystroke_threshold (lit "a\b") 12 (lit "r1") sampleWorld).
    vm_compute. lia.
Defined.

(** C5 as stated fails at the threshold itself: a text of exactly 200 code
    units is long in the specification's sense and is still typed, not
    pasted. *)
Lemma mac_threshold_200_is_typed :
  let text := repeat (ch "a") 200 in
  spec_longTextMac text = true /\
  fst (simulateKeystrokesMac text 12 (lit "r1") sampleWorld)
    <> pasteViaClipboardMac text (lit "r1").
Proof. split; [reflexivity |]. vm_compute. discriminate. Qed.

(** ** Newlines on the Windows paths *)

Lemma shellEscape_fold (chars : list jsString) (acc : jsString) :
  fold_left shellEscapeStep chars acc = acc ++ flat_map shellPiece chars.
Proof.
  revert acc. induction chars as [| char chars IH]; intros acc.
  - simpl. by rewrite app_nil_r.
  - cbn [fold_left]. rewrite IH, flat_map_step. unfold shellEscapeStep, shellPiece.
    repeat case_decide; by rewrite <- ?app_assoc, ?app_nil_r.
Qed.

Lemma shellPiece_one (u : codeUnit) :
  shellPiece [u] =
    if u =? 10 then lit "{ENTER}" else if u =? 13 then [] else sendKeysChar u.
Proof.
  unfold shellPiece, sendKeysChar.
  destruct (N.eqb_spec u 10) as [-> | H10]; [reflexivity |].
  destruct (N.eqb_spec u 13) as [-> | H13]; [reflexivity |].
  rewrite !decide_False; [reflexivity | |]; intros E; injection E; congruence.
Qed.

Lemma shellEscapedText_units (text : jsString) :
  shellEscapedText text = flat_map shellChar text.
Proof.
  unfold shellEscapedText. rewrite shellEscape_fold. cbn [app].
  rewrite (codePoints_flat_map shellPiece).
  - rewrite replaceAll_flat_map. apply flat_map_pointwise. intros u.
    rewrite shellPiece_one. unfold shellChar.
    destruct (N.eqb_spec u 10) as [-> | H10]; [reflexivity |].
    destruct (N.eqb_spec u 13) as [-> | H13]; [reflexivity |].
    apply quote_sendKeysChar.
  - intros u v Hu Hv. unfold shellPiece at 1.
    rewrite !decide_False by discriminate. rewrite escapeSendKeys_longer.
    rewrite !shellPiece_one. unfold sendKeysChar.
    rewrite high_surrogate_plain, low_surrogate_plain by done.
    unfold isHighSurrogate in Hu. unfold isLowSurrogate in Hv.
    apply andb_prop in Hu as [Hu _]. apply andb_prop in Hv as [Hv _].
    apply N.leb_le in Hu, Hv.
    destruct (N.eqb_spec u 10) as [-> | _]; [vm_compute in Hu; done |].
    destruct (N.eqb_spec u 13) as [-> | _]; [vm_compute in Hu; done |].
    destruct (N.eqb_spec v 10) as [-> | _]; [vm_compute in Hv; done |].
    destruct (N.eqb_spec v 13) as [-> | _]; [vm_compute in Hv; done |].
    reflexivity.
Qed.

(** C6. The shell-paste path does what the claim says: in the literal it
    builds, every line feed is [{ENTER}] and every carriage return is gone.
    The batched path does not: a batch goes through the escaping table and
    the quote doubling only, so line feeds and carriage returns reach the
    command as they are; for the text [a], CR, LF, [b] the one process
    started is handed exactly these four characters. *)
Theorem newlines_translated_only_by_shell_paste :
  (forall text, shellEscapedText text = flat_map shellChar text) /\
  shellChar 10 = lit "{ENTER}" /\ shellChar 13 = [] /\
  (forall batch, safeEscapedBatch batch = flat_map batchChar batch) /\
  batchChar 10 = [10] /\ batchChar 13 = [13] /\
  (let text := lit "a" ++ [13; 10] ++ lit "b" in
   shellEscapedText text = lit "a{ENTER}b" /\
   snd (fst (simulateKeystrokesWindows text 50 (lit "r1") allSucceed sampleWorld))
     = [SetTimeout 200; Exec (sendWaitCommand text) 5000; SetTimeout 200]).
Proof.
  split; [apply shellEscapedText_units |]. split; [reflexivity |]. split; [reflexivity |].
  split; [apply safeEscapedBatch_units |]. repeat split; reflexivity.
Qed.

(** ** The double-quoted PowerShell string of the earlier main process *)

Lemma replaceAll_other c r u : u <> c -> replaceAll c r [u] = [u].
Proof. intros H. unfold replaceAll. simpl. apply N.eqb_neq in H. by rewrite H. Qed.

Lemma powershell_character_passes (text : jsString) :
  replaceAll (ch "]") (lit "`]")
    (replaceAll (ch "[") (lit "`[")
      (replaceAll (ch "$") (lit "`$")
        (replaceAll (ch "`") (lit "``")
          (replaceAll 34 (dquote ++ dquote)
            (replaceAll 92 (backslash ++ backslash) text)))))
  = flat_map powershellEscapeChar text.
Proof.
  unfold replaceAll at 6. rewrite !replaceAll_flat_map.
  apply flat_map_pointwise. intros u. unfold powershellEscapeChar.
  by_code_unit u. by rewrite !replaceAll_other.
Qed.

Lemma replaceNewlines_plain r u s :
  u <> 13 -> u <> 10 -> replaceNewlines r (u :: s) = u :: replaceNewlines r s.
Proof.
  intros H13 H10. cbn [replaceNewlines].
  apply N.eqb_neq in H13, H10. by rewrite H13, H10.
Qed.

Lemma replaceNewlines_cr r v s :
  v <> 10 -> replaceNewlines r (13 :: v :: s) = 13 :: replaceNewlines r (v :: s).
Proof.
  intros H10. change (replaceNewlines r (13 :: v :: s))
    with (if v =? 10 then r ++ replaceNewlines r s else 13 :: replaceNewlines r (v :: s)).
  apply N.eqb_neq in H10. by rewrite H10.
Qed.

Lemma powershellEscapeChar_plain r u s :
  u <> 13 -> u <> 10 ->
  replaceNewlines r (powershellEscapeChar u ++ s) = powershellEscapeChar u ++ replaceNewlines r s.
Proof.
  intros H13 H10. unfold powershellEscapeChar.
  by_code_unit u; cbn [app]; rewrite ?replaceNewlines_plain by done; reflexivity.
Qed.

Lemma powershellEscapeChar_head u s :
  u <> 10 -> exists x rest, powershellEscapeChar u ++ s = x :: rest /\ x <> 10.
Proof.
  intros H10. unfold powershellEscapeChar.
  by_code_unit u; cbn [app]; eexists _, _; (split; [reflexivity | done]).
Qed.

Lemma powershell_newline_pass (text : jsString) :
  replaceNewlines (lit "{ENTER}") (flat_map powershellEscapeChar text)
  = powershellEscapePass text.
Proof.
  induction text as [| u | u v s IH1 IH2] using jsString_pair_ind.
  - reflexivity.
  - destruct (N.eqb_spec u 13) as [-> | H13]; [reflexivity |].
    destruct (N.eqb_spec u 10) as [-> | H10]; [reflexivity |].
    rewrite flat_map_step, powershellEscapeChar_plain by done.
    cbn [powershellEscapePass flat_map replaceNewlines].
    apply N.eqb_neq in H13, H10. by rewrite H13, H10.
  - destruct (N.eqb_spec u 13) as [-> | H13].
    + destruct (N.eqb_spec v 10) as [-> | H10].
      * change (powershellEscapePass (13 :: 10 :: s))
          with (lit "{ENTER}" ++ powershellEscapePass s).
        rewrite <- IH1. reflexivity.
      * change (powershellEscapePass (13 :: v :: s))
          with (if v =? 10 then lit "{ENTER}" ++ powershellEscapePass s
                else 13 :: powershellEscapePass (v :: s)).
        apply N.eqb_neq in H10 as H10'. rewrite H10', <- IH2.
        rewrite !flat_map_step.
        destruct (powershellEscapeChar_head v (flat_map powershellEscapeChar s) H10)
          as (x & rest & -> & Hx).
        change (powershellEscapeChar 13 ++ x :: rest) with (13 :: x :: rest).
        by apply replaceNewlines_cr.
    + rewrite flat_map_step.
      destruct (N.eqb_spec u 10) as [-> | H10].
      * change (powershellEscapePass (10 :: v :: s))
          with (lit "{ENTER}" ++ powershellEscapePass (v :: s)).
        rewrite <- IH2. reflexivity.
      * rewrite powershellEscapeChar_plain, IH2 by done.
        cbn [powershellEscapePass]. apply N.eqb_neq in H13, H10. by rewrite H13, H10.
Qed.

(** The handler's chain of replacements is one pass over the text that
    doubles each backslash and each double quote, puts a backtick before
    each backtick, dollar sign and square bracket, and writes [{ENTER}] for
    each line feed, together with the carriage return before it when there
    is one. *)
Lemma legacy_escape_pass (text : jsString) :
  Legacy.powershellEscape text = powershellEscapePass text.
Proof.
  unfold Legacy.powershellEscape.
  rewrite powershell_character_passes. apply powershell_newline_pass.
Qed.

Lemma occurrences_app u (a b : jsString) :
  occurrences u (a ++ b) = (occurrences u a + occurrences u b)%nat.
Proof. unfold occurrences. by rewrite List.filter_app, length_app. Qed.

Lemma occurrences_cons u v (s : jsString) :
  occurrences u (v :: s) = (occurrences u [v] + occurrences u s)%nat.
Proof. apply (occurrences_app u [v] s). Qed.

Lemma powershellEscapeChar_backslashes (u : codeUnit) :
  occurrences 92%N (powershellEscapeChar u) = (2 * occurrences 92%N [u])%nat.
Proof.
  unfold powershellEscapeChar.
  by_code_unit u. unfold occurrences. cbn [List.filter].
  replace (u =? 92) with false by (symmetry; by apply N.eqb_neq).
  reflexivity.
Qed.

Lemma powershellEscapePass_backslashes (text : jsString) :
  occurrences 92%N (powershellEscapePass text) = (2 * occurrences 92%N text)%nat.
Proof.
  induction text as [| u | u v s IH1 IH2] using jsString_pair_ind.
  - reflexivity.
  - cbn [powershellEscapePass].
    destruct (N.eqb_spec u 13) as [-> | H13]; [reflexivity |].
    destruct (N.eqb_spec u 10) as [-> | H10]; [reflexivity |].
    rewrite app_nil_r. apply powershellEscapeChar_backslashes.
  - change (powershellEscapePass (u :: v :: s))
      with (if u =? 13
            then if v =? 10 then lit "{ENTER}" ++ powershellEscapePass s
                 else u :: powershellEscapePass (v :: s)
            else if u =? 10 then lit "{ENTER}" ++ powershellEscapePass (v :: s)
            else powershellEscapeChar u ++ powershellEscapePass (v :: s)).
    destruct (N.eqb_spec u 13) as [-> | H13].
    + destruct (N.eqb_spec v 10) as [-> | H10].
      * rewrite occurrences_app, IH1. reflexivity.
      * rewrite (occurrences_cons 92%N 13 (powershellEscapePass _)), IH2.
        rewrite (occurrences_cons 92%N 13 (v :: s)). reflexivity.
    + destruct (N.eqb_spec u 10) as [-> | H10].
      * rewrite occurrences_app, IH2.
        rewrite (occurrences_cons 92%N 10 (v :: s)). reflexivity.
      * rewrite occurrences_app, IH2, powershellEscapeChar_backslashes.
        rewrite (occurrences_cons 92%N u (v :: s)). lia.
Qed.

Lemma spec_powershellEscape_backslashes (text : jsString) :
  occurrences 92%N (spec_powershellEscape text) = occurrences 92%N text.
Proof.
  induction text as [| u | u v s IH1 IH2] using jsString_pair_ind.
  - reflexivity.
  - cbn [spec_powershellEscape].
    destruct (N.eqb_spec u 13) as [-> | H13]; [reflexivity |].
    destruct (N.eqb_spec u 10) as [-> | H10]; [reflexivity |].
    by destruct (backtickPrefixed u).
  - change (spec_powershellEscape (u :: v :: s))
      with (if u =? 13
            then if v =? 10 then lit "{ENTER}" ++ spec_powershellEscape s
                 else u :: spec_powershellEscape (v :: s)
            else if u =? 10 then lit "{ENTER}" ++ spec_powershellEscape (v :: s)
            else if backtickPrefixed u then ch "`" :: u :: spec_powershellEscape (v :: s)
            else u :: spec_powershellEscape (v :: s)).
    destruct (N.eqb_spec u 13) as [-> | H13].
    + destruct (N.eqb_spec v 10) as [-> | H10].
      * rewrite occurrences_app, IH1. reflexivity.
      * rewrite (occurrences_cons 92%N 13 (spec_powershellEscape _)), IH2.
        by rewrite (occurrences_cons 92%N 13 (v :: s)).
    + destruct (N.eqb_spec u 10) as [-> | H10].
      * rewrite occurrences_app, IH2.
        rewrite (occurrences_cons 92%N 10 (v :: s)). reflexivity.
      * rewrite (occurrences_cons 92%N u (v :: s)).
        destruct (backtickPrefixed u).
        -- change (ch "`" :: u :: ?l) with ([ch "`"] ++ u :: l).
           rewrite occurrences_app, (occurrences_cons 92%N u (spec_powershellEscape _)), IH2.
           reflexivity.
        -- by rewrite (occurrences_cons 92%N u (spec_powershellEscape _)), IH2.
Qed.

Lemma powershellEscapeChar_agrees (u : codeUnit) (rest : jsString) :
  u <> 92 -> u <> 34 ->
  powershellEscapeChar u ++ rest =
    if backtickPrefixed u then ch "`" :: u :: rest else u :: rest.
Proof.
  intros H92 H34. unfold powershellEscapeChar, backtickPrefixed. cbn [existsb].
  by_code_unit u; done.
Qed.

Lemma powershellEscapePass_agrees (text : jsString) :
  92 ∉ text -> 34 ∉ text -> powershellEscapePass text = spec_powershellEscape text.
Proof.
  induction text as [| u | u v s IH1 IH2] using jsString_pair_ind.
  - reflexivity.
  - intros [H92 _]%not_elem_of_cons [H34 _]%not_elem_of_cons.
    cbn [powershellEscapePass spec_powershellEscape].
    destruct (u =? 13); [reflexivity |]. destruct (u =? 10); [reflexivity |].
    by apply powershellEscapeChar_agrees.
  - intros [H92 Hb]%not_elem_of_cons [H34 Hq]%not_elem_of_cons.
    specialize (IH2 Hb Hq).
    apply not_elem_of_cons in Hb as Hb'. apply not_elem_of_cons in Hq as Hq'.
    specialize (IH1 (proj2 Hb') (proj2 Hq')).
    change (powershellEscapePass (u :: v :: s))
      with (if u =? 13
            then if v =? 10 then lit "{ENTER}" ++ powershellEscapePass s
                 else u :: powershellEscapePass (v :: s)
            else if u =? 10 then lit "{ENTER}" ++ powershellEscapePass (v :: s)
            else powershellEscapeChar u ++ powershellEscapePass (v :: s)).
    change (spec_powershellEscape (u :: v :: s))
      with (if u =? 13
            then if v =? 10 then lit "{ENTER}" ++ spec_powershellEscape s
                 else u :: spec_powershellEscape (v :: s)
            else if u =? 10 then lit "{ENTER}" ++ spec_powershellEscape (v :: s)
            else if backtickPrefixed u then ch "`" :: u :: spec_powershellEscape (v :: s)
            else u :: spec_powershellEscape (v :: s)).
    rewrite IH1, IH2.
    destruct (u =? 13); [reflexivity |]. destruct (u =? 10); [reflexivity |].
    by apply powershellEscapeChar_agrees.
Qed.

(** C7. The handler does what the claim says for the backtick, the dollar
    sign, the square brackets and the newline sequences, and it agrees with
    the claim's escaping on every text without backslash and double quote.
    A backslash it writes twice instead of putting a backtick before it:
    the text [C:\x] becomes [C:\\x], where the claim's escaping gives
    [C:`\x]. In general the escaped text holds two backslashes for each one
    of the text, while the claim's escaping keeps their number; a backslash
    being an ordinary character of a double-quoted PowerShell string, both
    are typed. *)
Theorem legacy_powershell_escape_backslash :
  Legacy.powershellEscape (lit "C:\x") = lit "C:\\x" /\
  spec_powershellEscape (lit "C:\x") = lit "C:`\x" /\
  (forall text,
     occurrences 92%N (Legacy.powershellEscape text) = (2 * occurrences 92%N text)%nat /\
     occurrences 92%N (spec_powershellEscape text) = occurrences 92%N text) /\
  (forall text, 92 ∉ text -> 34 ∉ text ->
     Legacy.powershellEscape text = spec_powershellEscape text).
Proof.
  split; [reflexivity |]. split; [reflexivity |]. split.
  - intros text. rewrite legacy_escape_pass. split.
    + apply powershellEscapePass_backslashes.
    + apply spec_powershellEscape_backslashes.
  - intros text Hb Hq. rewrite legacy_escape_pass. by apply powershellEscapePass_agrees.
Qed.

(** * Further properties *)

(** ** Linux tools *)








(** X2. Clipboard paste on Linux overwrites the clipboard and waits
    before it looks for a tool, so the clipboard is rewritten also when
    the paste cannot be triggered. The key press is sent by [wtype] (on a
    Wayland session) or [xdotool], never by [ydotool], and only by a tool
    that [which] finds; the text is not among the arguments. The call fails
    exactly when [xdotool] is missing and [wtype] is missing or the session
    is not Wayland. *)
Theorem linux_clipboard_paste_writes_first
    (env : Env) (text requestId : jsString) (w : World) :
  let attempt := pasteViaClipboardLinux env text requestId w in
  let server := linuxDisplayServer (PLATFORM w) env in
  take 2 (attempt_actions attempt) = [WriteClipboard text; SetTimeout 100] /\
  match verdict attempt with
  | CommandResult method =>
      method = lit "clipboard" /\
      exists tool args,
        drop 2 (attempt_actions attempt) = [ExecuteCommand tool args 3000 requestId] /\
        which env tool = true /\ tool ∈ [lit "wtype"; lit "xdotool"] /\
        (tool = lit "wtype" -> server = wayland) /\
        (args = [lit "-M"; lit "ctrl"; lit "-k"; lit "v"; lit "-m"; lit "ctrl"] \/
         args = [lit "key"; lit "--clearmodifiers"; lit "ctrl+v"])
  | Failure _ =>
      drop 2 (attempt_actions attempt) = [] /\
      which env (lit "xdotool") = false /\
      (server = wayland -> which env (lit "wtype") = false)
  end.
Proof.
  intros attempt server. subst attempt. unfold pasteViaClipboardLinux, hasCommand.
  fold server. split.
  - destruct (bool_decide (server = wayland) && which env (lit "wtype"));
      [| destruct (which env (lit "xdotool"))]; reflexivity.
  - destruct (bool_decide (server = wayland)) eqn:Hs;
      [apply bool_decide_eq_true in Hs | apply bool_decide_eq_false in Hs];
      destruct (which env (lit "wtype")) eqn:Hw;
      destruct (which env (lit "xdotool")) eqn:Hx;
      cbn [andb verdict attempt_actions app drop];
      try (repeat split; try done; congruence).
    all: split; [reflexivity |]; eexists _, _; split; [reflexivity |].
    all: split; [done |]; split; [set_solver |]; split; [try done; discriminate |].
    all: auto.
Qed.

(** X3. The warning [checkPlatformTools] logs at startup on Linux says
    exactly that clipboard paste will fail: it is logged if and only if
    [pasteViaClipboardLinux] fails. Keystroke simulation is more tolerant:
    it fails exactly when the warning was logged and [ydotool] is missing
    too. *)
Theorem linux_startup_warning_predicts_paste
    (env : Env) (text requestId : jsString) (delay : Z) (w : World) :
  PLATFORM w = linux ->
  let warned :=
    level <$> head (logs (checkPlatformTools env w)) = Some (lit "warn") in
  (warned <-> exists e, verdict (pasteViaClipboardLinux env text requestId w) = Failure e) /\
  (warned /\ which env (lit "ydotool") = false <->
   exists e, verdict (fst (simulateKeystrokesLinux env text delay requestId w)) = Failure e).
Proof.
  intros Hlinux warned. subst warned.
  unfold checkPlatformTools, pasteViaClipboardLinux, simulateKeystrokesLinux, hasCommand.
  rewrite Hlinux.
  destruct (linuxDisplayServer linux env) eqn:Hs;
    destruct (which env (lit "wtype")) eqn:Hw;
    destruct (which env (lit "xdotool")) eqn:Hx;
    destruct (which env (lit "ydotool")) eqn:Hy;
    cbn [negb andb bool_decide decide_rel fst verdict];
    rewrite ?log_head; cbn [fmap option_fmap option_map level];
    repeat rewrite bool_decide_eq_false_2 by discriminate;
    repeat rewrite bool_decide_eq_true_2 by reflexivity;
    cbn [andb verdict fst];
    repeat split; intros;
    try (repeat match goal with
                | H : _ /\ _ |- _ => destruct H
                | H : exists _, _ |- _ => destruct H
                end; discriminate);
    try (split; reflexivity); try reflexivity; eauto.
Qed.

Lemma linux_startup_warning_predicts_paste_witness :
  level <$> head (logs (checkPlatformTools onlyYdotool sampleLinuxWorld)) = Some (lit "warn") /\
  (exists e, verdict (pasteViaClipboardLinux onlyYdotool (lit "x") (lit "r1") sampleLinuxWorld)
             = Failure e) /\
  ~ (exists e, verdict (fst (simulateKeystrokesLinux onlyYdotool (lit "x") 12 (lit "r1")
                               sampleLinuxWorld)) = Failure e).
Proof.
  destruct (linux_startup_warning_predicts_paste onlyYdotool (lit "x") (lit "r1") 12
              sampleLinuxWorld eq_refl) as [Hpaste Htype].
  assert (level <$> head (logs (checkPlatformTools onlyYdotool sampleLinuxWorld))
          = Some (lit "warn")) as Hwarned by reflexivity.
  split; [exact Hwarned |]. split.
  - apply Hpaste, Hwarned.
  - intros Hfails. apply Htype in Hfails as [_ Hy]. discriminate Hy.
Defined.

(** X4. On every platform, clipboard paste puts the text on the clipboard,
    waits 100 ms, and then does something that does not depend on the text:
    the command it runs, its arguments and the outcome it reports are the
    same for every text. The text travels through the clipboard only. *)
Theorem clipboard_paste_command_ignores_text
    (env : Env) (requestId : jsString) (w : World) :
  exists rest outcome,
    forall text,
      pasteViaClipboard env text requestId w =
        mkAttempt (WriteClipboard text :: SetTimeout 100 :: rest) outcome.
Proof.
  unfold pasteViaClipboard, pasteViaClipboardLinux, hasCommand, ofDispatch,
    pasteViaClipboardWindows, pasteViaClipboardMac.
  cbn [actions dispatch_method].
  destruct (PLATFORM w).
  - eexists _, _. intros text. reflexivity.
  - destruct (bool_decide _ && which env (lit "wtype"));
      [| destruct (which env (lit "xdotool"))]; eexists _, _; intros text; reflexivity.
  - eexists _, _. intros text. reflexivity.
Qed.

(** ** The batches of a keystroke run *)

Lemma batches_concat (text : jsString) (size n : nat) : forall index,
  (length text <= index + n * size)%nat ->
  concat (map (fun i => take size (drop i text)) (batchOffsets size index n)) = drop index text.
Proof.
  induction n as [| n IH]; intros index Hup.
  - simpl. rewrite drop_ge by lia. reflexivity.
  - rewrite batchOffsets_next. cbn [map concat]. rewrite IH by lia.
    rewrite <- drop_drop. apply take_drop.
Qed.

Lemma execCommands_batches text delay (offsets : list nat) :
  execCommands (flat_map (batchActionsAt text delay) offsets) =
    map (fun i => sendWaitCommand (safeEscapedBatch (take (batchLength delay) (drop i text))))
        offsets.
Proof.
  unfold execCommands. induction offsets as [| i offsets IH]; [reflexivity |].
  rewrite flat_map_step, omap_app, IH. reflexivity.
Qed.

Lemma pauses_batches text delay (offsets : list nat) :
  pauses (flat_map (batchActionsAt text delay) offsets) =
    map (fun _ => (delay * Z.min (batchSize delay) 5)%Z) offsets.
Proof.
  unfold pauses. induction offsets as [| i offsets IH]; [reflexivity |].
  rewrite flat_map_step, omap_app, IH. reflexivity.
Qed.

Lemma simulateKeystrokesWindows_run text delay requestId outcome w :
  let offsets := batchOffsets (batchLength delay) 0
                   (batchCount (length text) (batchLength delay) 0) in
  let '(result, trace, _) := simulateKeystrokesWindows text delay requestId outcome w in
  result = finish (omap (batchFailure outcome) offsets) /\
  trace = SetTimeout 200 :: flat_map (batchActionsAt text delay) offsets.
Proof.
  intros offsets. unfold simulateKeystrokesWindows.
  destruct (batchCount_bounds (length text) (batchLength delay) 0 (batchSize_pos delay))
    as [Hup Hlow].
  exact (processNextBatch_run text delay requestId outcome _ 0 [] [SetTimeout 200] _ Hup Hlow).
Qed.

(** X5. A keystroke run on Windows cuts the text into consecutive batches
    that together are the text: nothing is lost, repeated or reordered.
    Every batch is non-empty and at most [batchSize] (so at most 20) code
    units long, one process is started per batch, with the escaped batch
    in its command, and each is followed by the same pause. For the empty
    text no process is started and the run succeeds. *)
Theorem batches_partition_the_text
    (text : jsString) (delay : Z) (requestId : jsString)
    (outcome : nat -> option jsString) (w : World) :
  let '(result, trace, _) := simulateKeystrokesWindows text delay requestId outcome w in
  exists batches : list jsString,
    concat batches = text /\
    Forall (fun batch => 0 < length batch <= batchLength delay /\ length batch <= 20)%nat
           batches /\
    execCommands trace = map (fun batch => sendWaitCommand (safeEscapedBatch batch)) batches /\
    pauses trace = 200%Z :: map (fun _ => (delay * Z.min (batchSize delay) 5)%Z) batches /\
    length trace = (1 + 2 * length batches)%nat /\
    (text = [] -> trace = [SetTimeout 200] /\ ks_success result = true).
Proof.
  pose proof (simulateKeystrokesWindows_run text delay requestId outcome w) as H.
  cbv zeta in H.
  destruct (simulateKeystrokesWindows text delay requestId outcome w) as [[result trace] w'].
  destruct H as (Hresult & Htrace).
  set (size := batchLength delay) in *.
  set (offsets := batchOffsets size 0 (batchCount (length text) size 0)) in *.
  assert (0 < size)%nat as Hpos by apply batchSize_pos.
  pose proof (batchOffsets_multiples (length text) size Hpos) as Hoffsets.
  fold offsets in Hoffsets.
  assert (size <= 20)%nat as Hmax.
  { unfold size, batchLength, batchSize. destruct (delay =? 0)%Z; lia. }
  exists (map (fun i => take size (drop i text)) offsets).
  split; [| split; [| split; [| split; [| split]]]].
  - unfold offsets. rewrite batches_concat; [reflexivity |].
    apply (batchCount_bounds (length text) size 0 Hpos).
  - apply Forall_fmap, Forall_forall. intros i Hi. apply Hoffsets in Hi as [Hi _].
    cbn. rewrite length_take, length_drop. lia.
  - rewrite Htrace. change (execCommands (SetTimeout 200 :: ?l)) with (execCommands l).
    rewrite execCommands_batches, map_map. reflexivity.
  - rewrite Htrace. change (pauses (SetTimeout 200 :: ?l)) with (200%Z :: pauses l).
    rewrite pauses_batches, map_map. reflexivity.
  - rewrite Htrace, length_map. cbn [length]. f_equal.
    clear. induction offsets as [| i offsets IH]; [reflexivity |].
    rewrite flat_map_step, length_app, IH. simpl. lia.
  - intros ->. rewrite Htrace, Hresult. destruct offsets as [| i rest] eqn:E.
    + split; reflexivity.
    + assert (i ∈ i :: rest) as Hi by apply list_elem_of_here.
      apply Hoffsets in Hi as [Hi _]. simpl in Hi. lia.
Qed.

(** ** Pacing *)

(** X6. For positive delays, a longer delay never gives a larger batch.
    The pause after a batch is between one and five delays, never more than
    the delay times the batch size, and never more than 200 ms unless the
    delay itself is; below 34 ms the pause is five delays although the
    batch holds more than five characters. A delay of 0 gives batches of 20
    and no pause, and a negative delay gives batches of one character. *)
Theorem pacing_bounds (d1 d2 : Z) :
  (0 < d1 <= d2)%Z ->
  (batchSize d2 <= batchSize d1)%Z /\
  (d1 <= batchPause d1 <= 5 * d1)%Z /\
  (batchPause d1 <= d1 * batchSize d1)%Z /\
  (batchPause d1 <= Z.max 200 d1)%Z /\
  (d1 < 34 -> batchPause d1 = 5 * d1 /\ 5 < batchSize d1)%Z /\
  (batchSize 0 = 20 /\ batchPause 0 = 0)%Z /\
  (forall d, d < 0 -> batchSize d = 1 /\ batchPause d = d)%Z.
Proof.
  intros [Hpos Hle]. unfold batchPause, batchSize.
  destruct (Z.eqb_spec d1 0) as [-> | _]; [lia |].
  destruct (Z.eqb_spec d2 0) as [-> | _]; [lia |].
  assert (200 / d2 <= 200 / d1)%Z as Hmono by (apply Z.div_le_compat_l; lia).
  assert (0 <= 200 / d1)%Z as Hq by (apply Z.div_pos; lia).
  pose proof (Z.mul_div_le 200 d1 Hpos) as Hfloor.
  assert (200 < d1 * (200 / d1 + 1))%Z as Hceil.
  { pose proof (Z.div_mod 200 d1 ltac:(lia)). pose proof (Z.mod_pos_bound 200 d1 Hpos). lia. }
  split; [lia |]. split; [nia |]. split; [nia |]. split; [| split; [| split]].
  - destruct (Z.le_gt_cases 5 (200 / d1)) as [Hbig | Hsmall].
    + replace (Z.min (Z.max 1 (Z.min 20 (200 / d1))) 5) with 5%Z by lia. nia.
    + destruct (Z.le_gt_cases 1 (200 / d1)) as [Hone | Hzero].
      * replace (Z.min (Z.max 1 (Z.min 20 (200 / d1))) 5) with (200 / d1)%Z by lia. lia.
      * replace (Z.min (Z.max 1 (Z.min 20 (200 / d1))) 5) with 1%Z by lia. nia.
  - intros Hfast. assert (5 < 200 / d1)%Z by nia. lia.
  - split; reflexivity.
  - intros d Hneg. destruct (Z.eqb_spec d 0) as [-> | _]; [lia |].
    assert (200 / d < 0)%Z as Hq'.
    { pose proof (Z.div_mod 200 d ltac:(lia)). pose proof (Z.mod_neg_bound 200 d Hneg). nia. }
    lia.
Qed.

Lemma pacing_bounds_witness :
  (batchSize 50 <= batchSize 10)%Z /\ (10 <= batchPause 10 <= 5 * 10)%Z /\
  batchPause 10 = (5 * 10)%Z.
Proof.
  destruct (pacing_bounds 10 50 ltac:(lia)) as (Hmono & Hpause & _ & _ & Hfast & _).
  split; [exact Hmono |]. split; [exact Hpause |]. apply Hfast. lia.
Defined.

(** ** What the escaped literals never contain *)

Lemma not_elem_of_flat_map {A B} (f : A -> list B) (l : list A) (y : B) :
  (forall x, y ∉ f x) -> y ∉ flat_map f l.
Proof.
  intros H. induction l as [| x l IH]; [apply not_elem_of_nil |].
  rewrite flat_map_step, elem_of_app. intros [Hx | Hl]; [by apply (H x) | by apply IH].
Qed.

(** Settle a closed decidable statement by evaluation. *)
Ltac by_evaluation :=
  match goal with
  | |- ?P => apply (bool_decide_unpack P); vm_compute; exact I
  end.

Lemma shellChar_no_newline (u : codeUnit) : (10 ∉ shellChar u) /\ (13 ∉ shellChar u).
Proof.
  unfold shellChar, batchChar, sendKeysChar. rewrite escapeSendKeys_one.
  destruct (N.eqb_spec u 10) as [-> | H10]; [split; by_evaluation |].
  destruct (N.eqb_spec u 13) as [-> | H13]; [split; apply not_elem_of_nil |].
  by_code_unit u; try (split; by_evaluation).
  split; rewrite list_elem_of_singleton; congruence.
Qed.

(** X7. The literal [pasteViaShellWindows] builds contains no line feed
    and no carriage return, whatever the text, and no single quote of it
    can end the single-quoted PowerShell string it is put into: read as the
    body of such a string it is the escaped text before the quotes were
    doubled. On a text without line feeds and carriage returns it is the
    same literal the batched path builds. *)
Theorem shell_paste_literal_is_one_line (text : jsString) :
  (10 ∉ shellEscapedText text) /\ (13 ∉ shellEscapedText text) /\
  singleQuotedBody (shellEscapedText text)
    = Some (fold_left shellEscapeStep (codePoints text) []) /\
  (10 ∉ text -> 13 ∉ text -> shellEscapedText text = safeEscapedBatch text).
Proof.
  split; [| split; [| split]].
  - rewrite shellEscapedText_units. apply not_elem_of_flat_map. intros u.
    apply shellChar_no_newline.
  - rewrite shellEscapedText_units. apply not_elem_of_flat_map. intros u.
    apply shellChar_no_newline.
  - apply singleQuotedBody_doubled.
  - intros H10 H13. rewrite shellEscapedText_units, safeEscapedBatch_units.
    induction text as [| u text IH]; [reflexivity |].
    rewrite !flat_map_step.
    apply not_elem_of_cons in H10 as [H10 H10'].
    apply not_elem_of_cons in H13 as [H13 H13']. rewrite IH by done. f_equal.
    unfold shellChar. destruct (N.eqb_spec u 10); [congruence |].
    destruct (N.eqb_spec u 13); [congruence |]. reflexivity.
Qed.

Lemma shell_paste_literal_is_one_line_witness :
  shellEscapedText (lit "it's {x}") = safeEscapedBatch (lit "it's {x}").
Proof.
  apply (shell_paste_literal_is_one_line (lit "it's {x}")); by_evaluation.
Defined.

(** ** The AppleScript literal *)

Lemma appleScriptStringBody_char u rest :
  appleScriptStringBody (appleScriptChar u ++ rest) = cons u <$> appleScriptStringBody rest.
Proof.
  unfold appleScriptChar.
  destruct (N.eqb_spec u 92) as [-> | H92]; [reflexivity |].
  destruct (N.eqb_spec u 34) as [-> | H34]; [reflexivity |].
  cbn [orb app appleScriptStringBody].
  apply N.eqb_neq in H92, H34. by rewrite H92, H34.
Qed.

(** X8. The escaping of [simulateKeystrokesMac] loses nothing and cannot
    be broken out of: read back as the body of an AppleScript string
    literal, the escaped text is the original text, for every text; in
    particular no double quote of the text ends the literal. The escaped
    text is never shorter than the text and at most twice as long. *)
Theorem appleScript_escape_roundtrip (text : jsString) :
  appleScriptStringBody (appleScriptEscape text) = Some text /\
  (length text <= length (appleScriptEscape text) <= 2 * length text)%nat.
Proof.
  rewrite appleScriptEscape_units. split.
  - induction text as [| u text IH]; [reflexivity |].
    by rewrite flat_map_step, appleScriptStringBody_char, IH.
  - induction text as [| u text IH]; [simpl; lia |].
    rewrite flat_map_step, length_app. unfold appleScriptChar at 1 3.
    destruct ((u =? 92) || (u =? 34)); simpl in *; lia.
Qed.

(** ** The monitor across its life *)

Lemma stop_clears w : clipboardMonitorInterval (stopClipboardMonitoring w) = None.
Proof.
  unfold stopClipboardMonitoring.
  destruct (clipboardMonitorInterval w) eqn:E; [| exact E].
  cbv zeta. log_frame_goal. rewrite Hc. by destruct w.
Qed.

(** X9. The monitor never polls without a window: in every state the
    process can reach, a clipboard timer is held only while [mainWindow] is
    set, and after the window was closed or the application began to quit
    no timer is held at all. A timer that is no longer held does nothing
    when it fires. *)
Theorem no_polling_without_window
    (platform : Platform) (pid now : N) (events : list MonitorEvent) :
  let w := run events (initialWorld platform pid now) in
  (forall t, t ∈ intervals w -> mainWindow w = true) /\
  intervals (monitorStep w WindowClosed) = ∅ /\
  mainWindow (monitorStep w WindowClosed) = false /\
  intervals (monitorStep w BeforeQuit) = ∅ /\
  (forall t read, t ∉ intervals w -> monitorStep w (IntervalFires t read) = w).
Proof.
  intros w.
  assert (monitor_inv w) as Hinv by apply monitor_inv_run, monitor_inv_initial.
  assert (forall e, intervals (monitorStep w e) =
            match clipboardMonitorInterval (monitorStep w e) with
            | Some t => {[t]} | None => ∅ end) as Hstep.
  { intros e. pose proof (monitor_inv_step w e Hinv) as H. unfold monitor_inv in H.
    destruct (clipboardMonitorInterval (monitorStep w e)); tauto. }
  split; [| split; [| split; [| split]]].
  - intros t Ht. unfold monitor_inv in Hinv.
    destruct (clipboardMonitorInterval w); [tauto |].
    rewrite Hinv in Ht. by apply not_elem_of_empty in Ht.
  - rewrite Hstep. cbn [monitorStep]. by rewrite stop_clears.
  - cbn [monitorStep]. unfold stopClipboardMonitoring.
    destruct (clipboardMonitorInterval (set_mainWindow false w)); [| by destruct w].
    cbv zeta. log_frame_goal. rewrite Hm. by destruct w.
  - rewrite Hstep. cbn [monitorStep]. by rewrite stop_clears.
  - intros t read Ht. cbn [monitorStep]. unfold fireInterval. by rewrite decide_False.
Qed.

Lemma no_polling_without_window_witness :
  let w := run [WindowCreated; DomReady (ReadText (lit "x")); WindowClosed] sampleWorld in
  monitorStep w (IntervalFires 0 (ReadText (lit "y"))) = w.
Proof.
  intros w.
  destruct (no_polling_without_window win32 4242 0
              [WindowCreated; DomReady (ReadText (lit "x")); WindowClosed])
    as (_ & _ & _ & _ & Hdead).
  apply Hdead. by_evaluation.
Defined.

(** X10. [stopClipboardMonitoring] is idempotent in every state: after
    one call no timer is named, and a second call changes nothing (it does
    not even log). *)
Theorem stop_is_idempotent (w : World) :
  clipboardMonitorInterval (stopClipboardMonitoring w) = None /\
  stopClipboardMonitoring (stopClipboardMonitoring w) = stopClipboardMonitoring w.
Proof. split; [apply stop_clears | apply stop_none, stop_clears]. Qed.

Lemma tick_cases read w :
  mainWindow w = true ->
  let w' := clipboardTick read w in
  (exists text, read = ReadText text /\ changed text w /\
                clipboardEvents w' = clipboardEvents w ++ [text] /\
                lastClipboardText w' = text) \/
  (clipboardEvents w' = clipboardEvents w /\ lastClipboardText w' = lastClipboardText w).
Proof.
  intros Hwin w'. subst w'. destruct read as [text | message].
  - destruct (decide (changed text w)) as [Hch | Hn].
    + left. exists text. destruct (tick_changed text w Hwin Hch) as [He Hl].
      split; [reflexivity |]. split; [exact Hch |]. by split.
    + right. by rewrite tick_unchanged.
  - right. by destruct (tick_throws message w) as (_ & ? & ?).
Qed.

Lemma last_nonempty_default {A} (x : A) (l : list A) (d1 d2 : A) :
  List.last (x :: l) d1 = List.last (x :: l) d2.
Proof.
  revert x. induction l as [| y l IH]; intros x; [reflexivity |].
  change (List.last (y :: l) d1 = List.last (y :: l) d2). apply IH.
Qed.

Lemma session_announcements (t : nat) (reads : list ReadResult) : forall w,
  t ∈ intervals w -> mainWindow w = true ->
  exists news,
    clipboardEvents (run (fires t reads) w) = clipboardEvents w ++ news /\
    Forall (fun text => text <> []) news /\
    distinctNeighbours (lastClipboardText w :: news) /\
    lastClipboardText (run (fires t reads) w) = List.last news (lastClipboardText w).
Proof.
  induction reads as [| read reads IH]; intros w Hheld Hwin.
  - exists []. simpl. by rewrite app_nil_r.
  - unfold run, fires in *. cbn [map fold_left monitorStep]. rewrite fire_held by done.
    destruct (tick_frame read w) as (Hi & _ & Hm & _).
    destruct (IH (clipboardTick read w)) as (news & He & Hne & Hd & Hl);
      [by rewrite Hi | by rewrite Hm |].
    destruct (tick_cases read w Hwin) as [(text & -> & [Hdiff Hnon] & He1 & Hl1) | [He1 Hl1]].
    + exists (text :: news). rewrite He, He1, Hl, Hl1, <- app_assoc. rewrite Hl1 in Hd.
      repeat split; [by constructor | congruence | exact Hd |].
      destruct news as [| x news']; [reflexivity |].
      change (List.last (text :: x :: news') (lastClipboardText w))
        with (List.last (x :: news') (lastClipboardText w)).
      apply last_nonempty_default.
    + exists news. rewrite He, He1, Hl, Hl1. rewrite Hl1 in Hd. by repeat split.
Qed.

(** X11. While one monitor runs, whatever the clipboard reads return
    (texts or failures), the texts announced to the renderer are never
    empty, no text is announced twice in a row, the first one differs from
    the snapshot the session started from, and afterwards the snapshot is
    the last text announced (or the old snapshot when nothing was). *)
Theorem announcements_are_fresh
    (platform : Platform) (pid now : N) (events : list MonitorEvent)
    (t : nat) (reads : list ReadResult) :
  let w := run events (initialWorld platform pid now) in
  t ∈ intervals w ->
  exists news,
    clipboardEvents (run (fires t reads) w) = clipboardEvents w ++ news /\
    Forall (fun text => text <> []) news /\
    distinctNeighbours (lastClipboardText w :: news) /\
    lastClipboardText (run (fires t reads) w) = List.last news (lastClipboardText w).
Proof.
  intros w Hheld. apply session_announcements; [done |].
  assert (monitor_inv w) as Hinv by apply monitor_inv_run, monitor_inv_initial.
  unfold monitor_inv in Hinv. destruct (clipboardMonitorInterval w); [tauto |].
  rewrite Hinv in Hheld. by apply not_elem_of_empty in Hheld.
Qed.

Lemma announcements_are_fresh_witness :
  let w := run [WindowCreated; DomReady (ReadText (lit "x"))] sampleWorld in
  exists news,
    clipboardEvents (run (fires 0 [ReadText (lit "x"); ReadThrows (lit "busy"); ReadText []]) w)
      = clipboardEvents w ++ news /\
    Forall (fun text => text <> []) news /\
    distinctNeighbours (lastClipboardText w :: news) /\
    lastClipboardText (run (fires 0 [ReadText (lit "x"); ReadThrows (lit "busy"); ReadText []]) w)
      = List.last news (lastClipboardText w).
Proof.
  intros w.
  apply (announcements_are_fresh win32 4242 0 [WindowCreated; DomReady (ReadText (lit "x"))]).
  by_evaluation.
Defined.

(** ** Command execution: timer, child and log *)

Section ExecuteCommandMore.

Variables (command : jsString) (args : list jsString) (timeoutMs : Z) (requestId : jsString).
Variable spawn : SpawnCall -> SpawnOutcome.

Local Abbreviation deliver' := (deliver timeoutMs requestId).
Local Abbreviation executing w :=
  (logger.log (lit "info") (lit "command")
     (tag requestId ++ lit "Executing: " ++ command ++ lit " " ++ take 100 (join args))
     NoData w).

Lemma deliver_completed_frame (post : list ProcessEvent) : forall c w,
  completed c = true -> timerHeld c = false ->
  let s := fold_left deliver' post (c, w) in
  timerHeld (fst s) = false /\ snd s = w.
Proof.
  induction post as [| e post IH]; intros c w Hc Ht; [done |].
  cbn [fold_left].
  destruct (deliver' (c, w) e) as [c1 w1] eqn:E.
  assert (completed c1 = true /\ timerHeld c1 = false /\ w1 = w) as (H1 & H2 & ->).
  { destruct e; simpl in E; unfold onClose, onError, onTimeout in E; rewrite ?Hc, ?Ht in E;
      simpl in E; inversion E; subst; simpl; auto. }
  by apply IH.
Qed.

Lemma deliver_terminal_completes c w e :
  terminal e = true -> completed c = false -> timerHeld c = true ->
  let s := deliver' (c, w) e in
  completed (fst s) = true /\ timerHeld (fst s) = false /\
  (killed (fst s) = true <-> e = TimeoutFires \/ killed c = true) /\
  resolveCalls (fst s) <> [] /\
  exists level message data,
    settlementLog timeoutMs e = Some (level, message, data) /\
    snd s = logger.log level (lit "command") (tag requestId ++ message) data w.
Proof.
  intros He Hc Ht. destruct e; try discriminate He; cbn [deliver];
    unfold onClose, onError, onTimeout; rewrite ?Hc, ?Ht; cbn [negb fst snd completed
      timerHeld killed].
  - repeat split; try (intros [? | ?]; [discriminate | done]); try tauto.
    + intros E. by apply app_eq_nil in E as [_ ?].
    + eexists _, _, _. split; reflexivity.
  - repeat split; try (intros [? | ?]; [discriminate | done]); try tauto.
    + intros E. by apply app_eq_nil in E as [_ ?].
    + eexists _, _, _. split; reflexivity.
  - repeat split; try tauto.
    + intros E. by apply app_eq_nil in E as [_ ?].
    + eexists _, _, _. split; reflexivity.
Qed.

(** The command and the world once the first terminal event [e] has
    arrived after the chunks [pre], whatever comes later. *)
Lemma executeCommand_settled (pre post : list ProcessEvent) (e : ProcessEvent) w :
  spawn (spawnCall command args) = Spawned ->
  quiet pre = true -> terminal e = true ->
  let s := executeCommand command args timeoutMs requestId spawn (pre ++ e :: post) w in
  resolveCalls (fst s) <> [] /\ timerHeld (fst s) = false /\
  (killed (fst s) = true <-> e = TimeoutFires) /\
  thrown (fst s) = None /\
  exists level message data,
    settlementLog timeoutMs e = Some (level, message, data) /\
    snd s = logger.log level (lit "command") (tag requestId ++ message) data (executing w).
Proof.
  intros Hspawn Hq He s. subst s. rewrite executeCommand_spawned by done.
  assert (thrown (fst (fold_left deliver' (pre ++ e :: post)
                         (mkCommand [] [] false true false [] None, executing w))) = None)
    as Hthrown by (by rewrite deliver_thrown).
  revert Hthrown.
  rewrite fold_left_app.
  rewrite deliver_quiet by done.
  cbn [fold_left cmd_output cmd_error completed timerHeld killed resolveCalls thrown app].
  set (c0 := mkCommand (capturedOutput pre) (capturedError pre) false true false [] None).
  destruct (deliver_terminal_completes c0 (executing w) e He eq_refl eq_refl)
    as (Hc & Ht & Hk & Hr & level & message & data & Hlog & Hw).
  destruct (deliver' (c0, executing w) e) as [c1 w1]. cbn [fst snd] in *.
  destruct (deliver_completed timeoutMs requestId post c1 w1 Hc) as (_ & Hr' & Hk').
  destruct (deliver_completed_frame post c1 w1 Hc Ht) as (Ht' & Hw').
  intros Hthrown.
  rewrite Hr', Hk', Hw'. split; [done |]. split; [done |]. split; [| split; [done |]].
  - rewrite Hk. split; [intros [? | ?]; [done | discriminate] | auto].
  - by exists level, message, data.
Qed.

Lemma quiet_app_terminal pre e post :
  quiet (pre ++ e :: post) = true -> terminal e = false.
Proof.
  unfold quiet. rewrite forallb_app. cbn [forallb].
  intros [_ [He _]%andb_prop]%andb_prop. by destruct (terminal e).
Qed.

End ExecuteCommandMore.

(** One more entry in a buffer that is not over its bound. *)
Lemma logText_log level category message data w :
  (length (logs w) <= 200)%nat ->
  logText <$> logs (logger.log level category message data w)
    = take 200 ((level, category, message, data) :: (logText <$> logs w)) /\
  (length (logs (logger.log level category message data w)) <= 200)%nat.
Proof.
  intros Hlen. rewrite logs_log, unshift_pop_take by exact Hlen.
  change logger.maxLogs with 200%nat. split.
  - by rewrite fmap_take.
  - rewrite length_take. lia.
Qed.

(** X12. The promise of a command is rejected exactly when [spawn] throws,
    and then no timer was set and nothing is killed, whatever events are
    offered. Otherwise the timer of the command is held exactly while its
    promise is pending, and the promise is pending exactly while only
    output chunks have arrived: once the command is settled, by whichever
    event, no timer is left behind. The child is killed by the command if
    and only if the timeout was the first terminal event. *)
Theorem command_timer_and_child
    (command : jsString) (args : list jsString) (timeoutMs : Z) (requestId : jsString)
    (spawn : SpawnCall -> SpawnOutcome) (events : list ProcessEvent) (w : World) :
  let c := fst (executeCommand command args timeoutMs requestId spawn events w) in
  let call := mkSpawnCall command args true in
  (forall reason, promise c = Rejected reason <-> spawn call = SpawnThrows reason) /\
  (promise c = Pending <-> spawn call = Spawned /\ quiet events = true) /\
  (timerHeld c = true <-> promise c = Pending) /\
  (killed c = true <->
   spawn call = Spawned /\
   exists pre post, events = pre ++ TimeoutFires :: post /\ quiet pre = true).
Proof.
  intros c call. subst c call.
  change (mkSpawnCall command args true) with (spawnCall command args).
  destruct (spawn (spawnCall command args)) as [| thrownMessage] eqn:Hspawn.
  - destruct (quiet events) eqn:Hq.
    + rewrite executeCommand_quiet by done.
      unfold promise. cbn. repeat split; try done.
      intros (_ & pre & post & -> & _). apply quiet_app_terminal in Hq. discriminate Hq.
    + destruct (first_terminal events Hq) as (pre & e & post & -> & Hpre & He).
      destruct (executeCommand_settled command args timeoutMs requestId spawn pre post e w
                  Hspawn Hpre He) as (Hr & Ht & Hk & Hthrown & _).
      unfold promise. rewrite Ht, Hk, Hthrown.
      destruct (resolveCalls _) as [| r rest]; [done |].
      split; [| split; [| split]].
      * intros reason. split; discriminate.
      * split; [discriminate | by intros [_ ?]].
      * split; discriminate.
      * split.
        -- intros ->. split; [done |]. by exists pre, post.
        -- intros (_ & pre' & post' & E & Hpre').
           destruct (executeCommand_settled command args timeoutMs requestId spawn pre' post'
                       TimeoutFires w Hspawn Hpre' eq_refl) as (_ & _ & Hk' & _).
           rewrite <- E in Hk'. apply Hk. by apply Hk'.
  - rewrite (executeCommand_thrown _ _ _ _ _ thrownMessage) by done.
    unfold promise. cbn [fst thrown timerHeld killed].
    split; [| split; [| split]].
    + intros reason. split; congruence.
    + split; [discriminate | by intros [? _]].
    + split; discriminate.
    + split; [discriminate | by intros [? _]].
Qed.

(** X13. A command adds one entry to the log buffer when it is started,
    and that is all while only output chunks have arrived or when [spawn]
    threw. Once a child exists, the first timeout, close or error event
    adds exactly one more entry; chunks and everything that arrives after
    it add none. The second entry has level [success] exactly when the
    child closed with exit code 0. The monitor's state is not touched. *)
Theorem command_logs_start_and_settlement
    (command : jsString) (args : list jsString) (timeoutMs : Z) (requestId : jsString)
    (spawn : SpawnCall -> SpawnOutcome) (events : list ProcessEvent) (w : World) :
  (length (logs w) <= 200)%nat ->
  let started :=
    (lit "info", lit "command",
     tag requestId ++ lit "Executing: " ++ command ++ lit " " ++ take 100 (join args),
     NoData) in
  let call := mkSpawnCall command args true in
  let w' := snd (executeCommand command args timeoutMs requestId spawn events w) in
  (quiet events = true \/ (exists reason, spawn call = SpawnThrows reason) ->
     logText <$> logs w' = take 200 (started :: (logText <$> logs w))) /\
  (spawn call = Spawned ->
   forall pre e post,
     events = pre ++ e :: post -> quiet pre = true -> terminal e = true ->
     exists level message data,
       settlementLog timeoutMs e = Some (level, message, data) /\
       logText <$> logs w' =
         take 200 ((level, lit "command", tag requestId ++ message, data)
                   :: started :: (logText <$> logs w)) /\
       (level = lit "success" <-> e = Close (Some 0%Z))) /\
  (lastClipboardText w' = lastClipboardText w /\ intervals w' = intervals w /\
   clipboardMonitorInterval w' = clipboardMonitorInterval w /\
   mainWindow w' = mainWindow w).
Proof.
  intros Hlen started call w'. subst w' call.
  change (mkSpawnCall command args true) with (spawnCall command args).
  set (executing :=
         logger.log (lit "info") (lit "command")
           (tag requestId ++ lit "Executing: " ++ command ++ lit " " ++ take 100 (join args))
           NoData w).
  destruct (logText_log (lit "info") (lit "command")
              (tag requestId ++ lit "Executing: " ++ command ++ lit " " ++ take 100 (join args))
              NoData w Hlen) as [Hstarted Hlen'].
  fold executing in Hstarted, Hlen'. fold started in Hstarted.
  destruct (log_frame (lit "info") (lit "command")
              (tag requestId ++ lit "Executing: " ++ command ++ lit " " ++ take 100 (join args))
              NoData w) as (Hi & Hc & Hl & Hm & _).
  fold executing in Hi, Hc, Hl, Hm.
  destruct (spawn (spawnCall command args)) as [| thrownMessage] eqn:Hspawn.
  - split; [| split].
    + intros [Hq | [reason [=]]]. by rewrite executeCommand_quiet.
    + intros _ pre e post -> Hpre He.
      destruct (executeCommand_settled command args timeoutMs requestId spawn pre post e w
                  Hspawn Hpre He) as (_ & _ & _ & _ & level & message & data & Hlog & Hw).
      fold executing in Hw.
      exists level, message, data. split; [exact Hlog |]. split.
      * rewrite Hw.
        destruct (logText_log level (lit "command") (tag requestId ++ message) data
                    executing Hlen') as [-> _].
        rewrite Hstarted.
        change (take 200 (?x :: ?l)) with (x :: take 199 l).
        by rewrite take_take.
      * destruct e as [| | code | |]; try discriminate He; cbn in Hlog.
        -- destruct (decide (code = Some 0%Z)) as [-> | Hcode];
             inversion Hlog; subst; split; try done; congruence.
        -- inversion Hlog; subst. split; discriminate.
        -- inversion Hlog; subst. split; discriminate.
    + destruct (quiet events) eqn:Hq.
      * by rewrite executeCommand_quiet.
      * destruct (first_terminal events Hq) as (pre & e & post & -> & Hpre & He).
        destruct (executeCommand_settled command args timeoutMs requestId spawn pre post e w
                    Hspawn Hpre He) as (_ & _ & _ & _ & level & message & data & _ & Hw).
        fold executing in Hw. rewrite Hw.
        destruct (log_frame level (lit "command") (tag requestId ++ message) data executing)
          as (Hi' & Hc' & Hl' & Hm' & _).
        rewrite Hi', Hc', Hl', Hm'. by rewrite Hi, Hc, Hl, Hm.
  - rewrite (executeCommand_thrown _ _ _ _ _ thrownMessage) by done.
    cbn [snd]. fold executing. split; [| split]; [done | discriminate | done].
Qed.

Lemma command_logs_start_and_settlement_witness :
  let w' := snd (executeCommand (lit "xdotool") [lit "key"; lit "ctrl+v"] 3000 (lit "r1")
                   (fun _ => Spawned)
                   [StdoutData (lit "o"); Close (Some 0%Z); TimeoutFires] sampleWorld) in
  (length (logs sampleWorld) <= 200)%nat /\
  exists level message data,
    logText <$> logs w' =
      take 200 ((level, lit "command", tag (lit "r1") ++ message, data)
                :: (lit "info", lit "command",
                    tag (lit "r1") ++ lit "Executing: " ++ lit "xdotool" ++ lit " "
                    ++ take 100 (join [lit "key"; lit "ctrl+v"]), NoData)
                :: (logText <$> logs sampleWorld)) /\
    level = lit "success".
Proof.
  intros w'.
  assert (length (logs sampleWorld) <= 200)%nat as Hlen by (simpl; lia).
  split; [exact Hlen |].
  destruct (command_logs_start_and_settlement (lit "xdotool") [lit "key"; lit "ctrl+v"] 3000
              (lit "r1") (fun _ => Spawned)
              [StdoutData (lit "o"); Close (Some 0%Z); TimeoutFires] sampleWorld Hlen)
    as (_ & H & _).
  destruct (H eq_refl [StdoutData (lit "o")] (Close (Some 0%Z)) [TimeoutFires]
              eq_refl eq_refl eq_refl)
    as (level & message & data & _ & Hw & Hlevel).
  exists level, message, data. split; [exact Hw |]. by apply Hlevel.
Defined.

(** ** Global hotkeys *)

Lemma fold_left_pairs {S K I} (f : S -> K -> S) (a b : I -> K) (l : list I) (s : S) :
  fold_left (fun s i => f (f s (a i)) (b i)) l s
  = fold_left f (flat_map (fun i => [a i; b i]) l) s.
Proof. revert s. induction l as [| i l IH]; intros s; [reflexivity | apply IH]. Qed.

Section HotkeyFacts.

Variable register : jsString -> RegisterOutcome.

Local Abbreviation held_by key := (isRegistered register key).

Local Abbreviation counts_one := (countsOne register).

Lemma registerPasteKey_counts s key : counts_one s (registerPasteKey register s key) key.
Proof.
  unfold countsOne, registerPasteKey, isRegistered.
  destruct (register key); cbn; rewrite ?app_nil_r; repeat split; lia || reflexivity.
Qed.

Lemma registerAdditional_counts s entry :
  counts_one s (registerAdditional register s entry) (fst entry).
Proof.
  destruct entry as [key name]. unfold countsOne, registerAdditional, isRegistered.
  cbn [fst]. destruct (register key); cbn; rewrite ?app_nil_r; repeat split; lia || reflexivity.
Qed.

Lemma fold_counts {E} (step : HotkeySetup -> E -> HotkeySetup) (keyOf : E -> jsString)
    (l : list E) :
  (forall s e, counts_one s (step s e) (keyOf e)) ->
  forall s,
    let s' := fold_left step l s in
    let keys := map keyOf l in
    registeredCount s' = (registeredCount s + length (List.filter (isRegistered register) keys))%nat /\
    failedHotkeys s' =
      failedHotkeys s ++ List.filter (fun key => negb (isRegistered register key)) keys /\
    (forall key, key ∈ shortcuts s' <->
                 key ∈ shortcuts s \/ (key ∈ keys /\ isRegistered register key = true)).
Proof.
  intros Hstep. induction l as [| e l IH]; intros s.
  - cbn. rewrite app_nil_r. repeat split; try lia; try tauto.
    intros [? | [H _]]; [done | by apply not_elem_of_nil in H].
  - cbn [fold_left map List.filter]. destruct (IH (step s e)) as (Hc & Hf & Hs).
    destruct (Hstep s e) as (Hc1 & Hf1 & Hs1).
    cbv zeta. rewrite Hc, Hf, Hc1, Hf1.
    split; [| split].
    + destruct (isRegistered register (keyOf e)); cbn [negb length]; lia.
    + destruct (isRegistered register (keyOf e)); cbn [negb];
        by rewrite <- app_assoc.
    + intros key. rewrite Hs, Hs1, elem_of_cons.
      destruct (isRegistered register (keyOf e)) eqn:Hheld.
      * rewrite elem_of_union, elem_of_singleton. split.
        -- intros [[-> | ?] | [? ?]]; auto.
        -- intros [? | [[-> | ?] ?]]; auto.
      * split; [intros [? | [? ?]]; auto |].
        intros [? | [[-> | ?] ?]]; auto. congruence.
Qed.

Lemma filter_partition_length {A} (p : A -> bool) (l : list A) :
  (length (List.filter p l) + length (List.filter (fun x => negb (p x)) l))%nat = length l.
Proof.
  induction l as [| x l IH]; [reflexivity |].
  cbn [List.filter]. destruct (p x); cbn [negb length]; lia.
Qed.

Lemma setupHotkeys_counts platform :
  let s := setupHotkeys register platform in
  registeredCount s = length (List.filter (isRegistered register) allHotkeys) /\
  failedHotkeys s = List.filter (fun key => negb (isRegistered register key)) allHotkeys /\
  (forall key, key ∈ shortcuts s <->
               key ∈ allHotkeys /\ isRegistered register key = true).
Proof.
  unfold setupHotkeys. rewrite fold_left_pairs.
  set (s0 := mkHotkeySetup 0 [] ∅ _).
  pose proof (fold_counts (registerPasteKey register) id pasteKeys
                registerPasteKey_counts s0) as H1.
  rewrite map_id in H1. cbv zeta in H1. fold pasteKeys.
  set (s1 := fold_left (registerPasteKey register) pasteKeys s0) in *.
  pose proof (fold_counts (registerAdditional register) fst additionalHotkeys
                registerAdditional_counts s1) as H2.
  cbv zeta in H2.
  set (s2 := fold_left (registerAdditional register) additionalHotkeys s1) in *.
  destruct H1 as (Hc1 & Hf1 & Hs1), H2 as (Hc2 & Hf2 & Hs2).
  assert (registeredCount s2 = length (List.filter (isRegistered register) allHotkeys) /\
          failedHotkeys s2 = List.filter (fun key => negb (isRegistered register key)) allHotkeys /\
          (forall key, key ∈ shortcuts s2 <->
                       key ∈ allHotkeys /\ isRegistered register key = true))
    as (Hc & Hf & Hs).
  { unfold allHotkeys. rewrite !List.filter_app, length_app, Hc2, Hf2, Hc1, Hf1.
    split; [reflexivity |]. split; [reflexivity |].
    intros key. rewrite Hs2, Hs1, elem_of_app. subst s0. cbn [shortcuts].
    rewrite elem_of_empty. tauto. }
  cbv zeta. destruct (Nat.ltb 0 _); cbn [registeredCount failedHotkeys shortcuts]; auto.
Qed.

End HotkeyFacts.

(** X14. Whatever [globalShortcut.register] does for each accelerator
    (registers it, refuses, or throws), [setupHotkeys] accounts for all
    twenty-two: the count it reports and the failed list together are
    exactly the 22 of [total], the failed list holds the accelerators that
    were not registered, in order, and the application ends up holding
    exactly those that were. It reports failure only when none was. *)
Theorem setupHotkeys_accounts_for_all
    (register : jsString -> RegisterOutcome) (platform : Platform) :
  let s := setupHotkeys register platform in
  let report := registrationReport s in
  (report_registered report + length (report_failed report))%nat = report_total report /\
  length allHotkeys = report_total report /\
  report_registered report = length (List.filter (isRegistered register) allHotkeys) /\
  report_failed report = List.filter (fun key => negb (isRegistered register key)) allHotkeys /\
  (forall key, key ∈ shortcuts s <-> key ∈ allHotkeys /\ register key = Registered) /\
  (report_success report = false <->
   forall key, key ∈ allHotkeys -> register key <> Registered).
Proof.
  intros s report.
  destruct (setupHotkeys_counts register platform) as (Hc & Hf & Hs). fold s in Hc, Hf, Hs.
  assert (forall key, isRegistered register key = true <-> register key = Registered) as Hreg.
  { intros key. unfold isRegistered. destruct (register key); split; congruence. }
  subst report. unfold registrationReport. cbn [report_registered report_failed report_total
    report_success].
  split; [| split; [| split; [| split; [| split]]]].
  - rewrite Hc, Hf, filter_partition_length. reflexivity.
  - reflexivity.
  - exact Hc.
  - exact Hf.
  - intros key. rewrite Hs, Hreg. reflexivity.
  - rewrite Hc, Nat.ltb_ge. split.
    + intros Hnone key Hin Hkey. apply Hreg in Hkey.
      assert (key ∈ List.filter (isRegistered register) allHotkeys) as Hk
        by (apply list_elem_of_In, List.filter_In; split; [by apply list_elem_of_In | done]).
      destruct (List.filter _ allHotkeys); [by apply not_elem_of_nil in Hk | simpl in Hnone; lia].
    + intros Hall. destruct (List.filter _ allHotkeys) as [| key rest] eqn:E; [simpl; lia |].
      assert (In key (List.filter (isRegistered register) allHotkeys)) as Hk
        by (rewrite E; by left).
      apply List.filter_In in Hk as [Hin Hkey]. apply Hreg in Hkey.
      exfalso. apply (Hall key); [by apply list_elem_of_In | done].
Qed.

Lemma testKey_fold (held : gset jsString) (keys : list jsString) :
  forall count registered failed,
    fold_left (testKey held) keys (count, registered, failed) =
      ((count + length (List.filter (fun key => bool_decide (key ∈ held)) keys))%nat,
       registered ++ List.filter (fun key => bool_decide (key ∈ held)) keys,
       failed ++ List.filter (fun key => negb (bool_decide (key ∈ held))) keys).
Proof.
  induction keys as [| key keys IH]; intros count registered failed.
  - cbn. by rewrite Nat.add_0_r, !app_nil_r.
  - cbn [fold_left List.filter]. unfold testKey at 2.
    destruct (decide (key ∈ held)) as [Hin | Hout].
    + rewrite IH, bool_decide_eq_true_2 by done. cbn [negb length].
      rewrite <- !app_assoc, Nat.add_succ_r. reflexivity.
    + rewrite IH, bool_decide_eq_false_2 by done. cbn [negb].
      by rewrite <- !app_assoc.
Qed.

(** X15. The [test-hotkeys] handler looks at the eighteen accelerators of
    the nine cells only, while it reports a total of 22: the count it
    returns and its failed list always add up to 18, so it never reports
    all hotkeys as registered, whatever the application holds. Right after
    [setupHotkeys] its count is the count of [setupHotkeys] minus the
    additional hotkeys that were registered. *)
Theorem testHotkeys_counts_eighteen
    (platform : Platform) (held : gset jsString) (register : jsString -> RegisterOutcome) :
  let answer := testHotkeys platform held in
  (test_registered answer + length (failedKeys answer))%nat = 18%nat /\
  test_total answer = 22%nat /\
  (test_registered answer < test_total answer)%nat /\
  test_registered answer = length (registeredKeys answer) /\
  registeredKeys answer = List.filter (fun key => bool_decide (key ∈ held)) pasteKeys /\
  failedKeys answer = List.filter (fun key => negb (bool_decide (key ∈ held))) pasteKeys /\
  (let s := setupHotkeys register platform in
   report_registered (registrationReport s) =
     (test_registered (testHotkeys platform (shortcuts s))
      + length (List.filter (isRegistered register) (map fst additionalHotkeys)))%nat).
Proof.
  intros answer.
  assert (forall held', testHotkeys platform held' =
            mkHotkeyTest
              (Nat.ltb 0 (length (List.filter (fun key => bool_decide (key ∈ held')) pasteKeys)))
              (length (List.filter (fun key => bool_decide (key ∈ held')) pasteKeys)) 22
              (List.filter (fun key => bool_decide (key ∈ held')) pasteKeys)
              (List.filter (fun key => negb (bool_decide (key ∈ held'))) pasteKeys)
              (PLATFORM_NAME platform)) as Htest.
  { intros held'. unfold testHotkeys. rewrite fold_left_pairs. fold pasteKeys.
    by rewrite testKey_fold. }
  subst answer. rewrite Htest. cbn [test_registered failedKeys test_total registeredKeys].
  pose proof (filter_partition_length (fun key => bool_decide (key ∈ held)) pasteKeys) as Hsum.
  change (length pasteKeys) with 18%nat in Hsum.
  split; [exact Hsum |]. split; [reflexivity |]. split.
  { apply Nat.lt_le_trans with 19%nat; [| repeat constructor].
    apply Nat.lt_succ_r. rewrite <- Hsum. apply Nat.le_add_r. }
  split; [reflexivity |]. split; [reflexivity |]. split; [reflexivity |].
  set (s := setupHotkeys register platform).
  rewrite Htest. cbn [test_registered report_registered registrationReport].
  destruct (setupHotkeys_counts register platform) as (Hc & _ & Hs). fold s in Hc, Hs.
  rewrite Hc. unfold allHotkeys. rewrite List.filter_app, length_app. f_equal. f_equal.
  apply List.filter_ext_in. intros key Hin.
  destruct (isRegistered register key) eqn:Hkey.
  - symmetry. apply bool_decide_eq_true_2, Hs. split; [| done].
    unfold allHotkeys. apply elem_of_app. left. by apply list_elem_of_In.
  - symmetry. apply bool_decide_eq_false_2. intros Hheld. apply Hs in Hheld as [_ ?].
    congruence.
Qed.

(** ** The log as the renderer sees it *)

Lemma sent_record c w :
  sent (record c w) =
    sent w ++ (if mainWindow w then [MainProcessLog (entryOf w c)] else []).
Proof. unfold record. rewrite sent_log. by destruct w. Qed.

(** X16. Every [log] call is passed on to the renderer when there is a
    window, and to nobody when there is none: after any sequence of calls
    the messages sent are the entries of all the calls, oldest first, with
    nothing dropped, although the buffer of the main process keeps only the
    newest 200. *)
Theorem renderer_receives_every_entry (calls : list LogCall) (w : World) :
  let w' := fold_left (fun w c => record c w) calls w in
  sent w' = sent w ++ (if mainWindow w then map (fun c => MainProcessLog (entryOf w c)) calls
                       else []) /\
  mainWindow w' = mainWindow w.
Proof.
  revert w. induction calls as [| c calls IH]; intros w.
  - cbn. split; [| reflexivity]. destruct (mainWindow w); by rewrite app_nil_r.
  - cbn [fold_left map]. destruct (IH (record c w)) as [Hs Hm]. cbv zeta.
    destruct (record_frame c w) as (_ & _ & Hm1 & _).
    rewrite Hs, Hm, Hm1. split; [| reflexivity].
    rewrite sent_record.
    replace (map (fun c0 => MainProcessLog (entryOf (record c w) c0)) calls)
      with (map (fun c0 => MainProcessLog (entryOf w c0)) calls)
      by (apply map_ext; intros; unfold entryOf; by rewrite pid_record).
    destruct (mainWindow w); by rewrite <- ?app_assoc, ?app_nil_r.
Qed.

(** ** The preload bridge *)

(** X17. The preload bridge and the main process agree on the channels:
    a channel can be invoked through the bridge exactly when [main.js] has
    a handler for it, sent on exactly when [main.js] listens to it, and
    listened to exactly when [main.js] sends on it. No channel is open in
    two directions. *)
Theorem bridge_matches_main (channel : jsString) :
  (bridgeInvoke channel = Forwarded <-> channel ∈ handledChannels) /\
  (bridgeSend channel = Forwarded <-> channel ∈ listenedChannels) /\
  (bridgeOn channel = Forwarded <-> channel ∈ sentChannels) /\
  ~ (channel ∈ INVOKE_CHANNELS /\ channel ∈ SEND_CHANNELS) /\
  ~ (channel ∈ INVOKE_CHANNELS /\ channel ∈ RECEIVE_CHANNELS) /\
  ~ (channel ∈ SEND_CHANNELS /\ channel ∈ RECEIVE_CHANNELS).
Proof.
  assert (forall A B : list jsString,
            Forall (fun x => x ∈ B) A -> Forall (fun x => x ∈ A) B ->
            (channel ∈ A <-> channel ∈ B)) as Hsame.
  { intros A B HA HB. rewrite Forall_forall in HA, HB. split; auto. }
  assert (forall A B : list jsString,
            Forall (fun x => x ∉ B) A -> ~ (channel ∈ A /\ channel ∈ B)) as Hdisjoint.
  { intros A B HA [Ha Hb]. rewrite Forall_forall in HA. by apply (HA channel). }
  unfold bridgeInvoke, bridgeSend, bridgeOn.
  split; [| split; [| split; [| split; [| split]]]].
  - rewrite <- (Hsame INVOKE_CHANNELS handledChannels) by by_evaluation.
    case_decide; split; try done; discriminate.
  - rewrite <- (Hsame SEND_CHANNELS listenedChannels) by by_evaluation.
    case_decide; split; try done; discriminate.
  - rewrite <- (Hsame RECEIVE_CHANNELS sentChannels) by by_evaluation.
    case_decide; split; try done; discriminate.
  - apply Hdisjoint. by_evaluation.
  - apply Hdisjoint. by_evaluation.
  - apply Hdisjoint. by_evaluation.
Qed.

(** ** The two versions of the keystroke loop *)

Section LegacyBatchFacts.

Variables (text : jsString) (delay : Z) (requestId : jsString)
          (outcome : nat -> option jsString).

Local Abbreviation size := (batchLength delay).

Lemma legacyProcessNextBatch_step index errors trace w :
  legacyProcessNextBatch text delay requestId outcome index errors trace w =
    if decide (length text <= index)%nat
    then (fst (legacyFinish requestId errors w), trace, snd (legacyFinish requestId errors w))
    else
      legacyProcessNextBatch text delay requestId outcome (index + size)
        (errors ++ match batchFailure outcome index with Some e => [e] | None => [] end)
        (trace ++ legacyBatchActionsAt text delay index)
        (match outcome index with
         | Some message =>
             logger.log (lit "warn") (lit "paste")
               (lit "[" ++ requestId ++ lit "] Windows batch error at position "
                ++ showNat index)
               (ErrorData message) w
         | None => w
         end).
Proof.
  rewrite legacyProcessNextBatch_equation_1.
  destruct (decide (length text <= index)%nat); [reflexivity |].
  cbv beta iota delta [legacyProcessNextBatch_unfold_clause_1].
  unfold batchFailure, legacyBatchActionsAt, batchLength.
  destruct (outcome index); cbv zeta; rewrite <- (app_assoc trace), ?app_nil_r; reflexivity.
Qed.

Lemma legacyProcessNextBatch_run (n : nat) : forall index errors trace w,
  (length text <= index + n * size)%nat ->
  (n = 0%nat \/ index + (n - 1) * size < length text)%nat ->
  let '(result, trace', _) :=
    legacyProcessNextBatch text delay requestId outcome index errors trace w in
  result = finish (errors ++ omap (batchFailure outcome) (batchOffsets size index n)) /\
  trace' = trace ++ flat_map (legacyBatchActionsAt text delay) (batchOffsets size index n).
Proof.
  induction n as [| n IH]; intros index errors trace w Hup Hlow.
  - rewrite legacyProcessNextBatch_step, decide_True by lia.
    simpl. by rewrite !app_nil_r.
  - rewrite legacyProcessNextBatch_step, decide_False by lia.
    rewrite batchOffsets_next.
    specialize (IH (index + size)%nat
                  (errors ++ match batchFailure outcome index with
                             | Some e => [e] | None => [] end)
                  (trace ++ legacyBatchActionsAt text delay index)
                  (match outcome index with
                   | Some message =>
                       logger.log (lit "warn") (lit "paste")
                         (lit "[" ++ requestId ++ lit "] Windows batch error at position "
                          ++ showNat index) (ErrorData message) w
                   | None => w
                   end)).
    destruct (legacyProcessNextBatch _ _ _ _ _ _ _ _) as [[result trace'] w'].
    destruct IH as [-> ->]; [lia | destruct n; [by left | right; lia] |].
    rewrite flat_map_step, <- !app_assoc. split; [| reflexivity].
    f_equal. f_equal. cbn [omap list_omap]. by destruct (batchFailure outcome index).
Qed.

End LegacyBatchFacts.

Lemma replaceAll_absent c r (s : jsString) : c ∉ s -> replaceAll c r s = s.
Proof.
  induction s as [| u s IH]; [reflexivity |].
  intros [Hu Hs]%not_elem_of_cons. unfold replaceAll in *. rewrite flat_map_step, IH by done.
  destruct (N.eqb_spec u c); [congruence | reflexivity].
Qed.

Lemma safeEscapedBatch_without_quote (batch : jsString) :
  ch "'" ∉ batch -> safeEscapedBatch batch = Legacy.escapedBatch batch.
Proof.
  intros Hq. change (Legacy.escapedBatch batch) with (escapeBatch batch).
  unfold safeEscapedBatch. apply replaceAll_absent.
  rewrite escapeBatch_units. clear -Hq.
  induction batch as [| u batch IH]; [apply not_elem_of_nil |].
  apply not_elem_of_cons in Hq as [Hu Hb].
  rewrite flat_map_step, elem_of_app. intros [Hin | Hin]; [| by apply IH].
  unfold sendKeysChar in Hin. rewrite escapeSendKeys_one in Hin. revert Hin.
  change (ch "'" ∉ (if u =? ch "{" then lit "{{" else if u =? ch "}" then lit "}}"
    else if u =? ch "+" then lit "{+}" else if u =? ch "^" then lit "{^}"
    else if u =? ch "%" then lit "{%}" else if u =? ch "~" then lit "{~}"
    else if u =? ch "(" then lit "{(}" else if u =? ch ")" then lit "{)}"
    else if u =? ch "[" then lit "{[}" else if u =? ch "]" then lit "{]}"
    else [u])).
  by_code_unit u; try by_evaluation.
  rewrite list_elem_of_singleton. congruence.
Qed.

(** X18. The keystroke loop of the earlier Windows-only main process and
    the one of [src/main.js] return the same result object for the same
    text, delay and process outcomes, start the same number of processes
    and pause alike. On a text without a single quote their actions are
    identical; the later version differs only in doubling the single
    quotes of each escaped batch. *)
Theorem keystroke_loops_agree
    (text : jsString) (delay : Z) (requestId : jsString)
    (outcome : nat -> option jsString) (w1 w2 : World) :
  let '(result, trace, _) := simulateKeystrokesWindows text delay requestId outcome w1 in
  let '(legacyResult, legacyTrace, _) :=
    legacySimulateKeystrokesWindows text delay requestId outcome w2 in
  legacyResult = result /\
  length legacyTrace = length trace /\
  pauses legacyTrace = pauses trace /\
  (ch "'" ∉ text -> legacyTrace = trace) /\
  exists batches,
    concat batches = text /\
    execCommands legacyTrace =
      map (fun batch => legacySendWaitCommand (Legacy.escapedBatch batch)) batches /\
    execCommands trace =
      map (fun batch => sendWaitCommand
                          (replaceAll (ch "'") (lit "''") (Legacy.escapedBatch batch)))
          batches.
Proof.
  pose proof (simulateKeystrokesWindows_run text delay requestId outcome w1) as H1.
  cbv zeta in H1.
  destruct (simulateKeystrokesWindows text delay requestId outcome w1) as [[result trace] w1'].
  destruct H1 as [-> ->].
  unfold legacySimulateKeystrokesWindows.
  destruct (batchCount_bounds (length text) (batchLength delay) 0 (batchSize_pos delay))
    as [Hup Hlow].
  pose proof (legacyProcessNextBatch_run text delay requestId outcome _ 0 [] [SetTimeout 200]
                (logger.log (lit "info") (lit "paste")
                   (lit "[" ++ requestId
                    ++ lit "] Using optimized Windows keystroke simulation") NoData w2)
                Hup Hlow) as H2.
  destruct (legacyProcessNextBatch _ _ _ _ _ _ _ _) as [[legacyResult legacyTrace] w2'].
  destruct H2 as [-> ->]. cbn [app].
  set (size := batchLength delay) in *.
  set (offsets := batchOffsets size 0 (batchCount (length text) size 0)) in *.
  pose proof (batchOffsets_multiples (length text) size (batchSize_pos delay)) as Hoffsets.
  fold offsets in Hoffsets.
  split; [reflexivity |]. split; [| split; [| split]].
  - cbn [length]. f_equal. clear. induction offsets as [| i offsets IH]; [reflexivity |].
    rewrite !flat_map_step, !length_app, IH. reflexivity.
  - change (pauses (SetTimeout 200 :: ?l)) with (200%Z :: pauses l). f_equal.
    rewrite pauses_batches. clear. unfold pauses.
    induction offsets as [| i offsets IH]; [reflexivity |].
    rewrite flat_map_step, omap_app, IH. reflexivity.
  - intros Hq. f_equal. clear Hoffsets Hup Hlow.
    induction offsets as [| i offsets IH]; [reflexivity |].
    rewrite !flat_map_step, IH. f_equal.
    unfold legacyBatchActionsAt, batchActionsAt. fold size.
    rewrite safeEscapedBatch_without_quote; [reflexivity |].
    intros Hin. apply Hq. by apply (subseteq_drop i text), (subseteq_take size).
  - exists (map (fun i => take size (drop i text)) offsets).
    split; [| split].
    + unfold offsets. rewrite batches_concat; [reflexivity | exact Hup].
    + change (execCommands (SetTimeout 200 :: ?l)) with (execCommands l).
      rewrite map_map. clear. unfold execCommands.
      induction offsets as [| i offsets IH]; [reflexivity |].
      rewrite flat_map_step, omap_app, IH. reflexivity.
    + change (execCommands (SetTimeout 200 :: ?l)) with (execCommands l).
      rewrite execCommands_batches, map_map. reflexivity.
Qed.

Lemma keystroke_loops_agree_witness :
  snd (fst (legacySimulateKeystrokesWindows sampleText 50 (lit "r1") secondFails sampleWorld))
  = snd (fst (simulateKeystrokesWindows sampleText 50 (lit "r1") secondFails sampleWorld)).
Proof.
  pose proof (keystroke_loops_agree sampleText 50 (lit "r1") secondFails
                sampleWorld sampleWorld) as H.
  destruct (simulateKeystrokesWindows sampleText 50 (lit "r1") secondFails sampleWorld)
    as [[result trace] w1'].
  destruct (legacySimulateKeystrokesWindows sampleText 50 (lit "r1") secondFails sampleWorld)
    as [[legacyResult legacyTrace] w2'].
  destruct H as (_ & _ & _ & Hsame & _). apply Hsame. by_evaluation.
Defined.

(** ** The earlier PowerShell escaping, continued *)

Lemma powershellEscapeChar_no_newline (u : codeUnit) :
  u <> 10 -> 10 ∉ powershellEscapeChar u.
Proof.
  intros H10. unfold powershellEscapeChar.
  by_code_unit u; try by_evaluation.
  rewrite list_elem_of_singleton. congruence.
Qed.

Lemma powershellEscapePass_no_newline (text : jsString) : 10 ∉ powershellEscapePass text.
Proof.
  induction text as [| u | u v s IH1 IH2] using jsString_pair_ind.
  - apply not_elem_of_nil.
  - cbn [powershellEscapePass].
    destruct (N.eqb_spec u 13) as [-> | H13]; [by_evaluation |].
    destruct (N.eqb_spec u 10) as [-> | H10]; [by_evaluation |].
    rewrite app_nil_r. by apply powershellEscapeChar_no_newline.
  - change (powershellEscapePass (u :: v :: s))
      with (if u =? 13
            then if v =? 10 then lit "{ENTER}" ++ powershellEscapePass s
                 else u :: powershellEscapePass (v :: s)
            else if u =? 10 then lit "{ENTER}" ++ powershellEscapePass (v :: s)
            else powershellEscapeChar u ++ powershellEscapePass (v :: s)).
    destruct (N.eqb_spec u 13) as [-> | H13].
    + destruct (v =? 10).
      * rewrite elem_of_app. intros [H | H]; [revert H; by_evaluation | by apply IH1].
      * rewrite not_elem_of_cons. split; [discriminate | exact IH2].
    + destruct (N.eqb_spec u 10) as [-> | H10].
      * rewrite elem_of_app. intros [H | H]; [revert H; by_evaluation | by apply IH2].
      * rewrite elem_of_app. intros [H | H]; [| by apply IH2].
        by apply (powershellEscapeChar_no_newline u).
Qed.

(** X19. The escaping chain of the earlier [paste-powershell] handler
    never leaves a line feed in its output, so the command stays on one
    line whatever the text; and it leaves a text alone that has none of the
    characters it rewrites (backslash, double quote, backtick, dollar sign,
    square brackets, line feed). *)
Theorem legacy_escape_is_one_line (text : jsString) :
  (10 ∉ Legacy.powershellEscape text) /\
  (Forall (fun u => powershellTouched u = false) text -> Legacy.powershellEscape text = text).
Proof.
  rewrite legacy_escape_pass. split; [apply powershellEscapePass_no_newline |].
  induction text as [| u text IH]; [reflexivity |].
  intros [Hu Hrest]%Forall_cons. specialize (IH Hrest).
  unfold powershellTouched in Hu. cbn [existsb] in Hu.
  repeat (apply orb_false_elim in Hu as [? Hu]).
  cbn [powershellEscapePass]. unfold powershellEscapeChar.
  destruct (u =? 13).
  - destruct text as [| v text']; [reflexivity |].
    apply Forall_cons in Hrest as [Hv _].
    unfold powershellTouched in Hv. cbn [existsb] in Hv.
    repeat (apply orb_false_elim in Hv as [? Hv]).
    replace (v =? 10) with false by done. by rewrite IH.
  - repeat match goal with H : (u =? _) = false |- _ => rewrite H; clear H end.
    cbn [app]. by rewrite IH.
Qed.

Lemma legacy_escape_is_one_line_witness :
  Legacy.powershellEscape (lit "dir /s") = lit "dir /s".
Proof. apply (legacy_escape_is_one_line (lit "dir /s")). by_evaluation. Defined.

(** ** The [paste-via-clipboard] handler *)

Lemma promise_cases command args timeoutMs requestId spawn events w :
  match promise (fst (executeCommand command args timeoutMs requestId spawn events w)) with
  | Pending => quiet events = true
  | Fulfilled result =>
      exists pre e post,
        events = pre ++ e :: post /\ quiet pre = true /\ terminal e = true /\
        (success result = true -> e = Close (Some 0%Z))
  | Rejected reason => spawn (mkSpawnCall command args true) = SpawnThrows reason
  end.
Proof.
  change (mkSpawnCall command args true) with (spawnCall command args).
  destruct (spawn (spawnCall command args)) as [| thrownMessage] eqn:Hspawn;
    [| by rewrite (executeCommand_thrown _ _ _ _ _ thrownMessage)].
  destruct (quiet events) eqn:Hq.
  - by rewrite executeCommand_quiet.
  - destruct (first_terminal events Hq) as (pre & e & post & -> & Hpre & He).
    unfold promise.
    destruct e as [| | code | message |]; try discriminate He.
    + destruct (deliver_first_terminal command args timeoutMs requestId spawn pre post
                  (Close code) w Hspawn Hpre eq_refl) as (-> & _ & ->).
      cbn. exists pre, (Close code), post. repeat split; try done.
      all: destruct (decide (code = Some 0%Z)) as [-> | Hcode]; [done | discriminate].
    + destruct (deliver_first_terminal command args timeoutMs requestId spawn pre post
                  (SpawnError message) w Hspawn Hpre eq_refl) as (-> & _ & ->).
      cbn. exists pre, (SpawnError message), post. by repeat split.
    + destruct (deliver_first_terminal command args timeoutMs requestId spawn pre post
                  TimeoutFires w Hspawn Hpre eq_refl) as (-> & _ & ->).
      cbn. exists pre, TimeoutFires, post. by repeat split.
Qed.

Lemma pasteViaClipboard_shape env text requestId w :
  let attempt := pasteViaClipboard env text requestId w in
  take 2 (attempt_actions attempt) = [WriteClipboard text; SetTimeout 100] /\
  match verdict attempt with
  | CommandResult _ => exists c, commandOf attempt = Some c
  | Failure _ => True
  end.
Proof.
  unfold pasteViaClipboard, pasteViaClipboardLinux, hasCommand, commandOf.
  destruct (PLATFORM w); [cbn; by eauto | | cbn; by eauto].
  destruct (bool_decide (linuxDisplayServer linux env = wayland) && which env (lit "wtype"));
    [| destruct (which env (lit "xdotool"))]; cbn; eauto.
Qed.

(** X20. The [paste-via-clipboard] handler turns every failure into an
    answer. When a clipboard write throws, no command is started and the
    answer is a failure with the error's message and method [clipboard].
    Otherwise the clipboard is written twice with the same text before
    anything else happens, and the handler stays without an answer only
    while the command is pending. When it answers, either [spawn] threw
    and the answer is the failure with that error's message, logged at
    level [error], or its last log entry has level [success], also when
    the answer says [success: false]; the answer says [success: true] only
    if the command closed with exit code 0 before any other terminal
    event. *)
Theorem paste_handler_outcomes
    (env : Env) (text requestId : jsString) (writeThrows : nat -> option jsString)
    (spawn : SpawnCall -> SpawnOutcome) (events : list ProcessEvent) (w : World) :
  let '(answer, trace, w') :=
    pasteViaClipboardHandler env text requestId writeThrows spawn events w in
  let failure message :=
    mkIpcAnswer (mkResult false None (Some message) None None None (Some (lit "clipboard")))
                requestId (PLATFORM_NAME (PLATFORM w)) in
  (forall message, writeThrows 0%nat = Some message ->
     answer = Some (failure message) /\ trace = []) /\
  (writeThrows 0%nat = None -> forall message, writeThrows 1%nat = Some message ->
     answer = Some (failure message) /\ trace = [WriteClipboard text]) /\
  (writeThrows 0%nat = None -> writeThrows 1%nat = None ->
     take 3 trace = [WriteClipboard text; WriteClipboard text; SetTimeout 100] /\
     (answer = None -> quiet events = true) /\
     (forall a, answer = Some a ->
        (exists call message,
           spawn call = SpawnThrows message /\ spawn_shell call = true /\
           a = failure message /\
           level <$> head (logs w') = Some (lit "error")) \/
        (level <$> head (logs w') = Some (lit "success") /\
         (success (answer_result a) = true ->
          exists pre post, events = pre ++ Close (Some 0%Z) :: post /\ quiet pre = true)))).
Proof.
  unfold pasteViaClipboardHandler.
  set (w1 := logger.log _ _ _ _ w).
  assert (PLATFORM w1 = PLATFORM w) as Hp1 by apply platform_log.
  destruct (writeThrows 0%nat) as [m0 |] eqn:H0.
  { unfold pasteFailed. rewrite platform_log, Hp1.
    split; [| split]; [| done | done].
    intros message [= <-]. by split. }
  set (w2 := logger.log _ _ _ _ w1).
  assert (PLATFORM w2 = PLATFORM w) as Hp2 by (unfold w2; by rewrite platform_log).
  destruct (writeThrows 1%nat) as [m1 |] eqn:H1.
  { unfold pasteFailed. rewrite platform_log, Hp2.
    split; [| split]; [done | | done].
    intros _ message [= <-]. by split. }
  destruct (pasteViaClipboard_shape env text requestId w2) as [Htake Hcmd].
  set (attempt := pasteViaClipboard env text requestId w2) in *.
  assert (take 3 (WriteClipboard text :: attempt_actions attempt)
          = [WriteClipboard text; WriteClipboard text; SetTimeout 100]) as Htake3.
  { change (take 3 (?x :: ?l)) with (x :: take 2 l). by rewrite Htake. }
  destruct (verdict attempt) as [method | error].
  - destruct Hcmd as [[[[command args] timeoutMs] rid] ->].
    pose proof (promise_cases command args timeoutMs rid spawn events w2) as Hpromise.
    assert (PLATFORM (snd (executeCommand command args timeoutMs rid spawn events w2))
            = PLATFORM w) as Hp3.
    { rewrite <- Hp2. clear.
      unfold executeCommand, executeCommand_start.
      destruct (spawn (spawnCall command args)); cbn [fst thrown snd];
        [| apply platform_log].
      set (s := (_, logger.log _ _ _ _ w2)).
      assert (PLATFORM (snd s) = PLATFORM w2) as Hs by apply platform_log.
      clearbody s. revert s Hs.
      induction events as [| e events' IH]; intros s Hs; [exact Hs |].
      cbn [fold_left]. apply IH. destruct s as [c0 w0]. cbn [snd] in Hs.
      destruct e; cbn [deliver snd]; unfold onClose, onError, onTimeout;
        repeat match goal with
               | |- context [if ?b then _ else _] => destruct b
               end; cbn [snd]; rewrite ?platform_log; exact Hs. }
    destruct (executeCommand command args timeoutMs rid spawn events w2) as [c w3].
    cbn [fst snd] in Hpromise, Hp3.
    destruct (promise c) as [| result | reason].
    + split; [done |]. split; [done |]. intros _ _.
      split; [exact Htake3 |]. split; [done |]. discriminate.
    + unfold pasteCompleted. split; [done |]. split; [done |]. intros _ _.
      split; [exact Htake3 |]. split; [discriminate |].
      intros a [= <-]. right. rewrite log_head. split; [reflexivity |].
      cbn [answer_result with_method success]. intros Hsuccess.
      destruct Hpromise as (pre & e & post & -> & Hpre & _ & He).
      rewrite (He Hsuccess). by exists pre, post.
    + unfold pasteFailed. split; [done |]. split; [done |]. intros _ _.
      split; [exact Htake3 |]. split; [discriminate |].
      intros a [= <-]. left. exists (mkSpawnCall command args true), reason.
      split; [exact Hpromise |]. split; [reflexivity |].
      rewrite platform_log, Hp3, log_head. by split.
  - unfold pasteCompleted. split; [done |]. split; [done |]. intros _ _.
    split; [exact Htake3 |]. split; [discriminate |].
    intros a [= <-]. right. rewrite log_head. split; [reflexivity |]. discriminate.
Qed.

Lemma paste_handler_outcomes_witness :
  (let '(answer, trace, w') :=
     pasteViaClipboardHandler onlyYdotool (lit "x") (lit "r1") (fun _ => None)
                              (fun _ => Spawned) [] sampleLinuxWorld in
   take 3 trace = [WriteClipboard (lit "x"); WriteClipboard (lit "x"); SetTimeout 100] /\
   forall a, answer = Some a -> level <$> head (logs w') = Some (lit "success")) /\
  (let '(answer, trace, w') :=
     pasteViaClipboardHandler onlyXdotool (lit "x") (lit "r1") (fun _ => None)
                              (fun _ => SpawnThrows (lit "spawn ENOMEM")) []
                              sampleLinuxWorld in
   forall a, answer = Some a -> success (answer_result a) = false).
Proof.
  split.
  - pose proof (paste_handler_outcomes onlyYdotool (lit "x") (lit "r1") (fun _ => None)
                  (fun _ => Spawned) [] sampleLinuxWorld) as H.
    destruct (pasteViaClipboardHandler onlyYdotool (lit "x") (lit "r1") (fun _ => None)
                (fun _ => Spawned) [] sampleLinuxWorld) as [[answer trace] w'].
    destruct H as (_ & _ & H). destruct (H eq_refl eq_refl) as (Htake & _ & Hanswer).
    split; [exact Htake |]. intros a Ha.
    destruct (Hanswer a Ha) as [(call & message & Hthrows & _) | [Hlevel _]];
      [discriminate Hthrows | exact Hlevel].
  - pose proof (paste_handler_outcomes onlyXdotool (lit "x") (lit "r1") (fun _ => None)
                  (fun _ => SpawnThrows (lit "spawn ENOMEM")) [] sampleLinuxWorld) as H.
    destruct (pasteViaClipboardHandler onlyXdotool (lit "x") (lit "r1") (fun _ => None)
                (fun _ => SpawnThrows (lit "spawn ENOMEM")) [] sampleLinuxWorld)
      as [[answer trace] w'].
    destruct H as (_ & _ & H). destruct (H eq_refl eq_refl) as (_ & _ & Hanswer).
    intros a Ha.
    destruct (Hanswer a Ha) as [(call & message & _ & _ & -> & _) | [_ Hsuccess]];
      [reflexivity |].
    destruct (success (answer_result a)); [| reflexivity].
    destruct (Hsuccess eq_refl) as (pre & post & E & _). by destruct pre.
Defined.

(** ** How much an escaped batch grows *)

Lemma batchChar_length (u : codeUnit) :
  (1 <= length (batchChar u) <= 3)%nat /\ (batchTouched u = false -> batchChar u = [u]).
Proof.
  unfold batchChar, sendKeysChar. rewrite escapeSendKeys_one.
  destruct (N.eqb_spec u (ch "'")) as [-> | Hq]; [split; [cbn; lia | discriminate] |].
  by_code_unit u; try (split; [cbn; lia | discriminate]).
  split; [cbn; lia | reflexivity].
Qed.

Lemma flat_map_batchChar_length (batch : jsString) :
  (length batch <= length (flat_map batchChar batch) <= 3 * length batch)%nat.
Proof.
  induction batch as [| u batch IH]; [cbn; lia |].
  rewrite flat_map_step, length_app. destruct (batchChar_length u) as [Hu _].
  cbn [length]. lia.
Qed.

Lemma flat_map_batchChar_plain (batch : jsString) :
  Forall (fun u => batchTouched u = false) batch -> flat_map batchChar batch = batch.
Proof.
  induction batch as [| u batch IH]; [reflexivity |].
  intros [Hu Hrest]%Forall_cons. rewrite flat_map_step, IH by done.
  destruct (batchChar_length u) as [_ ->]; done.
Qed.

(** X21. Escaping a batch never shortens it and at most triples its
    length, so the literal of one process is at most 60 code units long;
    a batch without any of the ten special characters and without a single
    quote is put into the command unchanged. *)
Theorem escaped_batch_growth (batch : jsString) :
  (length batch <= length (safeEscapedBatch batch) <= 3 * length batch)%nat /\
  ((length batch <= 20)%nat -> (length (safeEscapedBatch batch) <= 60)%nat) /\
  (Forall (fun u => batchTouched u = false) batch -> safeEscapedBatch batch = batch).
Proof.
  rewrite safeEscapedBatch_units.
  pose proof (flat_map_batchChar_length batch) as Hlen.
  split; [exact Hlen |]. split; [lia |]. apply flat_map_batchChar_plain.
Qed.

Lemma escaped_batch_growth_witness :
  (length (safeEscapedBatch (lit "{{{{{")) <= 60)%nat /\
  safeEscapedBatch (lit "ls -la") = lit "ls -la".
Proof.
  destruct (escaped_batch_growth (lit "{{{{{")) as (_ & Hshort & _).
  destruct (escaped_batch_growth (lit "ls -la")) as (_ & _ & Hplain).
  split; [apply Hshort; vm_compute; lia | apply Hplain; by_evaluation].
Defined.
